(** * The Craig track-ingestion pipeline of [ennuizel-craig.ts]

    A shallow embedding of [loadData]: the closures it builds for each track
    ([sock.onmessage], [inStream.pull], the priming loop of [loadTrack],
    [trackStream.pull]) and the scheduling loop at its end.

    What the plugin reaches through [Ennuizel], [libav], the [WebSocket] and
    the promise machinery is not part of the plugin.  Its answers are inputs
    of the model: the messages a socket delivers and the ready state it is
    in, the results of the libav calls turn by turn, the way each loader
    settles and the order in which the scheduler sees that.  What the plugin
    does to the outside is recorded as lists of events.

    Numbers: byte values and integers are [Z]; the duration, a JavaScript
    number built from sums of quotients, is an exact rational. *)

From Stdlib Require Import ZArith QArith Strings.Byte Ascii String Lia.
From Stdlib Require Import DecimalString DecimalNat.
From stdpp Require Import base list strings.

Local Open Scope nat_scope.

(** ** Results of calls that can throw *)

Inductive Exn :=
| TypeError
| RangeError
| LibavError (code : Z).

Inductive result (A : Type) :=
| Ok (a : A)
| Throw (e : Exn).
Arguments Ok {A} a.
Arguments Throw {A} e.

(** ** [ArrayBuffer] and [DataView] *)

Module Buffer.

Definition u8 (b : byte) : Z := Z.of_N (Byte.to_N b).

Definition byte_of_Z (z : Z) : byte :=
  match Byte.of_N (Z.to_N (z mod 256)) with
  | Some b => b
  | None => x00
  end.

(** [new ArrayBuffer(n)]: [n] zero bytes. *)
Definition ArrayBuffer (n : nat) : list byte := replicate n x00.

(** The value of four bytes, least significant first. *)
Definition u32 (b0 b1 b2 b3 : byte) : Z :=
  (u8 b0 + 2 ^ 8 * u8 b1 + 2 ^ 16 * u8 b2 + 2 ^ 24 * u8 b3)%Z.

(** [view.getUint32(byteOffset, littleEndian)]; [None] is the [RangeError]
    of a read that does not fit in the buffer. *)
Definition getUint32 (view : list byte) (byteOffset : nat) (littleEndian : bool)
  : option Z :=
  match drop byteOffset view with
  | b0 :: b1 :: b2 :: b3 :: _ =>
      Some (if littleEndian then u32 b0 b1 b2 b3 else u32 b3 b2 b1 b0)
  | _ => None
  end.

(** The four bytes of [value] (taken modulo 2^32), least significant first. *)
Definition le_bytes (value : Z) : list byte :=
  let v := (value mod 2 ^ 32)%Z in
  [byte_of_Z v; byte_of_Z (v / 2 ^ 8); byte_of_Z (v / 2 ^ 16); byte_of_Z (v / 2 ^ 24)].

(** [view.setUint32(byteOffset, value, littleEndian)]; [None] is the
    [RangeError] of a write that does not fit. *)
Definition setUint32 (view : list byte) (byteOffset : nat) (value : Z)
    (littleEndian : bool) : option (list byte) :=
  if decide (byteOffset + 4 <= length view) then
    Some (take byteOffset view
            ++ (if littleEndian then le_bytes value else rev (le_bytes value))
            ++ drop (byteOffset + 4) view)
  else None.

End Buffer.

(** ** The socket of one track: [sock.onmessage] and [inStream.pull] *)

Module Channel.
Import Buffer.

(** [ev.data]: a text message is a string, a binary one an [ArrayBuffer]
    ([sock.binaryType = 'arraybuffer']). *)
Inductive MsgData :=
| Text (s : string)
| Binary (b : list byte).

(** [WebSocket.readyState]. *)
Inductive ReadyState := CONNECTING | OPEN | CLOSING | CLOSED.

(** One entry of the [status] table of [loadData]; [duration] is
    [number | boolean] in the source. *)
Inductive Duration :=
| DFalse
| DTrue
| DNum (q : Q).

Record Status := mkStatus {
  name : string;
  duration : Duration;
  ready : bool
}.

(** What [showStatus] prints for an entry, branch by branch. *)
Inductive Progress :=
| Waiting
| NotLoading
| Finished
| Loading (seconds : Q).

Definition progress (x : Status) : Progress :=
  if negb (ready x) then Waiting
  else match duration x with
       | DFalse => NotLoading
       | DTrue => Finished
       | DNum q => Loading q
       end.

(** The literal [{"ok":true}] of the handshake check. *)
Definition dquote : ascii := ascii_of_nat 34.
Definition ok_marker : string :=
  String "{" (String dquote ("ok" +:+ String dquote ":true}")).

(** [ev.data === '{"ok":true}']. *)
Definition is_ok_marker (data : MsgData) : bool :=
  match data with
  | Text s => bool_decide (s = ok_marker)
  | Binary _ => false
  end.

(** The variables the handler closes over. *)
Record Chan := mkChan {
  first : bool;
  incoming : list MsgData;
  incomingRes : bool;          (* a reader is suspended on the queue *)
  status : list Status
}.

Inductive ChanEvent :=
| ConsoleLog (idx : nat)       (* Track #idx acknowledged *)
| ConsoleWarn (idx : nat)      (* Track #idx sent invalid first message! *)
| ShowStatus (table : list Status)
| Uncaught (e : Exn)           (* the handler threw *)
| Resume.                      (* incomingRes(null) *)

Definition set_ready (x : Status) : Status :=
  {| name := name x; duration := duration x; ready := true |}.

(** [sock.onmessage].  [status[sidx].ready = true] throws a [TypeError]
    when the table has no entry [sidx]. *)
Definition onmessage (idx sidx : nat) (c : Chan) (data : MsgData)
  : Chan * list ChanEvent :=
  if first c then
    if is_ok_marker data then
      match status c !! sidx with
      | Some x =>
          let table := <[sidx := set_ready x]> (status c) in
          ({| first := false; incoming := incoming c;
              incomingRes := incomingRes c; status := table |},
           [ConsoleLog idx; ShowStatus table])
      | None =>
          ({| first := false; incoming := incoming c;
              incomingRes := incomingRes c; status := status c |},
           [ConsoleLog idx; Uncaught TypeError])
      end
    else (c, [ConsoleWarn idx])
  else
    ({| first := first c; incoming := incoming c ++ [data];
        incomingRes := incomingRes c; status := status c |},
     if incomingRes c then [Resume] else []).

(** All the messages of a connection, in order of arrival. *)
Fixpoint deliver (idx sidx : nat) (c : Chan) (msgs : list MsgData)
  : Chan * list ChanEvent :=
  match msgs with
  | [] => (c, [])
  | m :: rest =>
      let '(c1, ev1) := onmessage idx sidx c m in
      let '(c2, ev2) := deliver idx sidx c1 rest in
      (c2, ev1 ++ ev2)
  end.

(** *** The reader *)

Inductive Effect :=
| SockSend (data : list byte)
| SockClose
| Enqueue (chunk : list byte)      (* controller.enqueue *)
| Close.                           (* controller.close *)

Definition wsClosed (rs : ReadyState) : bool :=
  match rs with
  | CLOSING | CLOSED => true
  | _ => false
  end.

(** The acknowledgement of [inStream.pull]:
    [ack.setUint32(4, partD.getUint32(0, true), true)] on eight fresh bytes. *)
Definition make_ack (part : list byte) : result (list byte) :=
  match getUint32 part 0 true with
  | None => Throw RangeError
  | Some seq =>
      match setUint32 (ArrayBuffer 8) 4 seq true with
      | Some ack => Ok ack
      | None => Throw RangeError
      end
  end.

(** The body of [if (incoming.length) { ... }] for the part shifted from
    the queue, with the [readyState] the socket has at that moment.
    [new DataView(part)] throws a [TypeError] on a string. *)
Definition pull_part (part : MsgData) (rs : ReadyState) : result (list Effect) :=
  match part with
  | Text _ => Throw TypeError
  | Binary b =>
      let acked :=
        if wsClosed rs then Ok []
        else match make_ack b with
             | Ok ack => Ok [SockSend ack]
             | Throw e => Throw e
             end in
      match acked with
      | Throw e => Throw e
      | Ok sent =>
          Ok (sent ++
              if decide (4 < length b) then [Enqueue (drop 4 b)]
              else Close :: (if wsClosed rs then [] else [SockClose]))
      end
  end.

(** How a sequence of pulls ends. *)
Inductive ReaderEnd :=
| Suspended                 (* the queue is empty: the pull waits *)
| Readable                  (* the consumer asked for no more *)
| StreamClosed
| Errored (e : Exn).

(** One entry per part taken from the queue: the part, the ready state it
    was processed in, and what the pull did with it. *)
Definition PullLog := list (MsgData * ReadyState * result (list Effect)).

Definition closes (effs : list Effect) : bool :=
  existsb (fun e => match e with Close => true | _ => false end) effs.

(** At most [n] pulls over the queue; each part comes with the ready state
    the socket has when the part is shifted.  No pull follows a close or
    an error. *)
Fixpoint pulls (n : nat) (queue : list (MsgData * ReadyState))
  : PullLog * ReaderEnd :=
  match n with
  | 0 => ([], Readable)
  | S n' =>
      match queue with
      | [] => ([], Suspended)
      | (part, rs) :: rest =>
          match pull_part part rs with
          | Throw e => ([(part, rs, Throw e)], Errored e)
          | Ok effs =>
              if closes effs
              then ([(part, rs, Ok effs)], StreamClosed)
              else let '(log, fin) := pulls n' rest in
                   ((part, rs, Ok effs) :: log, fin)
          end
      end
  end.

(** *** [inRdr.read()]

    The stream built on [pull] hands each chunk to the one reader in the
    order the pulls enqueue them; a read after the close answers [done], a
    read after a failed pull rejects.  The stream's own buffering only lets
    a pull run ahead of the read that consumes its chunk.  Here a pull
    runs when the read asks for its chunk: what a pull does to the socket
    is the same, but the browser may do it one read earlier, and for one
    part that no read asks for any more. *)

Inductive StreamState :=
| SReadable
| SClosed
| SErrored (e : Exn).

Record InStream := mkInStream {
  queue : list (MsgData * ReadyState);
  sstate : StreamState
}.

Inductive ReadResult :=
| RValue (value : list byte)
| RDone
| RReject (e : Exn)
| RPending.

Definition chunk_of (effs : list Effect) : list byte :=
  concat (flat_map (fun e => match e with Enqueue c => [c] | _ => [] end) effs).

Definition read (s : InStream) : ReadResult * InStream * list Effect :=
  match sstate s with
  | SClosed => (RDone, s, [])
  | SErrored e => (RReject e, s, [])
  | SReadable =>
      match queue s with
      | [] => (RPending, s, [])
      | (part, rs) :: rest =>
          match pull_part part rs with
          | Throw e => (RReject e, mkInStream rest (SErrored e), [])
          | Ok effs =>
              if closes effs then (RDone, mkInStream rest SClosed, effs)
              else (RValue (chunk_of effs), mkInStream rest SReadable, effs)
          end
      end
  end.

Definition effects_of (log : PullLog) : list Effect :=
  flat_map (fun e => match e.2 with Ok effs => effs | Throw _ => [] end) log.

Definition acks_of (effs : list Effect) : list (list byte) :=
  flat_map (fun e => match e with SockSend a => [a] | _ => [] end) effs.

(** The parts a run accepted: those whose pull did not throw. *)
Definition accepted (log : PullLog) : list (MsgData * ReadyState) :=
  flat_map (fun e => match e.2 with Ok _ => [e.1] | Throw _ => [] end) log.

End Channel.

(** ** Decoding one track: [trackStream.pull] *)

Module Decode.
Import Channel.

(** A [LibAVFrame], with the fields the loader reads. *)
Module Frame.
Record t := mk {
  format : Z;
  sample_rate : Z;
  channels : Z;
  nb_samples : Z
}.
End Frame.

(** The fields of the [AudioTrack] that the loader writes. *)
Record Track := mkTrack {
  format : Z;
  sampleRate : Z;
  channels : Z
}.

(** One side of [ff_init_filter_graph]. *)
Record FilterIO := mkFilterIO {
  sample_rate : Z;
  sample_fmt : Z;
  channel_layout : Z
}.

(** What libav answers in one turn of the [while (true)] of
    [trackStream.pull]; an answer is only looked at when the turn makes
    the call. *)
Record Iter := mkIter {
  read_eof : bool;                       (* readRes === libav.AVERROR_EOF *)
  packets : option (list (list byte));   (* packets[stream.index] *)
  decoded : result (list Frame.t);       (* ff_decode_multi *)
  graph : result (Z * Z * Z);            (* ff_init_filter_graph *)
  filtered : result (list Frame.t)       (* ff_filter_multi *)
}.

Inductive Event :=
| Inbound (e : Effect)                   (* done by a pull of inStream *)
| DevSend (data : option (list byte))    (* ff_reader_dev_send(fname, data) *)
| Decoded (frames : list Frame.t)
| TrackSet (tr : Track)                  (* the three assignments to track *)
| InitFilterGraph (src dst : FilterIO)
| SetDuration (d : Duration)             (* a write to status[sidx].duration *)
| ShowTable (table : list Status)
| FrameOut (f : Frame.t)                 (* controller.enqueue(frame) *)
| PullDone                               (* break: the pull returns *)
| StreamEnd.                             (* controller.close() *)

Record DState := mkDState {
  inStream : InStream;
  filter_graph : Z;
  buffersrc_ctx : Z;
  buffersink_ctx : Z;
  track : Track;
  table : list Status
}.

(** How one turn of the loop ends. *)
Inductive Next :=
| Continue                 (* continue, or fall off the end of the body *)
| Break
| Closed                   (* controller.close(); break *)
| Fail (e : Exn)           (* an awaited call rejected or the body threw *)
| Stall.                   (* inRdr.read() never settles *)

(** JavaScript's [a << n] on integers: both sides as 32-bit values, the
    count modulo 32, the result a signed 32-bit value. *)
Definition to_int32 (z : Z) : Z := ((z + 2 ^ 31) mod 2 ^ 32 - 2 ^ 31)%Z.
Definition shl32 (a n : Z) : Z := to_int32 (Z.shiftl (to_int32 a) (Z.land n 31)).

Definition channelLayout (channels : Z) : Z :=
  if (channels =? 1)%Z then 4%Z else (shl32 1 channels - 1)%Z.

(** [number / number], taken exactly.  The code computes in doubles:
    the quotient and each sum are rounded, which keeps the order of what
    is added up from quotients that are not negative; a divisor 0 gives
    [Infinity] or [NaN] there and 0 here. *)
Definition ratio (a b : Z) : Q := (inject_Z a / inject_Z b)%Q.

(** [duration += x]; a boolean on the left is converted to 0 or 1. *)
Definition dur_add (d : Duration) (x : Q) : Duration :=
  match d with
  | DNum q => DNum (q + x)
  | DFalse => DNum (0 + x)
  | DTrue => DNum (1 + x)
  end.

Definition set_duration (x : Status) (d : Duration) : Status :=
  {| name := name x; duration := d; ready := ready x |}.

(** [for (const frame of fframes) { enqueue; duration += ... }] *)
Fixpoint send_frames (rate : Z) (d : Duration) (fframes : list Frame.t)
  : Duration * list Event :=
  match fframes with
  | [] => (d, [])
  | f :: rest =>
      let d' := dur_add d (ratio (Frame.nb_samples f) rate) in
      let '(dn, evs) := send_frames rate d' rest in
      (dn, FrameOut f :: SetDuration d' :: evs)
  end.

Section Loop.

(** [Ennuizel.fromPlanar], a function of the host. *)
Variable fromPlanar : Z -> Z.
(** The index of this track's entry in the status table. *)
Variable sidx : nat.

Definition with_inStream (s : DState) (i : InStream) : DState :=
  mkDState i (filter_graph s) (buffersrc_ctx s) (buffersink_ctx s) (track s) (table s).
Definition with_track (s : DState) (tr : Track) : DState :=
  mkDState (inStream s) (filter_graph s) (buffersrc_ctx s) (buffersink_ctx s) tr (table s).
Definition with_graph (s : DState) (g : Z * Z * Z) : DState :=
  mkDState (inStream s) g.1.1 g.1.2 g.2 (track s) (table s).
Definition with_table (s : DState) (t : list Status) : DState :=
  mkDState (inStream s) (filter_graph s) (buffersrc_ctx s) (buffersink_ctx s) (track s) t.

(** [if (!packets[stream.index] && !eof) { ... continue; }] *)
Definition read_more (s : DState) : DState * list Event * Next :=
  let '(rd, ins, effs) := read (inStream s) in
  let s' := with_inStream s ins in
  match rd with
  | RPending => (s', map Inbound effs, Stall)
  | RReject e => (s', map Inbound effs, Fail e)
  | RDone => (s', map Inbound effs ++ [DevSend None], Continue)
  | RValue v => (s', map Inbound effs ++ [DevSend (Some v)], Continue)
  end.

(** [if (frames.length && buffersrc_ctx < 0) { ... }] *)
Definition prepare_filter (it : Iter) (frames : list Frame.t) (s : DState)
  : DState * list Event * Next :=
  match frames with
  | f0 :: _ =>
      if (buffersrc_ctx s <? 0)%Z then
        let toFormat := fromPlanar (Frame.format f0) in
        let tr := mkTrack toFormat (Frame.sample_rate f0) (Frame.channels f0) in
        let layout := channelLayout (channels tr) in
        let src := mkFilterIO (sampleRate tr) (Frame.format f0) layout in
        let dst := mkFilterIO (sampleRate tr) toFormat layout in
        let s1 := with_track s tr in
        match graph it with
        | Throw e => (s1, [TrackSet tr; InitFilterGraph src dst], Fail e)
        | Ok g => (with_graph s1 g, [TrackSet tr; InitFilterGraph src dst], Continue)
        end
      else (s, [], Continue)
  | [] => (s, [], Continue)
  end.

(** [if (buffersrc_ctx >= 0) { ... }]; [status[sidx].duration] throws a
    [TypeError] when the table has no entry [sidx]. *)
Definition filter_and_send (it : Iter) (s : DState) : DState * list Event * Next :=
  if (0 <=? buffersrc_ctx s)%Z then
    match filtered it with
    | Throw e => (s, [], Fail e)
    | Ok fframes =>
        match table s !! sidx with
        | None => (s, [], Fail TypeError)
        | Some x =>
            let '(d1, ev1) :=
              match duration x with
              | DFalse => (DNum 0, [SetDuration (DNum 0)])
              | d => (d, [])
              end in
            let '(d2, ev2) := send_frames (sampleRate (track s)) d1 fframes in
            let '(d3, ev3) :=
              if read_eof it then (DTrue, [SetDuration DTrue]) else (d2, []) in
            let t := <[sidx := set_duration x d3]> (table s) in
            (with_table s t, ev1 ++ ev2 ++ ev3 ++ [ShowTable t],
             match fframes with
             | _ :: _ => if read_eof it then Continue else Break
             | [] => Continue
             end)
        end
    end
  else (s, [], Continue).

(** The rest of the body, from [ff_decode_multi] on. *)
Definition decode_and_send (it : Iter) (s : DState) : DState * list Event * Next :=
  match decoded it with
  | Throw e => (s, [], Fail e)
  | Ok frames =>
      let '(s1, ev1, n1) := prepare_filter it frames s in
      match n1 with
      | Continue =>
          let '(s2, ev2, n2) := filter_and_send it s1 in
          match n2 with
          | Continue =>
              if read_eof it
              then (s2, Decoded frames :: ev1 ++ ev2 ++ [StreamEnd], Closed)
              else (s2, Decoded frames :: ev1 ++ ev2, Continue)
          | n => (s2, Decoded frames :: ev1 ++ ev2, n)
          end
      | n => (s1, Decoded frames :: ev1, n)
      end
  end.

(** One turn of the [while (true)]. *)
Definition turn (it : Iter) (s : DState) : DState * list Event * Next :=
  match packets it, read_eof it with
  | None, false => read_more s
  | _, _ => decode_and_send it s
  end.

(** How the consumption of [trackStream] ends. *)
Inductive End :=
| Completed                (* the stream was closed *)
| Failed (e : Exn)
| Stalled                  (* a read of inStream never settles *)
| Running.                 (* the script of answers is used up *)

(** [track.append] pulls until the stream closes: the turns of all the
    pulls, one answer of the script per turn. *)
Fixpoint run (script : list Iter) (s : DState) : DState * list Event * End :=
  match script with
  | [] => (s, [], Running)
  | it :: rest =>
      let '(s1, ev1, n) := turn it s in
      match n with
      | Continue =>
          let '(s2, ev2, e) := run rest s1 in (s2, ev1 ++ ev2, e)
      | Break =>
          let '(s2, ev2, e) := run rest s1 in (s2, ev1 ++ PullDone :: ev2, e)
      | Closed => (s1, ev1, Completed)
      | Fail e => (s1, ev1, Failed e)
      | Stall => (s1, ev1, Stalled)
      end
  end.

End Loop.

End Decode.

(** ** One track end to end: [loadTrack] *)

Module Loader.
Import Channel Decode.

(** The answers of libav to one [loadTrack].  [Ennuizel.avthreads.get],
    [mkreaderdev], [ff_reader_dev_send], [ff_read_multi] and the calls
    that free things at the end are taken to fulfil. *)
Record LibAV := mkLibAV {
  init_demuxer : result unit;     (* ff_init_demuxer_file(fname) *)
  init_decoder : result unit;     (* ff_init_decoder(codec_id, codecpar) *)
  script : list Iter              (* the turns of trackStream.pull *)
}.

(** What the outside does to one [loadTrack]: the messages the socket
    delivers, the ready state the socket has when the reader takes the
    k-th queued part, and libav. *)
Record Env := mkEnv {
  msgs : list MsgData;
  readyStateAt : nat -> ReadyState;
  libav : LibAV
}.

(** The promise of [loadTrack]. *)
Inductive Settled :=
| Resolved
| Rejected (e : Exn)
| Unsettled.

Inductive Event :=
| Socket (e : ChanEvent)
| Stream (e : Decode.Event).

Record Run := mkRun {
  events : list Event;
  final_track : Track;
  final_table : list Status;
  settled : Settled
}.

(** [let remaining = 1024 * 1024; while (remaining > 0) { ... }]; the
    fuel bounds the number of reads. *)
Fixpoint prime (fuel : nat) (remaining : Z) (s : InStream)
  : InStream * list Decode.Event * Next :=
  match fuel with
  | 0 => (s, [], Stall)
  | S fuel' =>
      if (0 <? remaining)%Z then
        let '(rd, s1, effs) := read s in
        match rd with
        | RPending => (s1, map Inbound effs, Stall)
        | RReject e => (s1, map Inbound effs, Fail e)
        | RDone => (s1, map Inbound effs ++ [DevSend None], Break)
        | RValue v =>
            let '(s2, ev2, n) := prime fuel' (remaining - Z.of_nat (length v)) s1 in
            (s2, map Inbound effs ++ DevSend (Some v) :: ev2, n)
        end
      else (s, [], Continue)
  end.

Definition initial_chan (table : list Status) : Chan :=
  {| first := true; incoming := []; incomingRes := false; status := table |}.

Definition tag_states (rsAt : nat -> ReadyState) (parts : list MsgData)
  : list (MsgData * ReadyState) :=
  imap (fun k part => (part, rsAt k)) parts.

Section LoadTrack.
Variable fromPlanar : Z -> Z.

(** [loadTrack(track, idx, sidx)].  The handler only appends to the
    queue that the reader takes from, and writes [ready] before any
    data is queued, so the messages are delivered first and read
    afterwards; a read that finds the queue empty with the stream still
    open waits for ever.  [track.append] is taken to read [trackStream]
    to its end. *)

Definition loadTrack (tr : Track) (idx sidx : nat) (table : list Status) (env : Env)
  : Run :=
  let '(c, ev0) := deliver idx sidx (initial_chan table) (msgs env) in
  let inS := mkInStream (tag_states (readyStateAt env) (incoming c)) SReadable in
  let '(inS1, ev1, n1) := prime (S (length (queue inS))) (1024 * 1024) inS in
  let evs1 := map Socket ev0 ++ map Stream ev1 in
  match n1 with
  | Fail e => mkRun evs1 tr (status c) (Rejected e)
  | Stall => mkRun evs1 tr (status c) Unsettled
  | _ =>
      match init_demuxer (libav env), init_decoder (libav env) with
      | Throw e, _ => mkRun evs1 tr (status c) (Rejected e)
      | Ok _, Throw e => mkRun evs1 tr (status c) (Rejected e)
      | Ok _, Ok _ =>
          let s0 := mkDState inS1 (-1) (-1) (-1) tr (status c) in
          let '(s, ev2, e) := run fromPlanar sidx (script (libav env)) s0 in
          mkRun (evs1 ++ map Stream ev2) (track s) (Decode.table s)
            match e with
            | Completed => Resolved
            | Failed x => Rejected x
            | Stalled | Running => Unsettled
            end
      end
  end.

End LoadTrack.

End Loader.

(** ** The scheduling loop of [loadData] *)

Module Scheduler.

(** An element of [tracks]: [{ idx, track }]. *)
Record Entry := mkEntry {
  idx : nat;
  track : string
}.

(** How the promise returned by [loadTrack] settles, once it does. *)
Inductive Settle :=
| Fulfils
| Rejects (e : Exn).

(** [navigator.hardwareConcurrency || 1]; [None] is [undefined]. *)
Definition availableParallelism (hardwareConcurrency : option nat) : nat :=
  match hardwareConcurrency with
  | Some (S n) => S n
  | _ => 1
  end.

(** [Math.min(navigator.hardwareConcurrency || 1, 8)] *)
Definition threads (hardwareConcurrency : option nat) : nat :=
  Nat.min (availableParallelism hardwareConcurrency) 8.

Inductive Event :=
| Start (t : Entry)               (* promises.push(loadTrack(...)) *)
| Remove (t : Entry)              (* the race gave t's index: promises.splice(idx, 1) *)
| Fulfilled (t : Entry)           (* Promise.all saw t fulfil *)
| Raise (t : Entry) (e : Exn).    (* the awaited promise rejected with t's error *)

(** An event with the two arrays as they are right after it. *)
Record Step := mkStep {
  event : Event;
  tracks_after : list Entry;
  promises_after : list Entry
}.

(** How [loadData] leaves the loop. *)
Inductive Result :=
| Returned
| Threw (e : Exn)
| Hangs.                          (* an await never settles *)

Section Loop.
Variable hardwareConcurrency : option nat.
(** How the loader of each track settles.  The order in which the
    scheduler sees the loaders settle is the argument [picks] of the
    loops below: its k-th number is the position, in the array awaited
    at the k-th await, of the promise that settles first; a number that
    is no position, or the end of the list, stands for no promise
    settling. *)
Variable settles : Entry -> Settle.

(** [while (tracks.length && promises.length < threads) { ... }] *)
Fixpoint enqueue (tracks promises : list Entry)
  : list Step * list Entry * list Entry :=
  match tracks with
  | [] => ([], [], promises)
  | t :: rest =>
      if decide (length promises < threads hardwareConcurrency) then
        let p := promises ++ [t] in
        let '(steps, tr, pr) := enqueue rest p in
        (mkStep (Start t) rest p :: steps, tr, pr)
      else ([], tracks, promises)
  end.

(** [await Promise.all(promises)]: [awaited] are the promises not yet
    seen to settle; the array itself is left as it is. *)
Fixpoint all (picks : list nat) (promises awaited : list Entry)
  : list Step * Result :=
  match awaited with
  | [] => ([], Returned)
  | _ :: _ =>
      match picks with
      | [] => ([], Hangs)
      | i :: picks' =>
          match awaited !! i with
          | None => ([], Hangs)
          | Some t =>
              match settles t with
              | Rejects e => ([mkStep (Raise t e) [] promises], Threw e)
              | Fulfils =>
                  let '(steps, r) := all picks' promises (delete i awaited) in
                  (mkStep (Fulfilled t) [] promises :: steps, r)
              end
          end
      end
  end.

(** [while (tracks.length) { ... }  await Promise.all(promises);] *)
Fixpoint loop (picks : list nat) (tracks promises : list Entry)
  : list Step * Result :=
  match tracks with
  | [] => all picks promises promises
  | _ :: _ =>
      let '(steps1, tracks1, promises1) := enqueue tracks promises in
      match picks with
      | [] => (steps1, Hangs)
      | i :: picks' =>
          match promises1 !! i with
          | None => (steps1, Hangs)
          | Some t =>
              match settles t with
              | Rejects e =>
                  (steps1 ++ [mkStep (Raise t e) tracks1 promises1], Threw e)
              | Fulfils =>
                  let p2 := delete i promises1 in
                  let '(steps2, r) := loop picks' tracks1 p2 in
                  (steps1 ++ mkStep (Remove t) tracks1 p2 :: steps2, r)
              end
          end
      end
  end.

(** The loop from [const promises = []]. *)
Definition schedule (picks : list nat) (tracks : list Entry) : list Step * Result :=
  loop picks tracks [].

End Loop.

Definition started (steps : list Step) : list Entry :=
  flat_map (fun s => match event s with Start t => [t] | _ => [] end) steps.

Definition is_start (s : Step) : Prop :=
  match event s with Start _ => True | _ => False end.

(** After a step that removed a finished loader while tracks were still
    queued, the next step starts the head of the queue, and the step after
    that (if any) starts nothing. *)
Definition replaced_by_one (s : Step) (rest : list Step) : Prop :=
  match event s, tracks_after s with
  | Remove _, next :: queued =>
      exists s1 rest',
        rest = s1 :: rest'
        /\ event s1 = Start next
        /\ tracks_after s1 = queued
        /\ promises_after s1 = promises_after s ++ [next]
        /\ match rest' with
           | s2 :: _ => ~ is_start s2
           | [] => True
           end
  | _, _ => True
  end.

Definition not_remove (s : Step) : Prop :=
  match event s with Remove _ => False | _ => True end.

(** The array of promises is within the bound right after the step. *)
Definition bounded (hardwareConcurrency : option nat) (s : Step) : Prop :=
  length (promises_after s) <= threads hardwareConcurrency.

Fixpoint each_replaced (steps : list Step) : Prop :=
  match steps with
  | [] => True
  | s :: rest => replaced_by_one s rest /\ each_replaced rest
  end.

End Scheduler.

(** ** The start of [loadData]: users, tracks and the status table *)

Module Prepare.
Import Channel Scheduler.

(** An element of [data.users]; [name] and [discrim] may be missing. *)
Record User := mkUser {
  id : string;
  name : option string;
  discrim : option string;
  username : string;
  discriminator : string
}.

(** [a || b] on strings: [a] unless it is missing or empty. *)
Definition or_else (a : option string) (b : string) : string :=
  match a with
  | Some (String c s) => String c s
  | _ => b
  end.

(** A counter in a string concatenation: its decimal digits. *)
Definition number_to_string (n : nat) : string :=
  NilEmpty.string_of_uint (Nat.to_uint n).

(** [idx + '-' + (user.name || user.username)
     + (discrim === '0' ? '' : '_' + discrim)] *)
Definition track_name (idx : nat) (user : User) : string :=
  let discrim := or_else (discrim user) (discriminator user) in
  number_to_string idx +:+ "-" +:+ or_else (name user) (username user)
    +:+ (if String.eqb discrim "0" then "" else "_" +:+ discrim).

(** [for (const user of users) { ...; tracks.push({ idx, track }); idx++; }]
    The track made by [project.newAudioTrack] is known by the name it was
    asked for. *)
Fixpoint make_tracks (idx : nat) (users : list User) : list Entry :=
  match users with
  | [] => []
  | user :: rest => mkEntry idx (track_name idx user) :: make_tracks (S idx) rest
  end.

(** [for (const track of tracks) status.push({ name, duration: false,
    ready: false })] *)
Definition initial_status (tracks : list Entry) : list Status :=
  map (fun t => mkStatus (track t) DFalse false) tracks.

(** The answer of the users request: [response.status] and the body. *)
Record Response := mkResponse {
  http_status : Z;
  users : list User;
  error : string
}.

(** Up to the scheduling loop: [Error(data.error)] unless the status is
    200, else the tracks (numbered from 1) and the status table. *)
Definition prepare (response : Response) : string + list Entry * list Status :=
  if (http_status response =? 200)%Z then
    let tracks := make_tracks 1 (users response) in
    inr (tracks, initial_status tracks)
  else inl (error response).

(** The second and third arguments of
    [loadTrack(track.track, track.idx, track.idx - 1)]. *)
Definition sidx_of (t : Entry) : nat := idx t - 1.

End Prepare.

(** ** [craigWizard]: what is asked, loaded, processed and exported *)

Module Wizard.

(** [wizardFormats], as indexed in the wizard options. *)
Definition wizardFormats : list string :=
  ["_FLAC"; "_M4A (MPEG-4 audio)"; "Ogg _Vorbis"; "_Opus"; "wav_pack"; "_wav";
   "A_LAC (Apple Lossless)"].

(** [opts]. *)
Record Opts := mkOpts {
  format : string;
  mix : bool;
  level : bool;
  noiser : bool;
  keep : bool
}.

(** [wizardOpts & mask] for a mask below 2^31: the number as a signed
    32-bit value, bit by bit.  [None] is a number that is no integer
    ([NaN], an infinity), which counts as 0, as [null] does. *)
Definition band (wizardOpts : option Z) (mask : Z) : Z :=
  match wizardOpts with
  | Some z => Z.land (Decode.to_int32 z) mask
  | None => 0
  end.

(** A number as a condition. *)
Definition truthy (z : Z) : bool := negb (z =? 0)%Z.

(** A string as a condition. *)
Definition nonempty (s : option string) : bool :=
  match s with
  | Some (String _ _) => true
  | _ => false
  end.

(** The options taken from the URL:
    [opts.format = wizardFormats[wizardOpts & 0xf] || '_FLAC'] and the
    four flags. *)
Definition url_opts (wizardOpts : option Z) : Opts :=
  {| format :=
       Prepare.or_else (wizardFormats !! Z.to_nat (band wizardOpts 15)) "_FLAC";
     mix := truthy (band wizardOpts 16);
     level := truthy (band wizardOpts 32);
     noiser := truthy (band wizardOpts 64);
     keep := truthy (band wizardOpts 256) |}.

(** The answers to the two dialogs. *)
Inductive Mode := Automatic | Manual | CancelMode.
Inductive Options := Go (o : Opts) | CancelOptions.

Inductive Filter := NoiseRepellent | BetterNormalize.

(** [preFilter]: noise reduction, then levelling of what it gives; the
    empty list is [null]. *)
Definition preFilter (o : Opts) : list Filter :=
  (if noiser o then [NoiseRepellent] else [])
    ++ (if level o then [BetterNormalize] else []).

(** [postFilter]. *)
Definition postFilter (o : Opts) : list Filter :=
  if level o then [BetterNormalize] else [].

(** What the wizard is given and what the host answers.  The host is
    the application and the browser: every call of it that the wizard
    awaits, and the two that write the address bar and the document, may
    reject or throw, and the wizard has no handler, so the first such
    failure ends it.  [select.selectAll], [select.getSelection],
    [getPlugin] and the writes to the dialog box are taken to return. *)
Record Env := mkEnv {
  wizardOptsS : option string;          (* params.get('w') *)
  wizardOpts : option Z;                (* Number.parseInt(wizardOptsS, 36) *)
  project : bool;                       (* a project was passed *)
  projects : list (string * string);    (* getProjects(): name and id *)
  mode : Mode;                          (* the answer to the first dialog *)
  options : Options;                    (* the answer to the second dialog *)
  standardExports : list (string * string);  (* name and options *)
  normalizer : bool;                    (* getPlugin('better-normalization')
                                           gave a plugin that has an api *)
  rejects : nat -> option Exn           (* the error, if any, that the k-th
                                           call made in this run ends with *)
}.

(** The calls the wizard makes: of the host, and of [loadData]. *)
Inductive Action :=
| HideURL                               (* history.pushState, document.title *)
| GetProjects
| DeleteProjectById (id : string)
| AskMode                               (* the first ui.dialog *)
| AskOptions                            (* the second ui.dialog *)
| LoadData
| DisableUndo
| MixTracks (pre post : list Filter)    (* filters.mixTracks *)
| AddTrack                              (* project.addTrack *)
| RemoveMixedTracks                     (* project.removeTrack, per track *)
| SelectionFilter (pre : list Filter)   (* filters.selectionFilter *)
| ExportAudacity
| ExportAudio (options : string)
| ExportCaption
| FetchInfo                             (* the iframe for the info.txt *)
| DeleteProject                         (* project.del() *)
| Alert.

(** What a piece of the wizard does when every call fulfils: the calls
    in order, ended by the error it throws by itself, if it does; and its
    value, unless it threw. *)
Inductive Item :=
| Call (a : Action)
| Throws (e : Exn).

Definition Script (A : Type) : Type := list Item * option A.

Definition ret {A : Type} (x : A) : Script A := ([], Some x).

Definition bind {A B : Type} (m : Script A) (f : A -> Script B) : Script B :=
  match m with
  | (l, Some x) => let '(l', y) := f x in (l ++ l', y)
  | (l, None) => (l, None)
  end.

Definition call (a : Action) : Script unit := ([Call a], Some ()).

Definition throw {A : Type} (e : Exn) : Script A := ([Throws e], None).

Fixpoint for_each {A : Type} (l : list A) (f : A -> Script unit) : Script unit :=
  match l with
  | [] => ret ()
  | x :: rest => bind (f x) (fun _ => for_each rest f)
  end.

Declare Scope script_scope.
Delimit Scope script_scope with script.
#[local] Notation "m ;; k" := (bind m (fun _ => k))
  (at level 100, k at level 200, right associativity) : script_scope.
#[local] Notation "x <- m ;; k" := (bind m (fun x => k))
  (at level 100, m at level 99, k at level 200, right associativity) : script_scope.
#[local] Open Scope script_scope.

(** [/^craig-/.test(project.name)] *)
Definition is_craig (name : string) : bool := String.prefix "craig-" name.

(** The part before the dialogs, done when no project was passed: the
    URL is hidden and the stored projects of earlier recordings are
    deleted. *)
Definition cleanup (env : Env) : Script unit :=
  if project env then ret ()
  else
    call HideURL;;
    call GetProjects;;
    for_each (map snd (List.filter (fun p => is_craig p.1) (projects env)))
             (fun id => call (DeleteProjectById id)).

(** The first dialog: [doWizard] and [doCancel]. *)
Definition ask_mode (env : Env) : Script (bool * bool) :=
  if nonempty (wizardOptsS env) then ret (true, false)
  else
    call AskMode;;
    ret (match mode env with
         | Automatic => (true, false)
         | Manual => (false, false)
         | CancelMode => (false, true)
         end).

Definition default_opts : Opts := mkOpts "" false false false false.

(** The second dialog or the options of the URL: [doWizard] and [opts]. *)
Definition ask_options (env : Env) (doWizard : bool) : Script (bool * Opts) :=
  if doWizard then
    if negb (nonempty (wizardOptsS env)) || truthy (band (wizardOpts env) 512) then
      call AskOptions;;
      ret (match options env with
           | Go o => (true, o)
           | CancelOptions => (false, default_opts)
           end)
    else ret (true, url_opts (wizardOpts env))
  else ret (false, default_opts).

(** The mastering and the export, for the options [o].  The filters of
    the plugins are called by the host inside [mixTracks] and
    [selectionFilter]; the wizard itself reads [l.api] only for the
    post-filter. *)
Definition master (env : Env) (o : Opts) : Script unit :=
  call DisableUndo;;
  (if mix o then
     (if level o then
        if normalizer env then ret () else throw TypeError
      else ret ());;
     call (MixTracks (preFilter o) (postFilter o));;
     call AddTrack;;
     call RemoveMixedTracks
   else
     match preFilter o with
     | [] => ret ()
     | pre => call (SelectionFilter pre)
     end);;
  (if String.eqb (format o) "aup" then call ExportAudacity
   else
     match List.filter (fun x => String.eqb x.1 (format o)) (standardExports env) with
     | x :: _ => call (ExportAudio x.2)
     | [] => throw TypeError
     end);;
  call ExportCaption;;
  call FetchInfo;;
  (if keep o then ret () else call DeleteProject);;
  call Alert.

(** The body of [craigWizard(d, project)]; [asked] is [doWizard] and
    [doCancel] after the first dialog, [settled] is [doWizard] and [opts]
    after the second. *)
Definition wizard_script (env : Env) : Script unit :=
  cleanup env;;
  asked <- ask_mode env;;
  if asked.2 then ret ()
  else
    settled <- ask_options env asked.1;;
    (if project env then ret () else call LoadData);;
    if settled.1 then master env settled.2 else ret ().

(** The calls are made in order, the k-th call of the run ending as
    [rejects k] says; the first call that rejects, or the error the wizard
    throws by itself, ends the run.  The result is the calls made, the one
    that rejected included, and how the run ends. *)
Fixpoint perform (rejects : nat -> option Exn) (k : nat) (items : list Item)
  : list Action * result unit :=
  match items with
  | [] => ([], Ok ())
  | Throws e :: _ => ([], Throw e)
  | Call a :: rest =>
      match rejects k with
      | Some e => ([a], Throw e)
      | None => let '(made, r) := perform rejects (S k) rest in (a :: made, r)
      end
  end.

(** [craigWizard(d, project)]. *)
Definition craigWizard (env : Env) : list Action * result unit :=
  perform (rejects env) 0 (wizard_script env).1.

End Wizard.

(** ** Kinds of wizard actions *)

Module WizardView.
Import Wizard.

(** The actions of the mastering and export part. *)
Definition is_mastering (a : Action) : Prop :=
  match a with
  | DisableUndo | MixTracks _ _ | AddTrack | RemoveMixedTracks | SelectionFilter _
  | ExportAudacity | ExportAudio _ | ExportCaption | FetchInfo
  | DeleteProject | Alert => True
  | _ => False
  end.

(** The actions of the part before the dialogs. *)
Definition is_cleanup (a : Action) : Prop :=
  match a with
  | HideURL | GetProjects | DeleteProjectById _ => True
  | _ => False
  end.

Definition is_dialog (a : Action) : Prop :=
  match a with
  | AskMode | AskOptions => True
  | _ => False
  end.

(** The user left by the cancel button of the first dialog. *)
Definition cancelled (env : Env) : Prop :=
  nonempty (wizardOptsS env) = false /\ mode env = CancelMode.

(** The options that the mastering runs with, if it runs. *)
Definition chosen (env : Env) : option Opts :=
  if nonempty (wizardOptsS env) then
    if truthy (band (wizardOpts env) 512) then
      match options env with Go o => Some o | CancelOptions => None end
    else Some (url_opts (wizardOpts env))
  else
    match mode env, options env with
    | Automatic, Go o => Some o
    | _, _ => None
    end.

(** The dialogs that are shown. *)
Definition dialogs_of (env : Env) : list Action :=
  if nonempty (wizardOptsS env) then
    if truthy (band (wizardOpts env) 512) then [AskOptions] else []
  else
    match mode env with
    | Automatic => [AskMode; AskOptions]
    | _ => [AskMode]
    end.

(** The import, when no project was passed. *)
Definition load_of (env : Env) : list Action :=
  if project env then [] else [LoadData].

Definition is_export (a : Action) : Prop :=
  match a with
  | ExportAudacity | ExportAudio _ => True
  | _ => False
  end.

(** The first dialog was shown and left by its cancel button. *)
Definition cancelledb (env : Env) : bool :=
  negb (nonempty (wizardOptsS env))
  && match mode env with CancelMode => true | _ => false end.

(** The ids of the stored projects of earlier recordings. *)
Definition craig_ids (env : Env) : list string :=
  map snd (List.filter (fun p => is_craig p.1) (projects env)).

(** The calls of the part before the dialogs. *)
Definition cleanup_calls (env : Env) : list Action :=
  if project env then []
  else HideURL :: GetProjects :: map DeleteProjectById (craig_ids env).

(** The mastering needs the api of the normalizer and has none. *)
Definition lacks_normalizer (env : Env) (o : Opts) : bool :=
  mix o && level o && negb (normalizer env).

(** The calls that filter the tracks. *)
Definition filters_of (o : Opts) : list Action :=
  if mix o then [MixTracks (preFilter o) (postFilter o); AddTrack; RemoveMixedTracks]
  else match preFilter o with
       | [] => []
       | pre => [SelectionFilter pre]
       end.

(** The call that exports the audio, if the format names an export. *)
Definition export_of (env : Env) (o : Opts) : option Action :=
  if String.eqb (format o) "aup" then Some ExportAudacity
  else match List.filter (fun x => String.eqb x.1 (format o)) (standardExports env) with
       | x :: _ => Some (ExportAudio x.2)
       | [] => None
       end.

(** The calls after the export of the audio. *)
Definition finish_of (o : Opts) : list Action :=
  [ExportCaption; FetchInfo] ++ (if keep o then [] else [DeleteProject]) ++ [Alert].

(** The calls of the mastering when every call fulfils, and the error
    it throws by itself after them, if it does. *)
Definition master_calls (env : Env) (o : Opts) : list Action :=
  DisableUndo
    :: (if lacks_normalizer env o then []
        else filters_of o
               ++ match export_of env o with
                  | Some ex => ex :: finish_of o
                  | None => []
                  end).

Definition master_throw (env : Env) (o : Opts) : option Exn :=
  if lacks_normalizer env o then Some TypeError
  else match export_of env o with
       | Some _ => None
       | None => Some TypeError
       end.

(** The same for the whole wizard. *)
Definition wizard_calls (env : Env) : list Action :=
  cleanup_calls env ++ dialogs_of env
    ++ (if cancelledb env then []
        else load_of env
               ++ match chosen env with
                  | Some o => master_calls env o
                  | None => []
                  end).

Definition wizard_throw (env : Env) : option Exn :=
  if cancelledb env then None
  else match chosen env with
       | Some o => master_throw env o
       | None => None
       end.

Definition throw_items (t : option Exn) : list Item :=
  match t with
  | Some e => [Throws e]
  | None => []
  end.

(** A call of the mastering that is neither an export nor a call of the
    end. *)
Definition plain (a : Action) : Prop :=
  is_mastering a /\ ~ is_export a /\ a <> DeleteProject /\ a <> ExportCaption.

End WizardView.

(** ** What a run of [trackStream] shows *)

Module Observe.
Import Channel Decode.

(** The values written to [status[sidx].duration], in order. *)
Definition durations (evs : list Event) : list Duration :=
  flat_map (fun e => match e with SetDuration d => [d] | _ => [] end) evs.

(** One write to the duration, from the value it replaces: out of
    [false] only to the number 0; from a number to a number only upwards. *)
Definition progress_step (a b : Duration) : Prop :=
  match a, b with
  | DFalse, DNum q => q = 0%Q
  | DFalse, _ => False
  | DNum q, DNum q' => (q <= q')%Q
  | _, _ => True
  end.

Fixpoint progress_chain (a : Duration) (ds : list Duration) : Prop :=
  match ds with
  | [] => True
  | b :: rest => progress_step a b /\ progress_chain b rest
  end.

Definition is_track_set (e : Event) : Prop :=
  match e with TrackSet _ | InitFilterGraph _ _ => True | _ => False end.

Definition is_decoded_frames (e : Event) : Prop :=
  match e with Decoded (_ :: _) => True | _ => False end.

(** The answers of libav that a duration is computed from: decoded frames
    carry a positive sample rate, filtered frames a sample count that is
    not negative. *)
Definition sane_frames (it : Iter) : Prop :=
  (forall frames f, decoded it = Ok frames -> In f frames ->
     (0 < Frame.sample_rate f)%Z)
  /\ (forall frames f, filtered it = Ok frames -> In f frames ->
        (0 <= Frame.nb_samples f)%Z).

(** The decode of this turn, if it returns, returns no frame. *)
Definition no_frames (it : Iter) : Prop :=
  forall frames, decoded it = Ok frames -> frames = [].

(** The handles that [ff_init_filter_graph] returns are not negative. *)
Definition valid_handles (it : Iter) : Prop :=
  forall g, graph it = Ok g -> (0 <= g.1.2)%Z.

(** Events that neither write the track nor report decoded frames. *)
Definition quiet (e : Event) : Prop := ~ is_track_set e /\ ~ is_decoded_frames e.

(** The last value written, [a] when nothing was. *)
Definition keep_last (a : Duration) (ds : list Duration) : Duration :=
  fold_left (fun _ d => d) ds a.

(** While no graph is built the sample rate does not matter; once one is
    built the track carries the positive rate of a decoded frame. *)
Definition rate_known (s : DState) : Prop :=
  (buffersrc_ctx s < 0)%Z \/ (0 < sampleRate (track s))%Z.

(** The track fields that the first decoded frame [f0] gives, and the two
    events of setting them and building the graph. *)
Definition track_of (fromPlanar : Z -> Z) (f0 : Frame.t) : Track :=
  mkTrack (fromPlanar (Frame.format f0)) (Frame.sample_rate f0) (Frame.channels f0).

Definition graph_events (fromPlanar : Z -> Z) (f0 : Frame.t) : list Event :=
  [TrackSet (track_of fromPlanar f0);
   InitFilterGraph
     (mkFilterIO (Frame.sample_rate f0) (Frame.format f0)
                 (channelLayout (Frame.channels f0)))
     (mkFilterIO (Frame.sample_rate f0) (fromPlanar (Frame.format f0))
                 (channelLayout (Frame.channels f0)))].

End Observe.

(** ** What a loader may do to the shared status table *)

Module Shared.
Import Channel.

(** [t2] is [t1] but for the entry at [sidx], which keeps its name. *)
Definition same_but (sidx : nat) (t1 t2 : list Status) : Prop :=
  length t2 = length t1
  /\ (forall j, j <> sidx -> t2 !! j = t1 !! j)
  /\ (forall x, t1 !! sidx = Some x ->
        exists x', t2 !! sidx = Some x' /\ name x' = name x).

End Shared.

(** ** What a run of the reader shows *)

Module ReaderView.
Import Channel.

(** The chunks handed to [controller.enqueue], in order. *)
Definition chunks_of (effs : list Effect) : list (list byte) :=
  flat_map (fun e => match e with Enqueue c => [c] | _ => [] end) effs.

(** What a part carries after its four bytes of sequence number. *)
Definition payload_of (p : MsgData * ReadyState) : list (list byte) :=
  match p.1 with
  | Binary b => if decide (4 < length b) then [drop 4 b] else []
  | Text _ => []
  end.

(** Effects on the socket. *)
Definition on_socket (e : Effect) : Prop :=
  match e with SockSend _ | SockClose => True | _ => False end.

(** Effects of a part that carries data. *)
Definition is_data (e : Effect) : Prop :=
  match e with SockSend _ | Enqueue _ => True | _ => False end.

End ReaderView.

(** ** What is sent to the reader device *)

Module DeviceView.
Import Channel Decode.

(** The arguments of the calls of [ff_reader_dev_send], in order;
    [None] is [null]. *)
Definition sends (evs : list Event) : list (option (list byte)) :=
  flat_map (fun e => match e with DevSend d => [d] | _ => [] end) evs.

Definition size (d : option (list byte)) : Z :=
  match d with
  | Some v => Z.of_nat (length v)
  | None => 0
  end.

(** The number of bytes in a list of sends. *)
Definition total (ds : list (option (list byte))) : Z :=
  fold_right (fun d acc => (size d + acc)%Z) 0%Z ds.

End DeviceView.

(** ** Frames and seconds of a run of [trackStream] *)

Module FrameView.
Import Channel Decode.

(** The frames handed to [controller.enqueue], in order. *)
Definition frames_out (evs : list Event) : list Frame.t :=
  flat_map (fun e => match e with FrameOut f => [f] | _ => [] end) evs.

(** The seconds that a list of frames holds at a sample rate. *)
Definition seconds (rate : Z) (frames : list Frame.t) : Q :=
  fold_right (fun f acc => (ratio (Frame.nb_samples f) rate + acc)%Q) 0%Q frames.

(** The number a duration stands for before frames are added to it. *)
Definition so_far (d : Duration) : Q :=
  match d with
  | DNum q => q
  | _ => 0%Q
  end.

(** The duration [d'] reached from [d] after the frames [frames]. *)
Definition accounted (rate : Z) (d : Duration) (frames : list Frame.t)
    (d' : Duration) : Prop :=
  match d' with
  | DNum q => (q == so_far d + seconds rate frames)%Q
  | DFalse => d = DFalse /\ frames = []
  | DTrue => True
  end.

(** What one turn of the loop, from the state [s] with the entry [x],
    leaves: the state [s1], the events [ev] and the way [n] it ended. *)
Definition turn_accounted (sidx : nat) (it : Iter) (s : DState) (x : Status)
    (s1 : DState) (ev : list Event) (n : Next) : Prop :=
  exists x1,
    table s1 !! sidx = Some x1
    /\ ((buffersrc_ctx s1 < 0)%Z -> duration x1 = DFalse /\ frames_out ev = [])
    /\ ((0 <= buffersrc_ctx s)%Z ->
        track s1 = track s /\ (0 <= buffersrc_ctx s1)%Z)
    /\ ((0 <= buffersrc_ctx s1)%Z ->
        accounted (sampleRate (track s1)) (duration x) (frames_out ev) (duration x1))
    /\ (n = Closed ->
        read_eof it = true
        /\ (duration x1 = DTrue <-> (0 <= buffersrc_ctx s1)%Z))
    /\ (n <> Closed -> duration x1 <> DTrue).

End FrameView.

(** ** The order in which the scheduler sees loaders settle *)

Module SchedulerView.

(** With [n] loaders not yet seen to settle and at most [threads] of them
    in flight, every await sees one of the promises in flight settle:
    the pick is a position of the awaited array, which holds
    [min threads n] promises. *)
Fixpoint fair (threads n : nat) (picks : list nat) : Prop :=
  match n with
  | 0 => True
  | S m =>
      match picks with
      | [] => False
      | i :: picks' => i < Nat.min threads n /\ fair threads m picks'
      end
  end.

End SchedulerView.

(** ** Where the outcome of a loader comes from *)

Module LoaderView.
Import Channel Decode Loader.

(** The incoming stream has not failed, and what it still holds came
    from the queue [q]. *)
Definition sound_in (q : list (MsgData * ReadyState)) (s : InStream) : Prop :=
  (forall e, sstate s <> SErrored e)
  /\ forall p, In p (queue s) -> In p q.

(** The error [e] was thrown by the pull of a queued part. *)
Definition pull_threw (q : list (MsgData * ReadyState)) (e : Exn) : Prop :=
  exists part rs, In (part, rs) q /\ pull_part part rs = Throw e.

(** The error [e] is an answer of libav in the turn [it]. *)
Definition libav_threw (it : Iter) (e : Exn) : Prop :=
  decoded it = Throw e \/ graph it = Throw e \/ filtered it = Throw e.

(** The places an error of [loadTrack] can come from: the pull of a
    message that the socket delivered, or a call of libav. *)
Definition thrown_in (env : Env) (e : Exn) : Prop :=
  (exists part rs, In part (msgs env) /\ pull_part part rs = Throw e)
  \/ init_demuxer (libav env) = Throw e
  \/ init_decoder (libav env) = Throw e
  \/ exists it, In it (script (libav env)) /\ libav_threw it e.

Definition has_marker (msgs : list MsgData) : Prop :=
  exists m, In m msgs /\ is_ok_marker m = true.

End LoaderView.

(** ** The steps of the scheduling loop against its two arrays *)

Module StepView.
Import Scheduler.

Section Steps.
Variable hardwareConcurrency : option nat.
Variable settles : Entry -> Settle.

(** One step, from the arrays [tracks] and [promises] as they are right
    before it.  A start shifts the head of [tracks] and pushes it on
    [promises], which was below the bound.  The loop awaits only with
    the queue empty or the array at the bound; what the race gives is a
    loader of the array that has fulfilled, and it is that one that is
    spliced out, at its own position; a rejection is that of a loader of
    the array.  The final wait leaves the array as it is. *)
Definition lawful_step (tracks promises : list Entry) (s : Step) : Prop :=
  match event s with
  | Start t =>
      length promises < threads hardwareConcurrency
      /\ tracks = t :: tracks_after s
      /\ promises_after s = promises ++ [t]
  | Remove t =>
      (tracks = [] \/ length promises = threads hardwareConcurrency)
      /\ tracks_after s = tracks
      /\ settles t = Fulfils
      /\ exists i, promises !! i = Some t /\ promises_after s = delete i promises
  | Fulfilled t =>
      tracks = [] /\ tracks_after s = [] /\ promises_after s = promises
      /\ settles t = Fulfils /\ In t promises
  | Raise t e =>
      (tracks = [] \/ length promises = threads hardwareConcurrency)
      /\ tracks_after s = tracks /\ promises_after s = promises
      /\ settles t = Rejects e /\ In t promises
  end.

(** Every step of a run is lawful from the arrays that the step before
    it left. *)
Fixpoint lawful (tracks promises : list Entry) (steps : list Step) : Prop :=
  match steps with
  | [] => True
  | s :: rest =>
      lawful_step tracks promises s
      /\ lawful (tracks_after s) (promises_after s) rest
  end.

End Steps.

(** The two arrays after some steps. *)
Definition arrays_after (tracks promises : list Entry) (steps : list Step)
  : list Entry * list Entry :=
  fold_left (fun _ s => (tracks_after s, promises_after s)) steps (tracks, promises).

End StepView.

(** ** The turns of [trackStream.pull] that decode *)

Module FormatView.
Import Channel Decode.

(** The turn calls [ff_decode_multi]: it has packets of the stream or
    libav reported the end of the input. *)
Definition decodes (it : Iter) : Prop :=
  packets it <> None \/ read_eof it = true.

(** The turn gets no frame from a decode: it makes no decode, or its
    decode returns none. *)
Definition decodes_none (it : Iter) : Prop :=
  decodes it -> forall frames, decoded it = Ok frames -> frames = [].

End FormatView.

(** ** Sample inputs *)

Module Samples.
Import Channel Decode Loader.

(** A data frame: sequence number 7, one byte of payload. *)
Definition data_frame : list byte := [x07; x00; x00; x00; x41].
(** The terminal frame with sequence number 8. *)
Definition end_frame : list byte := [x08; x00; x00; x00].
(** A frame cut short. *)
Definition short_frame : list byte := [x01; x02].

Definition data_ack : list byte := [x00; x00; x00; x00; x07; x00; x00; x00].

Definition one_entry : list Status := [mkStatus "1-alice" DFalse false].

Definition frame48k : Frame.t := Frame.mk 8 48000 2 960.

Definition blank_track : Track := mkTrack 0 0 0.

(** The state [trackStream] starts in, for a track whose handshake is done. *)
Definition fresh_state : DState :=
  mkDState (mkInStream [] SClosed) (-1) (-1) (-1) blank_track
           [mkStatus "1-alice" DFalse true].

(** libav decodes one frame from the first batch of packets, then meets
    the end of the input. *)
Definition one_frame_script : list Iter :=
  [mkIter false (Some []) (Ok [frame48k]) (Ok (1, 2, 3)%Z) (Ok [frame48k]);
   mkIter true None (Ok []) (Ok (0, 0, 0)%Z) (Ok [])].

(** libav opens the input and meets its end at once. *)
Definition empty_input_script : list Iter :=
  [mkIter true None (Ok []) (Ok (0, 0, 0)%Z) (Ok [])].

(** A connection whose first message is not the success marker. *)
Definition garbage_first_env : Env :=
  mkEnv [Text "nope"; Text ok_marker; Binary data_frame; Binary end_frame]
        (fun _ => OPEN)
        (mkLibAV (Ok ()) (Ok ()) one_frame_script).

(** A connection whose first chunk frame is the terminal one. *)
Definition empty_track_env : Env :=
  mkEnv [Text ok_marker; Binary end_frame]
        (fun _ => OPEN)
        (mkLibAV (Ok ()) (Ok ()) empty_input_script).

(** Two tracks; the loader of the first one rejects. *)
Definition track1 : Scheduler.Entry := Scheduler.mkEntry 1 "1-alice".
Definition track2 : Scheduler.Entry := Scheduler.mkEntry 2 "2-bob".
Definition track3 : Scheduler.Entry := Scheduler.mkEntry 3 "3-carol".

Definition first_rejects (t : Scheduler.Entry) : Scheduler.Settle :=
  if Nat.eqb (Scheduler.idx t) 1 then Scheduler.Rejects (LibavError (-1))
  else Scheduler.Fulfils.

End Samples.

(** ** More sample inputs *)

Module MoreSamples.
Import Channel Decode Loader Samples.

(** Two users of a recording: one with the discriminator 0, one with a
    display name and a discriminator. *)
Definition two_users : list Prepare.User :=
  [Prepare.mkUser "11" None None "alice" "0";
   Prepare.mkUser "12" (Some "bob") (Some "7") "robert" "0007"].

(** Every loader fulfils. *)
Definition all_fulfil (t : Scheduler.Entry) : Scheduler.Settle := Scheduler.Fulfils.

(** No call of the host rejects. *)
Definition host_ok (k : nat) : option Exn := None.

(** A run driven by the URL: FLAC, no flag, nothing passed, one stored
    recording and one project of another tool; every call fulfils. *)
Definition url_env : Wizard.Env :=
  Wizard.mkEnv (Some "0") (Some 0%Z) false
    [("craig-old-1", "7"); ("podcast", "8")]
    Wizard.Automatic Wizard.CancelOptions
    [("_FLAC", "flac"); ("_Opus", "opus")] true host_ok.

(** The same, with an import that fails: the import is the fourth call,
    after the URL, the list of projects and one deletion. *)
Definition failing_env : Wizard.Env :=
  Wizard.mkEnv (Some "0") (Some 0%Z) false
    [("craig-old-1", "7"); ("podcast", "8")]
    Wizard.Automatic Wizard.CancelOptions
    [("_FLAC", "flac"); ("_Opus", "opus")] true
    (fun k => if Nat.eqb k 3 then Some (LibavError (-1)) else None).

End MoreSamples.

(** * Properties *)

(** ** Bytes and 32-bit reads and writes *)

Module BufferFacts.
Import Buffer.

Lemma u8_range (b : byte) : (0 <= u8 b < 256)%Z.
Proof.
  unfold u8. pose proof (Byte.to_N_bounded b) as H. lia.
Qed.

Lemma byte_of_Z_mod (z : Z) (b : byte) : (z mod 256 = u8 b)%Z -> byte_of_Z z = b.
Proof.
  intros H. unfold byte_of_Z. rewrite H. unfold u8.
  rewrite N2Z.id, Byte.of_to_N. reflexivity.
Qed.

Lemma u32_range (b0 b1 b2 b3 : byte) : (0 <= u32 b0 b1 b2 b3 < 2 ^ 32)%Z.
Proof.
  unfold u32.
  pose proof (u8_range b0). pose proof (u8_range b1).
  pose proof (u8_range b2). pose proof (u8_range b3). lia.
Qed.

Lemma le_bytes_u32 (b0 b1 b2 b3 : byte) :
  le_bytes (u32 b0 b1 b2 b3) = [b0; b1; b2; b3].
Proof.
  unfold le_bytes.
  rewrite (Z.mod_small _ _ (u32_range b0 b1 b2 b3)).
  unfold u32.
  pose proof (u8_range b0). pose proof (u8_range b1).
  pose proof (u8_range b2). pose proof (u8_range b3).
  repeat f_equal; apply byte_of_Z_mod.
  all: change (2 ^ 8)%Z with 256%Z; change (2 ^ 16)%Z with 65536%Z;
    change (2 ^ 24)%Z with 16777216%Z.
  all: Z.div_mod_to_equations; lia.
Qed.

Lemma getUint32_short (view : list byte) :
  length view < 4 -> getUint32 view 0 true = None.
Proof.
  unfold getUint32. rewrite drop_0.
  destruct view as [|? [|? [|? [|? ?]]]]; simpl; intros; try reflexivity; lia.
Qed.

Lemma getUint32_long (view : list byte) :
  4 <= length view ->
  exists b0 b1 b2 b3 rest,
    view = b0 :: b1 :: b2 :: b3 :: rest
    /\ getUint32 view 0 true = Some (u32 b0 b1 b2 b3).
Proof.
  destruct view as [|b0 [|b1 [|b2 [|b3 rest]]]]; simpl; intros; try lia.
  exists b0, b1, b2, b3, rest. split; reflexivity.
Qed.

End BufferFacts.

(** ** The socket handler and the reader *)

Module ChannelFacts.
Import Buffer BufferFacts Channel.

Lemma setUint32_ack (v : Z) :
  setUint32 (ArrayBuffer 8) 4 v true = Some ([x00; x00; x00; x00] ++ le_bytes v).
Proof.
  unfold setUint32, ArrayBuffer.
  destruct (decide (4 + 4 <= length (replicate 8 x00))) as [_ | H].
  - reflexivity.
  - exfalso. apply H. rewrite length_replicate. lia.
Qed.

Lemma make_ack_long (b0 b1 b2 b3 : byte) (rest : list byte) :
  make_ack (b0 :: b1 :: b2 :: b3 :: rest)
  = Ok [x00; x00; x00; x00; b0; b1; b2; b3].
Proof.
  unfold make_ack.
  change (getUint32 (b0 :: b1 :: b2 :: b3 :: rest) 0 true)
    with (Some (u32 b0 b1 b2 b3)).
  cbv beta iota.
  rewrite setUint32_ack, le_bytes_u32. reflexivity.
Qed.

Lemma make_ack_short (b : list byte) : length b < 4 -> make_ack b = Throw RangeError.
Proof. intros H. unfold make_ack. rewrite getUint32_short; auto. Qed.

(** What a pull does with a binary part of at least four bytes. *)
Lemma pull_part_long (b0 b1 b2 b3 : byte) (rest : list byte) (rs : ReadyState) :
  pull_part (Binary (b0 :: b1 :: b2 :: b3 :: rest)) rs
  = Ok ((if wsClosed rs then [] else [SockSend [x00; x00; x00; x00; b0; b1; b2; b3]])
          ++ match rest with
             | _ :: _ => [Enqueue rest]
             | [] => Close :: (if wsClosed rs then [] else [SockClose])
             end).
Proof.
  unfold pull_part. rewrite make_ack_long.
  destruct (wsClosed rs), rest; simpl; reflexivity.
Qed.

Lemma pull_part_short_open (b : list byte) (rs : ReadyState) :
  length b < 4 -> wsClosed rs = false -> pull_part (Binary b) rs = Throw RangeError.
Proof.
  intros Hb Hrs. unfold pull_part. rewrite Hrs, make_ack_short; auto.
Qed.

Lemma pull_part_short_closed (b : list byte) (rs : ReadyState) :
  length b <= 4 -> wsClosed rs = true -> pull_part (Binary b) rs = Ok [Close].
Proof.
  intros Hb Hrs. unfold pull_part. rewrite Hrs. simpl.
  destruct (decide (4 < length b)); [lia | reflexivity].
Qed.

(** The acknowledgements among the effects of one pull. *)
Lemma pull_part_acks (part : MsgData) (rs : ReadyState) (effs : list Effect) :
  pull_part part rs = Ok effs ->
  length (acks_of effs) = if wsClosed rs then 0 else 1.
Proof.
  destruct part as [s | b]; [discriminate |].
  destruct (le_lt_dec 4 (length b)) as [Hl | Hs].
  - destruct (getUint32_long b Hl) as (b0 & b1 & b2 & b3 & rest & -> & _).
    rewrite pull_part_long. intros [= <-].
    destruct (wsClosed rs), rest; reflexivity.
  - destruct (wsClosed rs) eqn:Hrs.
    + rewrite pull_part_short_closed by (auto; lia). intros [= <-]. reflexivity.
    + rewrite pull_part_short_open by auto. discriminate.
Qed.

(** Every entry of the log records what [pull_part] did. *)
Lemma pulls_log_sound (n : nat) (queue : list (MsgData * ReadyState))
    (part : MsgData) (rs : ReadyState) (res : result (list Effect)) :
  In (part, rs, res) (pulls n queue).1 -> res = pull_part part rs.
Proof.
  revert queue. induction n as [|n IH]; intros queue; simpl; [tauto |].
  destruct queue as [|[p r] rest]; simpl; [tauto |].
  destruct (pull_part p r) as [effs | e] eqn:Hp; simpl.
  - destruct (closes effs).
    + simpl. intros [[= <- <- <-] | []]. auto.
    + destruct (pulls n rest) as [log fin] eqn:Hrest. simpl.
      intros [[= <- <- <-] | Hin]; [auto |].
      apply (IH rest). rewrite Hrest. exact Hin.
  - intros [[= <- <- <-] | []]. auto.
Qed.

Lemma acks_of_app (e1 e2 : list Effect) : acks_of (e1 ++ e2) = acks_of e1 ++ acks_of e2.
Proof. unfold acks_of. apply flat_map_app. Qed.

(** Acknowledgements sent and parts accepted while the socket was open,
    over a whole log. *)
Lemma log_ack_count (log : PullLog) :
  (forall part rs res, In (part, rs, res) log -> res = pull_part part rs) ->
  length (acks_of (effects_of log))
  = length (List.filter (fun p => negb (wsClosed p.2)) (accepted log)).
Proof.
  induction log as [|[[part rs] res] log IH]; intros Hs; [reflexivity |].
  unfold effects_of, accepted in *. simpl.
  assert (Hres : res = pull_part part rs) by (apply Hs; left; reflexivity).
  specialize (IH (fun p r x H => Hs p r x (or_intror H))).
  destruct res as [effs | e]; simpl.
  - rewrite acks_of_app, length_app, IH.
    rewrite (pull_part_acks part rs effs) by auto.
    destruct (wsClosed rs); simpl; reflexivity.
  - exact IH.
Qed.

End ChannelFacts.

(** ** Claims about the reader *)

Module ReaderClaims.
Import Buffer BufferFacts Channel ChannelFacts Samples.

Lemma in_acks_of (ack : list byte) (effs : list Effect) :
  In ack (acks_of effs) <-> In (SockSend ack) effs.
Proof.
  unfold acks_of. rewrite in_flat_map. split.
  - intros (e & He & Hin). destruct e; simpl in Hin; try tauto.
    destruct Hin as [-> | []]. exact He.
  - intros H. exists (SockSend ack). split; [exact H | left; reflexivity].
Qed.

Lemma in_log_effects (eff : Effect) (log : PullLog) :
  In eff (effects_of log) ->
  exists part rs effs, In (part, rs, Ok effs) log /\ In eff effs.
Proof.
  unfold effects_of. rewrite in_flat_map.
  intros ([[part rs] res] & Hin & He). destruct res as [effs | e]; simpl in He; [| tauto].
  exists part, rs, effs. auto.
Qed.

Lemma in_accepted (part : MsgData) (rs : ReadyState) (effs : list Effect) (log : PullLog) :
  In (part, rs, Ok effs) log -> In (part, rs) (accepted log).
Proof.
  intros H. unfold accepted. rewrite in_flat_map.
  exists (part, rs, Ok effs). split; [exact H | left; reflexivity].
Qed.

(** C7. Every acknowledgement the reader sends is eight bytes long; its
    first four bytes are zero and its last four hold, least significant
    byte first, the number read least significant byte first from the
    first four bytes of the part being acknowledged. *)
Theorem ack_frame_layout (n : nat) (queue : list (MsgData * ReadyState))
    (ack : list byte) :
  In ack (acks_of (effects_of (pulls n queue).1)) ->
  exists b rs seq,
    In (Binary b, rs) (accepted (pulls n queue).1)
    /\ getUint32 b 0 true = Some seq
    /\ length ack = 8
    /\ take 4 ack = [x00; x00; x00; x00]
    /\ getUint32 ack 4 true = Some seq
    /\ drop 4 ack = take 4 b.
Proof.
  intros Hin. apply in_acks_of, in_log_effects in Hin.
  destruct Hin as (part & rs & effs & Hlog & Heff).
  pose proof (pulls_log_sound _ _ _ _ _ Hlog) as Hp. symmetry in Hp.
  destruct part as [s | b]; [discriminate |].
  exists b, rs.
  destruct (le_lt_dec 4 (length b)) as [Hl | Hs].
  - destruct (getUint32_long b Hl) as (b0 & b1 & b2 & b3 & rest & -> & Hseq).
    exists (u32 b0 b1 b2 b3).
    rewrite pull_part_long in Hp. injection Hp as <-.
    assert (Hack : ack = [x00; x00; x00; x00; b0; b1; b2; b3]).
    { destruct (wsClosed rs), rest; simpl in Heff;
        repeat (destruct Heff as [Heff | Heff]; try discriminate; try tauto);
        congruence. }
    subst ack. repeat split; try reflexivity; eauto using in_accepted.
  - exfalso. destruct (wsClosed rs) eqn:Hrs.
    + rewrite pull_part_short_closed in Hp by (auto; lia). injection Hp as <-.
      destruct Heff as [Heff | []]. discriminate.
    + rewrite pull_part_short_open in Hp by auto. discriminate.
Qed.

Lemma ack_frame_layout_witness :
  In data_ack (acks_of (effects_of (pulls 1 [(Binary data_frame, OPEN)]).1))
  /\ exists b rs seq,
    In (Binary b, rs) (accepted (pulls 1 [(Binary data_frame, OPEN)]).1)
    /\ getUint32 b 0 true = Some seq
    /\ length data_ack = 8
    /\ take 4 data_ack = [x00; x00; x00; x00]
    /\ getUint32 data_ack 4 true = Some seq
    /\ drop 4 data_ack = take 4 b.
Proof.
  assert (H : In data_ack (acks_of (effects_of (pulls 1 [(Binary data_frame, OPEN)]).1))).
  { vm_compute. left. reflexivity. }
  split; [exact H |].
  exact (ack_frame_layout 1 [(Binary data_frame, OPEN)] data_ack H).
Defined.

(** C6. Over any run of the reader, the acknowledgements sent are as many
    as the parts accepted while the socket was neither closing nor closed;
    and each part with a payload (more than four bytes) is answered by one
    acknowledgement carrying its sequence number when the socket is not
    closing or closed as the part is processed, and by none otherwise. *)
Theorem chunk_acknowledged_once (n : nat) (queue : list (MsgData * ReadyState)) :
  let log := (pulls n queue).1 in
  length (acks_of (effects_of log))
  = length (List.filter (fun p => negb (wsClosed p.2)) (accepted log))
  /\ forall b rs res,
      In (Binary b, rs, res) log -> 4 < length b ->
      exists seq ack,
        getUint32 b 0 true = Some seq
        /\ getUint32 ack 4 true = Some seq
        /\ res = Ok ((if wsClosed rs then [] else [SockSend ack])
                       ++ [Enqueue (drop 4 b)]).
Proof.
  intros log. split.
  - apply log_ack_count. intros part rs res. apply pulls_log_sound.
  - intros b rs res Hin Hlen.
    apply pulls_log_sound in Hin. subst res.
    destruct (getUint32_long b) as (b0 & b1 & b2 & b3 & rest & -> & Hseq); [lia |].
    exists (u32 b0 b1 b2 b3), [x00; x00; x00; x00; b0; b1; b2; b3].
    split; [exact Hseq |]. split; [reflexivity |].
    rewrite pull_part_long. destruct rest; [simpl in Hlen; lia | reflexivity].
Qed.

Lemma chunk_acknowledged_once_witness :
  let log := (pulls 2 [(Binary data_frame, OPEN); (Binary end_frame, CLOSING)]).1 in
  (In (Binary data_frame, OPEN, pull_part (Binary data_frame) OPEN) log
   /\ 4 < length data_frame)
  /\ length (acks_of (effects_of log)) = 1
  /\ exists seq ack,
      getUint32 data_frame 0 true = Some seq
      /\ getUint32 ack 4 true = Some seq
      /\ pull_part (Binary data_frame) OPEN
         = Ok ((if wsClosed OPEN then [] else [SockSend ack])
                 ++ [Enqueue (drop 4 data_frame)]).
Proof.
  intros log.
  assert (Hin : In (Binary data_frame, OPEN, pull_part (Binary data_frame) OPEN) log).
  { left. reflexivity. }
  assert (Hlen : 4 < length data_frame) by (simpl; lia).
  destruct (chunk_acknowledged_once 2
              [(Binary data_frame, OPEN); (Binary end_frame, CLOSING)]) as [Hcount Hone].
  split; [split; assumption |]. split.
  - etransitivity; [exact Hcount | reflexivity].
  - exact (Hone data_frame OPEN _ Hin Hlen).
Defined.

(** C10. A part of at most four bytes never yields a chunk: whenever its
    pull goes through it closes the stream, and closes the socket unless
    that is closing or closed already.  The acknowledgement is built
    first, by a read of four bytes that nothing guards: with the socket
    open, a part of fewer than four bytes makes the pull throw a
    [RangeError] (nothing is sent or closed), and a part of exactly four
    bytes, the terminal frame, is acknowledged like any other before the
    stream and the socket are closed. *)
Theorem short_part_is_terminal (b : list byte) (rs : ReadyState) :
  length b <= 4 ->
  (forall effs, pull_part (Binary b) rs = Ok effs ->
     In Close effs /\ (forall c, ~ In (Enqueue c) effs)
     /\ (wsClosed rs = false -> In SockClose effs))
  /\ (wsClosed rs = false -> length b < 4 ->
      pull_part (Binary b) rs = Throw RangeError)
  /\ (wsClosed rs = false -> length b = 4 ->
      exists seq ack,
        getUint32 b 0 true = Some seq
        /\ getUint32 ack 4 true = Some seq
        /\ pull_part (Binary b) rs = Ok [SockSend ack; Close; SockClose])
  /\ (wsClosed rs = true -> pull_part (Binary b) rs = Ok [Close]).
Proof.
  intros Hlen. repeat split.
  - destruct (wsClosed rs) eqn:Hrs.
    + rewrite pull_part_short_closed in H by auto. injection H as <-. left. reflexivity.
    + destruct (le_lt_dec 4 (length b)) as [Hl | Hs].
      * destruct (getUint32_long b Hl) as (b0 & b1 & b2 & b3 & rest & -> & _).
        destruct rest; [| simpl in Hlen; lia].
        rewrite pull_part_long, Hrs in H. injection H as <-. simpl. tauto.
      * rewrite pull_part_short_open in H by auto. discriminate.
  - intros c Hc. destruct (wsClosed rs) eqn:Hrs.
    + rewrite pull_part_short_closed in H by auto. injection H as <-.
      destruct Hc as [Hc | []]. discriminate.
    + destruct (le_lt_dec 4 (length b)) as [Hl | Hs].
      * destruct (getUint32_long b Hl) as (b0 & b1 & b2 & b3 & rest & -> & _).
        destruct rest; [| simpl in Hlen; lia].
        rewrite pull_part_long, Hrs in H. injection H as <-.
        simpl in Hc. repeat (destruct Hc as [Hc | Hc]; try discriminate). exact Hc.
      * rewrite pull_part_short_open in H by auto. discriminate.
  - intros Hrs. destruct (le_lt_dec 4 (length b)) as [Hl | Hs].
    + destruct (getUint32_long b Hl) as (b0 & b1 & b2 & b3 & rest & -> & _).
      destruct rest; [| simpl in Hlen; lia].
      rewrite pull_part_long, Hrs in H. injection H as <-. simpl. tauto.
    + rewrite pull_part_short_open in H by auto. discriminate.
  - intros Hrs Hs. apply pull_part_short_open; auto.
  - intros Hrs H4.
    destruct (getUint32_long b) as (b0 & b1 & b2 & b3 & rest & -> & Hseq); [lia |].
    destruct rest; [| simpl in H4; lia].
    exists (u32 b0 b1 b2 b3), [x00; x00; x00; x00; b0; b1; b2; b3].
    split; [exact Hseq |]. split; [reflexivity |].
    rewrite pull_part_long, Hrs. reflexivity.
  - intros Hrs. apply pull_part_short_closed; auto.
Qed.

Lemma short_part_is_terminal_witness :
  (length short_frame <= 4 /\ length end_frame <= 4)
  /\ pull_part (Binary short_frame) OPEN = Throw RangeError
  /\ (exists seq ack,
        getUint32 end_frame 0 true = Some seq
        /\ getUint32 ack 4 true = Some seq
        /\ pull_part (Binary end_frame) OPEN = Ok [SockSend ack; Close; SockClose])
  /\ pull_part (Binary short_frame) CLOSED = Ok [Close].
Proof.
  assert (H2 : length short_frame <= 4) by (simpl; lia).
  assert (H4 : length end_frame <= 4) by (simpl; lia).
  split; [split; assumption |].
  destruct (short_part_is_terminal short_frame OPEN H2) as (_ & Hthrow & _ & _).
  destruct (short_part_is_terminal end_frame OPEN H4) as (_ & _ & Hack & _).
  destruct (short_part_is_terminal short_frame CLOSED H2) as (_ & _ & _ & Hclosed).
  split; [apply Hthrow; [reflexivity | simpl; lia] |].
  split; [apply Hack; reflexivity |].
  apply Hclosed. reflexivity.
Defined.

End ReaderClaims.

(** ** Claims about the handshake *)

Module HandshakeClaims.
Import Channel Decode Loader Samples.

Lemma onmessage_invalid_first (idx sidx : nat) (c : Chan) (data : MsgData) :
  first c = true -> is_ok_marker data = false ->
  onmessage idx sidx c data = (c, [ConsoleWarn idx]).
Proof. intros Hf Hd. unfold onmessage. rewrite Hf, Hd. reflexivity. Qed.

Lemma onmessage_marker (idx sidx : nat) (c : Chan) (data : MsgData) :
  first c = true -> is_ok_marker data = true ->
  first (onmessage idx sidx c data).1 = false
  /\ incoming (onmessage idx sidx c data).1 = incoming c.
Proof.
  intros Hf Hd. unfold onmessage. rewrite Hf, Hd.
  destruct (status c !! sidx); simpl; auto.
Qed.

Lemma deliver_after_handshake (idx sidx : nat) (msgs : list MsgData) (c : Chan) :
  first c = false ->
  incoming (deliver idx sidx c msgs).1 = incoming c ++ msgs.
Proof.
  revert c. induction msgs as [|m rest IH]; intros c Hf; simpl.
  - rewrite app_nil_r. reflexivity.
  - unfold onmessage at 1. rewrite Hf.
    match goal with |- context [deliver idx sidx ?c1 rest] =>
      specialize (IH c1 eq_refl); destruct (deliver idx sidx c1 rest) as [c2 ev2] end.
    simpl in *. rewrite IH, <- app_assoc. reflexivity.
Qed.

Lemma deliver_app (idx sidx : nat) (m1 m2 : list MsgData) (c : Chan) :
  (deliver idx sidx c (m1 ++ m2)).1
  = (deliver idx sidx (deliver idx sidx c m1).1 m2).1.
Proof.
  revert c. induction m1 as [|m rest IH]; intros c; simpl; [reflexivity |].
  destruct (onmessage idx sidx c m) as [c1 ev1].
  specialize (IH c1).
  destruct (deliver idx sidx c1 (rest ++ m2)) as [c2 ev2].
  destruct (deliver idx sidx c1 rest) as [c3 ev3]. simpl in *. exact IH.
Qed.

(** C5, as the code has it.  While no success marker has come, [first]
    stays set: every further message is checked against the marker again
    and, when it is not the marker, dropped with a warning, the queue and
    the status table untouched.  Only the messages that come after a
    marker are pushed to the queue, in order. *)
Theorem handshake_rechecked (idx sidx : nat) (c : Chan) (junk : list MsgData) :
  first c = true ->
  Forall (fun d => is_ok_marker d = false) junk ->
  deliver idx sidx c junk = (c, map (fun _ => ConsoleWarn idx) junk)
  /\ forall m rest,
      is_ok_marker m = true ->
      incoming (deliver idx sidx c (junk ++ m :: rest)).1 = incoming c ++ rest.
Proof.
  intros Hf Hjunk.
  assert (Hd : deliver idx sidx c junk = (c, map (fun _ => ConsoleWarn idx) junk)).
  { induction Hjunk as [|d junk Hd _ IH]; simpl; [reflexivity |].
    rewrite onmessage_invalid_first, IH by assumption. reflexivity. }
  split; [exact Hd |].
  intros m rest Hm. rewrite deliver_app, Hd. simpl.
  destruct (onmessage_marker idx sidx c m Hf Hm) as [H1 H2].
  destruct (onmessage idx sidx c m) as [c1 ev1]. simpl in *.
  pose proof (deliver_after_handshake idx sidx rest c1 H1) as H3.
  destruct (deliver idx sidx c1 rest) as [c2 ev2]. simpl in *.
  rewrite H3, H2. reflexivity.
Qed.

Lemma handshake_rechecked_witness :
  (first (initial_chan one_entry) = true
   /\ Forall (fun d => is_ok_marker d = false) [Text "hello"; Binary data_frame])
  /\ deliver 1 0 (initial_chan one_entry) [Text "hello"; Binary data_frame]
     = (initial_chan one_entry, [ConsoleWarn 1; ConsoleWarn 1])
  /\ incoming (deliver 1 0 (initial_chan one_entry)
                 ([Text "hello"; Binary data_frame]
                    ++ Text ok_marker :: [Binary data_frame; Binary end_frame])).1
     = [Binary data_frame; Binary end_frame].
Proof.
  assert (Hf : first (initial_chan one_entry) = true) by reflexivity.
  assert (Hj : Forall (fun d => is_ok_marker d = false) [Text "hello"; Binary data_frame]).
  { repeat constructor. }
  destruct (handshake_rechecked 1 0 (initial_chan one_entry)
              [Text "hello"; Binary data_frame] Hf Hj) as [H1 H2].
  split; [split; assumption |]. split; [exact H1 |].
  apply (H2 (Text ok_marker) [Binary data_frame; Binary end_frame]). reflexivity.
Defined.

(** C5 as stated fails: a data frame that arrives after an invalid first
    message is not pushed to the queue; it is checked against the marker
    and dropped with a second warning. *)
Lemma data_after_invalid_first_is_dropped :
  let c := (deliver 1 0 (initial_chan one_entry) [Text "hello"; Binary data_frame]).1 in
  incoming c = [] /\ first c = true
  /\ (deliver 1 0 (initial_chan one_entry) [Text "hello"; Binary data_frame]).2
     = [ConsoleWarn 1; ConsoleWarn 1].
Proof. vm_compute. repeat split. Qed.

End HandshakeClaims.

(** ** The decoding loop *)

Module DecodeFacts.
Import Channel Decode Observe.

Lemma durations_app (e1 e2 : list Event) :
  durations (e1 ++ e2) = durations e1 ++ durations e2.
Proof. unfold durations. apply flat_map_app. Qed.

Lemma durations_inbound (effs : list Effect) : durations (map Inbound effs) = [].
Proof. induction effs as [|e effs IH]; simpl; auto. Qed.

Lemma chain_app (l1 l2 : list Duration) (a : Duration) :
  progress_chain a (l1 ++ l2)
  <-> progress_chain a l1 /\ progress_chain (keep_last a l1) l2.
Proof.
  revert a. induction l1 as [|b l1 IH]; intros a; simpl.
  - tauto.
  - rewrite IH. unfold keep_last. simpl. tauto.
Qed.

Lemma keep_last_app (l1 l2 : list Duration) (a : Duration) :
  keep_last a (l1 ++ l2) = keep_last (keep_last a l1) l2.
Proof. unfold keep_last. apply fold_left_app. Qed.

Lemma ratio_nonneg (a b : Z) : (0 <= a)%Z -> (0 < b)%Z -> (0 <= ratio a b)%Q.
Proof.
  intros Ha Hb. unfold ratio, Qdiv. apply Qmult_le_0_compat.
  - unfold Qle. simpl. lia.
  - apply Qinv_le_0_compat. unfold Qle. simpl. lia.
Qed.

Lemma Qle_add_nonneg (q r : Q) : (0 <= r)%Q -> (q <= q + r)%Q.
Proof.
  intros Hr. rewrite <- (Qplus_0_r q) at 1. apply Qplus_le_r. exact Hr.
Qed.

Lemma progress_step_add (d : Duration) (r : Q) :
  d <> DFalse -> (0 <= r)%Q -> progress_step d (dur_add d r).
Proof.
  intros Hd Hr. destruct d; simpl; try tauto. apply Qle_add_nonneg, Hr.
Qed.

Lemma dur_add_not_false (d : Duration) (r : Q) : dur_add d r <> DFalse.
Proof. destruct d; discriminate. Qed.

(** The loop over the filtered frames only moves the duration upwards. *)
Lemma send_frames_progress (rate : Z) (fframes : list Frame.t) (d : Duration) :
  (0 < rate)%Z ->
  (forall f, In f fframes -> (0 <= Frame.nb_samples f)%Z) ->
  d <> DFalse ->
  progress_chain d (durations (send_frames rate d fframes).2)
  /\ keep_last d (durations (send_frames rate d fframes).2)
     = (send_frames rate d fframes).1
  /\ (send_frames rate d fframes).1 <> DFalse.
Proof.
  intros Hrate. revert d. induction fframes as [|f rest IH]; intros d Hnb Hd; simpl.
  - auto.
  - specialize (IH (dur_add d (ratio (Frame.nb_samples f) rate))
                   (fun g Hg => Hnb g (or_intror Hg)) (dur_add_not_false _ _)).
    destruct (send_frames rate _ rest) as [dn evs]. simpl in *.
    destruct IH as (IH1 & IH2 & IH3).
    split; [| split; assumption].
    split; [| assumption].
    apply progress_step_add; [exact Hd |].
    apply ratio_nonneg; [apply Hnb; left; reflexivity | exact Hrate].
Qed.

Section Turn.
Variable fromPlanar : Z -> Z.
Variable sidx : nat.

Lemma filter_and_send_progress (it : Iter) (s s1 : DState) (x : Status)
    (ev : list Event) (n : Next) :
  table s !! sidx = Some x ->
  rate_known s ->
  sane_frames it ->
  filter_and_send sidx it s = (s1, ev, n) ->
  progress_chain (duration x) (durations ev)
  /\ (exists x1, table s1 !! sidx = Some x1
                 /\ duration x1 = keep_last (duration x) (durations ev))
  /\ track s1 = track s /\ buffersrc_ctx s1 = buffersrc_ctx s.
Proof.
  intros Hx Hrate [_ Hnb] Hfs. unfold filter_and_send in Hfs.
  destruct (0 <=? buffersrc_ctx s)%Z eqn:Hctx.
  2:{ injection Hfs as <- <- <-. simpl. split; [exact I |]. split; [exists x |]; auto. }
  destruct (filtered it) as [fframes | e] eqn:Hfl.
  2:{ injection Hfs as <- <- <-. simpl. split; [exact I |]. split; [exists x |]; auto. }
  rewrite Hx in Hfs.
  assert (Hr : (0 < sampleRate (track s))%Z).
  { destruct Hrate as [H | H]; [apply Z.leb_le in Hctx; lia | exact H]. }
  set (d1 := match duration x with DFalse => DNum 0 | d => d end).
  assert (Hd1 : d1 <> DFalse) by (subst d1; destruct (duration x); discriminate).
  pose proof (send_frames_progress (sampleRate (track s)) fframes d1 Hr
                (fun f => Hnb fframes f eq_refl) Hd1) as (Hc & Hk & Hn).
  assert (Hlt : sidx < length (table s)) by (eapply lookup_lt_Some; eauto).
  destruct (duration x) eqn:Hdx; subst d1;
    destruct (send_frames (sampleRate (track s)) _ fframes) as [d2 ev2];
    destruct (read_eof it); injection Hfs as <- <- <-;
    simpl in *; rewrite ?durations_app, ?list_lookup_insert_eq by exact Hlt;
    simpl; rewrite ?app_nil_r; rewrite ?chain_app, ?keep_last_app; simpl;
    (split; [| split; [eexists; split; [reflexivity |] | split; reflexivity]]);
    simpl; rewrite ?Hk; auto.
  all: try (repeat split; auto; destruct d2; simpl; auto; tauto).
Qed.

Lemma read_more_quiet (s s1 : DState) (ev : list Event) (n : Next) :
  read_more s = (s1, ev, n) ->
  durations ev = [] /\ table s1 = table s /\ track s1 = track s
  /\ buffersrc_ctx s1 = buffersrc_ctx s.
Proof.
  unfold read_more. destruct (read (inStream s)) as [[rd ins] effs].
  destruct rd; intros [= <- <- <-]; simpl;
    rewrite ?durations_app, durations_inbound; auto.
Qed.

Lemma prepare_filter_rate (it : Iter) (frames : list Frame.t) (s s1 : DState)
    (ev : list Event) (n : Next) :
  sane_frames it ->
  decoded it = Ok frames ->
  rate_known s ->
  prepare_filter fromPlanar it frames s = (s1, ev, n) ->
  rate_known s1 /\ table s1 = table s /\ durations ev = [].
Proof.
  intros [Hsr _] Hdec Hrate. unfold prepare_filter.
  destruct frames as [|f0 fs]; [intros [= <- <- <-]; auto |].
  destruct (buffersrc_ctx s <? 0)%Z eqn:Hctx; [| intros [= <- <- <-]; auto].
  destruct (graph it) as [g | e]; intros [= <- <- <-]; simpl; repeat split; auto.
  - right. simpl. apply (Hsr (f0 :: fs)); [exact Hdec | left; reflexivity].
  - left. simpl. apply Z.ltb_lt. exact Hctx.
Qed.

Lemma decode_and_send_progress (it : Iter) (s s1 : DState) (x : Status)
    (ev : list Event) (n : Next) :
  table s !! sidx = Some x ->
  rate_known s ->
  sane_frames it ->
  decode_and_send fromPlanar sidx it s = (s1, ev, n) ->
  progress_chain (duration x) (durations ev)
  /\ (exists x1, table s1 !! sidx = Some x1
                 /\ duration x1 = keep_last (duration x) (durations ev))
  /\ rate_known s1.
Proof.
  intros Hx Hrate Hsane. unfold decode_and_send.
  destruct (decoded it) as [frames | e] eqn:Hdec.
  2:{ intros [= <- <- <-]. simpl. split; [exact I |]. split; [exists x |]; auto. }
  destruct (prepare_filter fromPlanar it frames s) as [[sa eva] na] eqn:Hprep.
  destruct (prepare_filter_rate _ _ _ _ _ _ Hsane Hdec Hrate Hprep)
    as (Hra & Hta & Hda).
  assert (Hxa : table sa !! sidx = Some x) by (rewrite Hta; exact Hx).
  destruct na;
    try (intros [= <- <- <-]; simpl; rewrite Hda; simpl;
         split; [exact I |]; split; [exists x |]; auto; fail).
  destruct (filter_and_send sidx it sa) as [[sb evb] nb] eqn:Hfs.
  destruct (filter_and_send_progress it sa sb x evb nb Hxa Hra Hsane Hfs)
    as (Hc & (x1 & Hx1 & Hd1) & Htr & Hcx).
  assert (Hrb : rate_known sb).
  { unfold rate_known. rewrite Htr, Hcx. exact Hra. }
  destruct nb; [destruct (read_eof it) | | | |]; intros [= <- <- <-]; simpl;
    rewrite ?durations_app, Hda; simpl; rewrite ?app_nil_r;
    (split; [exact Hc |]; split; [exists x1; auto | exact Hrb]).
Qed.

Lemma turn_progress (it : Iter) (s s1 : DState) (x : Status)
    (ev : list Event) (n : Next) :
  table s !! sidx = Some x ->
  rate_known s ->
  sane_frames it ->
  turn fromPlanar sidx it s = (s1, ev, n) ->
  progress_chain (duration x) (durations ev)
  /\ (exists x1, table s1 !! sidx = Some x1
                 /\ duration x1 = keep_last (duration x) (durations ev))
  /\ rate_known s1.
Proof.
  intros Hx Hrate Hsane. unfold turn.
  destruct (packets it), (read_eof it);
    try (apply decode_and_send_progress; assumption).
  intros H. apply read_more_quiet in H as (-> & Ht & Htr & Hc).
  simpl. split; [exact I |]. split; [exists x; rewrite Ht; auto |].
  unfold rate_known. rewrite Htr, Hc. exact Hrate.
Qed.

Lemma run_progress (script : list Iter) (s : DState) (x : Status) :
  table s !! sidx = Some x ->
  rate_known s ->
  Forall sane_frames script ->
  progress_chain (duration x) (durations (run fromPlanar sidx script s).1.2).
Proof.
  intros Hx Hrate Hsane. revert s x Hx Hrate.
  induction Hsane as [|it script Hit _ IH]; intros s x Hx Hrate; simpl; [exact I |].
  destruct (turn fromPlanar sidx it s) as [[s1 ev1] n] eqn:Hturn.
  destruct (turn_progress it s s1 x ev1 n Hx Hrate Hit Hturn)
    as (Hc & (x1 & Hx1 & Hd1) & Hr1).
  specialize (IH s1 x1 Hx1 Hr1).
  destruct n; try exact Hc;
    destruct (run fromPlanar sidx script s1) as [[s2 ev2] e]; simpl in *;
    rewrite durations_app, chain_app; simpl; rewrite <- Hd1; auto.
Qed.

End Turn.

End DecodeFacts.

(** ** The format of a track along the decoding loop *)

Module FormatFacts.
Import Channel Decode Observe DecodeFacts.

(** Closes [Forall] goals over explicit lists of events. *)
Ltac forall_events :=
  repeat first
    [ assumption
    | apply Forall_nil_2
    | apply Forall_cons_2
    | apply Forall_app_2
    | (split; simpl; tauto)
    | (simpl; tauto) ].

Lemma quiet_inbound (effs : list Effect) : Forall quiet (map Inbound effs).
Proof. induction effs; constructor; auto. split; simpl; tauto. Qed.

Lemma send_frames_quiet (rate : Z) (fframes : list Frame.t) (d : Duration) :
  Forall quiet (send_frames rate d fframes).2.
Proof.
  revert d. induction fframes as [|f rest IH]; intros d; simpl; [constructor |].
  specialize (IH (dur_add d (ratio (Frame.nb_samples f) rate))).
  destruct (send_frames rate _ rest) as [dn evs]. simpl in *.
  repeat constructor; simpl; auto.
Qed.

Lemma quiet_no_track_set (evs : list Event) :
  Forall quiet evs -> Forall (fun e => ~ is_track_set e) evs.
Proof. intros H. eapply Forall_impl; [exact H |]. intros e [He _]. exact He. Qed.

Section Phases.
Variable fromPlanar : Z -> Z.
Variable sidx : nat.

Lemma read_more_silent (s s1 : DState) (ev : list Event) (n : Next) :
  read_more s = (s1, ev, n) -> Forall quiet ev.
Proof.
  unfold read_more. destruct (read (inStream s)) as [[rd ins] effs].
  destruct rd; intros [= <- <- <-];
    rewrite ?Forall_app; repeat split; auto using quiet_inbound;
    repeat constructor; simpl; tauto.
Qed.

Lemma filter_and_send_quiet (it : Iter) (s s1 : DState) (ev : list Event) (n : Next) :
  filter_and_send sidx it s = (s1, ev, n) ->
  Forall quiet ev /\ track s1 = track s /\ buffersrc_ctx s1 = buffersrc_ctx s.
Proof.
  unfold filter_and_send.
  destruct (0 <=? buffersrc_ctx s)%Z; [| intros [= <- <- <-]; auto].
  destruct (filtered it) as [fframes | e]; [| intros [= <- <- <-]; auto].
  destruct (table s !! sidx) as [x |]; [| intros [= <- <- <-]; auto].
  pose proof (send_frames_quiet (sampleRate (track s))
                fframes (match duration x with DFalse => DNum 0 | d => d end)) as Hq.
  destruct (duration x);
    destruct (send_frames (sampleRate (track s)) _ fframes) as [d2 ev2];
    destruct (read_eof it); intros [= <- <- <-]; simpl in *;
    (split; [forall_events | auto]).
Qed.

(** Once a graph is built, no turn writes the track again. *)
Lemma turn_graph_built (it : Iter) (s s1 : DState) (ev : list Event) (n : Next) :
  (0 <= buffersrc_ctx s)%Z ->
  turn fromPlanar sidx it s = (s1, ev, n) ->
  Forall (fun e => ~ is_track_set e) ev
  /\ track s1 = track s /\ buffersrc_ctx s1 = buffersrc_ctx s.
Proof.
  intros Hctx. unfold turn.
  assert (Hprep : forall frames,
            prepare_filter fromPlanar it frames s = (s, [], Continue)).
  { intros frames. unfold prepare_filter. destruct frames; [reflexivity |].
    destruct (buffersrc_ctx s <? 0)%Z eqn:H; [apply Z.ltb_lt in H; lia | reflexivity]. }
  assert (Hdecode : decode_and_send fromPlanar sidx it s = (s1, ev, n) ->
            Forall (fun e => ~ is_track_set e) ev
            /\ track s1 = track s /\ buffersrc_ctx s1 = buffersrc_ctx s).
  { unfold decode_and_send.
    destruct (decoded it) as [frames | e]; [| intros [= <- <- <-]; auto].
    rewrite Hprep.
    destruct (filter_and_send sidx it s) as [[sb evb] nb] eqn:Hfs.
    apply filter_and_send_quiet in Hfs as (Hq & Ht & Hc).
    apply quiet_no_track_set in Hq.
    destruct nb; [destruct (read_eof it) | | | |]; intros [= <- <- <-]; simpl;
      (split; [forall_events | auto]). }
  destruct (packets it), (read_eof it); try exact Hdecode.
  intros H. split; [eapply quiet_no_track_set, read_more_silent; eauto |].
  apply read_more_quiet in H. tauto.
Qed.

Lemma run_graph_built (script : list Iter) (s : DState) :
  (0 <= buffersrc_ctx s)%Z ->
  Forall (fun e => ~ is_track_set e) (run fromPlanar sidx script s).1.2
  /\ track (run fromPlanar sidx script s).1.1 = track s.
Proof.
  revert s. induction script as [|it script IH]; intros s Hctx; simpl; [auto |].
  destruct (turn fromPlanar sidx it s) as [[s1 ev1] n] eqn:Hturn.
  destruct (turn_graph_built it s s1 ev1 n Hctx Hturn) as (Hq & Ht & Hc).
  assert (Hctx1 : (0 <= buffersrc_ctx s1)%Z) by lia.
  specialize (IH s1 Hctx1).
  destruct n; simpl; auto;
    destruct (run fromPlanar sidx script s1) as [[s2 ev2] e]; simpl in *;
    destruct IH as [IH1 IH2]; (split; [| congruence]);
    rewrite Forall_app; split; auto; constructor; simpl; auto.
Qed.

(** A turn taken while no graph is built: either it decodes no frame and
    leaves the track alone, or it sets the track from the first frame
    and builds the graph, right after the decode. *)
Lemma turn_no_graph (it : Iter) (s s1 : DState) (ev : list Event) (n : Next) :
  (buffersrc_ctx s < 0)%Z ->
  valid_handles it ->
  turn fromPlanar sidx it s = (s1, ev, n) ->
  (Forall quiet ev /\ track s1 = track s /\ buffersrc_ctx s1 = buffersrc_ctx s)
  \/ exists f0 fs post,
       ev = Decoded (f0 :: fs) :: graph_events fromPlanar f0 ++ post
       /\ Forall (fun e => ~ is_track_set e) post
       /\ track s1 = track_of fromPlanar f0
       /\ ((exists e, n = Fail e /\ post = []) \/ (0 <= buffersrc_ctx s1)%Z).
Proof.
  intros Hctx Hvalid. unfold turn.
  assert (Hltb : (buffersrc_ctx s <? 0)%Z = true) by (apply Z.ltb_lt; exact Hctx).
  assert (Hleb : (0 <=? buffersrc_ctx s)%Z = false) by (apply Z.leb_gt; exact Hctx).
  assert (Hdecode : decode_and_send fromPlanar sidx it s = (s1, ev, n) ->
            (Forall quiet ev /\ track s1 = track s
             /\ buffersrc_ctx s1 = buffersrc_ctx s)
            \/ exists f0 fs post,
                 ev = Decoded (f0 :: fs) :: graph_events fromPlanar f0 ++ post
                 /\ Forall (fun e => ~ is_track_set e) post
                 /\ track s1 = track_of fromPlanar f0
                 /\ ((exists e, n = Fail e /\ post = [])
                     \/ (0 <= buffersrc_ctx s1)%Z)).
  { unfold decode_and_send.
    destruct (decoded it) as [[|f0 fs] | e].
    - unfold prepare_filter, filter_and_send. rewrite Hleb.
      destruct (read_eof it); intros [= <- <- <-]; left;
        (split; [forall_events | auto]).
    - unfold prepare_filter. rewrite Hltb.
      destruct (graph it) as [g | e] eqn:Hg.
      + pose proof (Hvalid g Hg) as Hg0.
        destruct (filter_and_send sidx it _) as [[sb evb] nb] eqn:Hfs.
        apply filter_and_send_quiet in Hfs as (Hq & Ht & Hc).
        apply quiet_no_track_set in Hq. simpl in Ht, Hc.
        destruct nb; [destruct (read_eof it) | | | |]; intros [= <- <- <-]; right;
          exists f0, fs; eexists;
          (split; [simpl; reflexivity |]);
          (split; [forall_events |]);
          (split; [exact Ht |]); right; rewrite Hc; exact Hg0.
      + intros [= <- <- <-]. right. exists f0, fs, [].
        repeat split; auto. left. eauto.
    - intros [= <- <- <-]. left. repeat split; auto. }
  destruct (packets it), (read_eof it); try exact Hdecode.
  intros H. left. split; [eapply read_more_silent; eauto |].
  apply read_more_quiet in H. tauto.
Qed.

(** While no decode returns a frame, no graph is built and neither the
    status table nor the track is written. *)
Lemma turn_without_frames (it : Iter) (s s1 : DState) (ev : list Event) (n : Next) :
  (buffersrc_ctx s < 0)%Z ->
  no_frames it ->
  turn fromPlanar sidx it s = (s1, ev, n) ->
  table s1 = table s /\ buffersrc_ctx s1 = buffersrc_ctx s /\ track s1 = track s.
Proof.
  intros Hctx Hno. unfold turn.
  assert (Hleb : (0 <=? buffersrc_ctx s)%Z = false) by (apply Z.leb_gt; exact Hctx).
  assert (Hdecode : decode_and_send fromPlanar sidx it s = (s1, ev, n) ->
            table s1 = table s /\ buffersrc_ctx s1 = buffersrc_ctx s
            /\ track s1 = track s).
  { unfold decode_and_send.
    destruct (decoded it) as [frames | e] eqn:Hdec; [| intros [= <- <- <-]; auto].
    rewrite (Hno frames Hdec).
    unfold prepare_filter, filter_and_send. rewrite Hleb.
    destruct (read_eof it); intros [= <- <- <-]; auto. }
  destruct (packets it), (read_eof it); try exact Hdecode.
  intros H. apply read_more_quiet in H. tauto.
Qed.

Lemma run_without_frames (script : list Iter) (s : DState) :
  (buffersrc_ctx s < 0)%Z ->
  Forall no_frames script ->
  table (run fromPlanar sidx script s).1.1 = table s
  /\ track (run fromPlanar sidx script s).1.1 = track s.
Proof.
  intros Hctx Hno. revert s Hctx.
  induction Hno as [|it script Hit _ IH]; intros s Hctx; simpl; [auto |].
  destruct (turn fromPlanar sidx it s) as [[s1 ev1] n] eqn:Hturn.
  destruct (turn_without_frames it s s1 ev1 n Hctx Hit Hturn) as (Ht & Hc & Htr).
  assert (Hctx1 : (buffersrc_ctx s1 < 0)%Z) by lia.
  specialize (IH s1 Hctx1).
  destruct n; simpl; auto;
    destruct (run fromPlanar sidx script s1) as [[s2 ev2] e]; simpl in *;
    destruct IH; split; congruence.
Qed.

End Phases.

End FormatFacts.

(** ** The first decode that returns frames *)

Module FormatLink.
Import Channel Decode Observe FormatView DecodeFacts FormatFacts.

Section Phases.
Variable fromPlanar : Z -> Z.
Variable sidx : nat.

(** A turn that gets no frame, taken while no graph is built, is quiet
    and leaves track and handles alone. *)
Lemma turn_idle (it : Iter) (s s1 : DState) (ev : list Event) (n : Next) :
  (buffersrc_ctx s < 0)%Z ->
  decodes_none it ->
  turn fromPlanar sidx it s = (s1, ev, n) ->
  Forall quiet ev /\ track s1 = track s /\ buffersrc_ctx s1 = buffersrc_ctx s.
Proof.
  intros Hctx Hno. unfold turn.
  assert (Hleb : (0 <=? buffersrc_ctx s)%Z = false) by (apply Z.leb_gt; exact Hctx).
  assert (Hdecode : decodes it ->
            decode_and_send fromPlanar sidx it s = (s1, ev, n) ->
            Forall quiet ev /\ track s1 = track s
            /\ buffersrc_ctx s1 = buffersrc_ctx s).
  { intros Hd. unfold decode_and_send.
    destruct (decoded it) as [frames | e] eqn:Hdec;
      [| intros [= <- <- <-]; repeat split; auto].
    rewrite (Hno Hd frames Hdec).
    unfold prepare_filter, filter_and_send. rewrite Hleb.
    destruct (read_eof it); intros [= <- <- <-];
      (split; [forall_events | auto]). }
  destruct (packets it) as [p |] eqn:Hp; [| destruct (read_eof it) eqn:He].
  - assert (Hd : decodes it) by (left; rewrite Hp; discriminate).
    destruct (read_eof it); apply Hdecode; exact Hd.
  - apply Hdecode. right. exact He.
  - intros H. split; [eapply read_more_silent; eauto |].
    apply read_more_quiet in H. tauto.
Qed.

Lemma run_idle (script : list Iter) (s : DState) :
  (buffersrc_ctx s < 0)%Z ->
  Forall decodes_none script ->
  let r := run fromPlanar sidx script s in
  Forall quiet r.1.2 /\ track r.1.1 = track s
  /\ buffersrc_ctx r.1.1 = buffersrc_ctx s.
Proof.
  intros Hctx Hno. revert s Hctx.
  induction Hno as [|it script Hit _ IH]; intros s Hctx; simpl.
  { repeat split; constructor. }
  destruct (turn fromPlanar sidx it s) as [[s1 ev1] n] eqn:Hturn.
  destruct (turn_idle it s s1 ev1 n Hctx Hit Hturn) as (Hq & Ht & Hc).
  assert (Hctx1 : (buffersrc_ctx s1 < 0)%Z) by lia.
  specialize (IH s1 Hctx1). cbn zeta in IH.
  destruct n; simpl; auto;
    destruct (run fromPlanar sidx script s1) as [[s2 ev2] e]; simpl in *;
    destruct IH as (I1 & I2 & I3);
    (split; [forall_events | split; congruence]).
Qed.

(** A run that is still running after the turns [before] goes on with
    the turns that follow. *)
Lemma run_app (before rest : list Iter) (s s1 : DState) (ev1 : list Event) :
  run fromPlanar sidx before s = (s1, ev1, Running) ->
  run fromPlanar sidx (before ++ rest) s
  = (let '(s2, ev2, e) := run fromPlanar sidx rest s1 in (s2, ev1 ++ ev2, e)).
Proof.
  revert s ev1. induction before as [|it before IH]; intros s ev1; simpl.
  { intros [= <- <-]. destruct (run fromPlanar sidx rest s) as [[s2 ev2] e].
    reflexivity. }
  destruct (turn fromPlanar sidx it s) as [[sa eva] n].
  destruct n; try discriminate.
  - destruct (run fromPlanar sidx before sa) as [[sb evb] eb] eqn:Hb.
    intros [= <- <- ->]. rewrite (IH sa evb Hb).
    destruct (run fromPlanar sidx rest sb) as [[s2 ev2] e].
    rewrite <- app_assoc. reflexivity.
  - destruct (run fromPlanar sidx before sa) as [[sb evb] eb] eqn:Hb.
    intros [= <- <- ->]. rewrite (IH sa evb Hb).
    destruct (run fromPlanar sidx rest sb) as [[s2 ev2] e].
    rewrite <- app_assoc. reflexivity.
Qed.

(** The turn whose decode returns frames while no graph is built: right
    after the decode it writes the track from the first frame and asks
    for the graph. *)
Lemma turn_first_frames (it : Iter) (s s1 : DState) (ev : list Event) (n : Next)
    (f0 : Frame.t) (fs : list Frame.t) :
  (buffersrc_ctx s < 0)%Z ->
  valid_handles it ->
  decodes it ->
  decoded it = Ok (f0 :: fs) ->
  turn fromPlanar sidx it s = (s1, ev, n) ->
  exists post,
    ev = Decoded (f0 :: fs) :: graph_events fromPlanar f0 ++ post
    /\ Forall (fun e => ~ is_track_set e) post
    /\ track s1 = track_of fromPlanar f0
    /\ ((exists e, n = Fail e /\ post = []) \/ (0 <= buffersrc_ctx s1)%Z).
Proof.
  intros Hctx Hvalid Hd Hdec Hturn.
  assert (Htl : exists tl, ev = Decoded (f0 :: fs) :: tl).
  { assert (Hgo : decode_and_send fromPlanar sidx it s = (s1, ev, n) ->
                  exists tl, ev = Decoded (f0 :: fs) :: tl).
    { unfold decode_and_send. rewrite Hdec.
      destruct (prepare_filter fromPlanar it (f0 :: fs) s) as [[sa eva] na].
      destruct na; try (intros [= <- <- <-]; eexists; reflexivity).
      destruct (filter_and_send sidx it sa) as [[sb evb] nb].
      destruct nb; [destruct (read_eof it) | | | |];
        intros [= <- <- <-]; eexists; reflexivity. }
    unfold turn in Hturn. destruct Hd as [Hd | Hd].
    - destruct (packets it); [| congruence].
      destruct (read_eof it); apply Hgo, Hturn.
    - rewrite Hd in Hturn. destruct (packets it); apply Hgo, Hturn. }
  destruct Htl as [tl Htl].
  destruct (turn_no_graph fromPlanar sidx it s s1 ev n Hctx Hvalid Hturn)
    as [(Hq & _) | (g0 & gs & post & Hev & Hpost & Ht & Hn)].
  - exfalso. rewrite Htl in Hq. apply Forall_cons in Hq as [[_ Hq] _].
    apply Hq. exact I.
  - rewrite Htl in Hev. injection Hev as <- <- Hev.
    exists post. rewrite Htl, Hev. auto.
Qed.

End Phases.

End FormatLink.

(** ** Claims about the decoding loop *)

Module DecodeClaims.
Import Channel Decode Observe FormatView DecodeFacts FormatFacts FormatLink Samples.

(** C8. Along any run of the decoding loop, the duration of the track's
    entry leaves [false] only for the number 0, and from then on every
    write of a number is at least the number it replaces: each filtered
    frame adds its sample count over the track's sample rate, which is not
    negative. *)
Theorem duration_progress (fromPlanar : Z -> Z) (sidx : nat) (script : list Iter)
    (s : DState) (x : Status) :
  table s !! sidx = Some x ->
  (buffersrc_ctx s < 0)%Z ->
  Forall sane_frames script ->
  progress_chain (duration x) (durations (run fromPlanar sidx script s).1.2).
Proof.
  intros Hx Hctx Hsane. apply run_progress; auto. left. exact Hctx.
Qed.

Lemma one_frame_script_sane : Forall sane_frames one_frame_script.
Proof.
  repeat constructor; simpl; intros frames f [= <-]; simpl;
    intros H; repeat (destruct H as [<- | H]; [simpl; lia |]); destruct H.
Qed.

Lemma duration_progress_witness :
  (table fresh_state !! 0 = Some (mkStatus "1-alice" DFalse true)
   /\ (buffersrc_ctx fresh_state < 0)%Z
   /\ Forall sane_frames one_frame_script)
  /\ durations (run (fun f => f) 0 one_frame_script fresh_state).1.2
     = [DNum 0; DNum (0 + ratio 960 48000); DTrue]
  /\ progress_chain DFalse (durations (run (fun f => f) 0 one_frame_script fresh_state).1.2).
Proof.
  assert (H1 : table fresh_state !! 0 = Some (mkStatus "1-alice" DFalse true))
    by reflexivity.
  assert (H2 : (buffersrc_ctx fresh_state < 0)%Z) by (simpl; lia).
  split; [split; [exact H1 | split; [exact H2 | exact one_frame_script_sane]] |].
  split; [reflexivity |].
  exact (duration_progress (fun f => f) 0 one_frame_script fresh_state _
           H1 H2 one_frame_script_sane).
Defined.

(** The two phases of a run that starts without a graph: quiet turns, then
    at most one decode that writes the track and builds the graph. *)
Lemma run_format_phases (fromPlanar : Z -> Z) (sidx : nat) (script : list Iter)
    (s : DState) :
  (buffersrc_ctx s < 0)%Z ->
  Forall valid_handles script ->
  let r := run fromPlanar sidx script s in
  (Forall quiet r.1.2 /\ track r.1.1 = track s)
  \/ exists pre f0 fs post,
       r.1.2 = pre ++ Decoded (f0 :: fs) :: graph_events fromPlanar f0 ++ post
       /\ Forall quiet pre
       /\ Forall (fun e => ~ is_track_set e) post
       /\ track r.1.1 = track_of fromPlanar f0.
Proof.
  intros Hctx Hvalid. revert s Hctx.
  induction Hvalid as [|it script Hit _ IH]; intros s Hctx; simpl.
  { left. split; [constructor | reflexivity]. }
  destruct (turn fromPlanar sidx it s) as [[s1 ev1] n] eqn:Hturn.
  destruct (turn_no_graph fromPlanar sidx it s s1 ev1 n Hctx Hit Hturn)
    as [(Hq & Ht & Hc) | (f0 & fs & post & -> & Hpost & Ht & Hn)].
  - assert (Hctx1 : (buffersrc_ctx s1 < 0)%Z) by lia.
    specialize (IH s1 Hctx1). simpl in IH.
    destruct n; try (left; split; [exact Hq | exact Ht]);
      destruct (run fromPlanar sidx script s1) as [[s2 ev2] e]; simpl in *;
      (destruct IH as [(Hq2 & Ht2) | (pre & g0 & gs & post & -> & Hpre & Hpost & Ht2)];
       [ left; split; [forall_events | congruence]
       | right ]).
    + exists (ev1 ++ pre), g0, gs, post.
      rewrite <- app_assoc. repeat split; auto. forall_events.
    + exists (ev1 ++ PullDone :: pre), g0, gs, post.
      rewrite <- app_assoc. repeat split; auto. forall_events.
  - right. destruct Hn as [(e & -> & ->) | Hctx1].
    { exists [], f0, fs, []. repeat split; auto. }
    pose proof (run_graph_built fromPlanar sidx script s1 Hctx1) as [Hq2 Ht2].
    destruct n.
    1,2: destruct (run fromPlanar sidx script s1) as [[s2 ev2] e]; simpl in *.
    + exists [], f0, fs, (post ++ ev2). simpl. rewrite <- ?app_assoc.
      repeat split; auto; try congruence. forall_events.
    + exists [], f0, fs, (post ++ PullDone :: ev2). simpl. rewrite <- ?app_assoc.
      repeat split; auto; try congruence. forall_events.
    + exists [], f0, fs, post. repeat split; auto.
    + exists [], f0, fs, post. repeat split; auto.
    + exists [], f0, fs, post. repeat split; auto.
Qed.

(** The run from the first turn whose decode returns frames, reached
    with no graph built. *)
Lemma run_first_frames (fromPlanar : Z -> Z) (sidx : nat) (it : Iter)
    (rest : list Iter) (s1 : DState) (f0 : Frame.t) (fs : list Frame.t) :
  (buffersrc_ctx s1 < 0)%Z ->
  valid_handles it ->
  decodes it ->
  decoded it = Ok (f0 :: fs) ->
  let r := run fromPlanar sidx (it :: rest) s1 in
  exists post,
    r.1.2 = Decoded (f0 :: fs) :: graph_events fromPlanar f0 ++ post
    /\ Forall (fun e => ~ is_track_set e) post
    /\ track r.1.1 = track_of fromPlanar f0.
Proof.
  intros Hctx Hvalid Hd Hdec. cbn [run].
  destruct (turn fromPlanar sidx it s1) as [[s2 ev2] n] eqn:Hturn.
  destruct (turn_first_frames fromPlanar sidx it s1 s2 ev2 n f0 fs
              Hctx Hvalid Hd Hdec Hturn)
    as (post & -> & Hpost & Ht & Hn).
  destruct Hn as [(e & -> & ->) | Hctx2].
  { exists []. repeat split; auto. }
  pose proof (run_graph_built fromPlanar sidx rest s2 Hctx2) as [Hq2 Ht2].
  destruct n.
  1,2: destruct (run fromPlanar sidx rest s2) as [[s3 ev3] e]; simpl in *.
  - exists (post ++ ev3). rewrite <- ?app_assoc.
    repeat split; auto; try congruence. forall_events.
  - exists (post ++ PullDone :: ev3). rewrite <- ?app_assoc.
    repeat split; auto; try congruence. forall_events.
  - exists post. repeat split; auto.
  - exists post. repeat split; auto.
  - exists post. repeat split; auto.
Qed.

(** C9. In a run of the decoding loop that starts without a graph, the
    track's format, sample rate and channel count are written at most
    once: not at all while no decode returns a frame, and otherwise right
    after the first decode that returns frames, from its first frame.  The
    graph is built in the same step, with the same sample rate and channel
    layout on both sides, the frame's own sample format as the source and
    its non-planar form, the track's format, as the destination; nothing
    after that writes the track or builds a graph.  Against the answers of
    libav: while the turns get no frame from a decode the track is left as
    it was; and when the loop reaches, after such turns, a turn whose
    decode returns frames, that turn writes the track from the first of
    them, whatever the turns after it bring. *)
Theorem format_set_once (fromPlanar : Z -> Z) (sidx : nat) (script : list Iter)
    (s : DState) :
  (buffersrc_ctx s < 0)%Z ->
  Forall valid_handles script ->
  let r := run fromPlanar sidx script s in
  ((Forall quiet r.1.2 /\ track r.1.1 = track s)
   \/ exists pre f0 fs tr src dst post,
        r.1.2 = pre ++ Decoded (f0 :: fs) :: TrackSet tr :: InitFilterGraph src dst :: post
        /\ Forall quiet pre
        /\ Forall (fun e => ~ is_track_set e) post
        /\ track r.1.1 = tr
        /\ tr = mkTrack (fromPlanar (Frame.format f0)) (Frame.sample_rate f0)
                        (Frame.channels f0)
        /\ sample_rate src = sampleRate tr /\ sample_rate dst = sampleRate tr
        /\ channel_layout src = channelLayout (channels tr)
        /\ channel_layout dst = channel_layout src
        /\ sample_fmt src = Frame.format f0
        /\ sample_fmt dst = fromPlanar (sample_fmt src)
        /\ sample_fmt dst = format tr)
  /\ (Forall decodes_none script ->
      Forall quiet r.1.2 /\ track r.1.1 = track s)
  /\ (forall before it rest s1 ev1 f0 fs,
        script = before ++ it :: rest ->
        run fromPlanar sidx before s = (s1, ev1, Running) ->
        Forall decodes_none before ->
        decodes it ->
        decoded it = Ok (f0 :: fs) ->
        let tr := mkTrack (fromPlanar (Frame.format f0)) (Frame.sample_rate f0)
                          (Frame.channels f0) in
        let layout := channelLayout (Frame.channels f0) in
        exists post,
          r.1.2 = ev1 ++ Decoded (f0 :: fs) :: TrackSet tr
                    :: InitFilterGraph
                         (mkFilterIO (Frame.sample_rate f0) (Frame.format f0) layout)
                         (mkFilterIO (Frame.sample_rate f0)
                                     (fromPlanar (Frame.format f0)) layout)
                    :: post
          /\ Forall quiet ev1
          /\ Forall (fun e => ~ is_track_set e) post
          /\ track s1 = track s
          /\ track r.1.1 = tr).
Proof.
  intros Hctx Hvalid r. split; [| split].
  - destruct (run_format_phases fromPlanar sidx script s Hctx Hvalid)
      as [H | (pre & f0 & fs & post & Hev & Hpre & Hpost & Ht)].
    + left. exact H.
    + right. exists pre, f0, fs. do 3 eexists. exists post.
      split; [exact Hev |]. repeat split; auto.
  - intros Hno.
    destruct (run_idle fromPlanar sidx script s Hctx Hno) as (H1 & H2 & _). auto.
  - intros before it rest s1 ev1 f0 fs Hscript Hrun Hno Hd Hdec tr layout.
    subst r. rewrite Hscript in Hvalid |- *.
    apply Forall_app in Hvalid as [_ Hvalid].
    apply Forall_cons in Hvalid as [Hit _].
    pose proof (run_idle fromPlanar sidx before s Hctx Hno) as (I1 & I2 & I3).
    rewrite Hrun in I1, I2, I3. cbn [fst snd] in I1, I2, I3.
    assert (Hctx1 : (buffersrc_ctx s1 < 0)%Z) by lia.
    rewrite (run_app fromPlanar sidx before (it :: rest) s s1 ev1 Hrun).
    destruct (run_first_frames fromPlanar sidx it rest s1 f0 fs Hctx1 Hit Hd Hdec)
      as (post & Hev & Hpost & Ht).
    destruct (run fromPlanar sidx (it :: rest) s1) as [[s2 ev2] e].
    cbn [fst snd] in *. exists post. subst ev2.
    split; [reflexivity |]. repeat split; auto.
Qed.

Lemma one_frame_script_handles : Forall valid_handles one_frame_script.
Proof. repeat constructor; intros g [= <-]; simpl; lia. Qed.

(** libav's first answer has one frame of format 8 at 48000 Hz with two
    channels: the track is written from it. *)
Lemma format_set_once_witness :
  ((buffersrc_ctx fresh_state < 0)%Z /\ Forall valid_handles one_frame_script)
  /\ track (run (fun f => f) 0 one_frame_script fresh_state).1.1
     = mkTrack 8 48000 2.
Proof.
  assert (H : (buffersrc_ctx fresh_state < 0)%Z) by (simpl; lia).
  split; [split; [exact H | exact one_frame_script_handles] |].
  destruct (proj2 (proj2 (format_set_once (fun f => f) 0 one_frame_script fresh_state
                            H one_frame_script_handles))
              [] (mkIter false (Some []) (Ok [frame48k]) (Ok (1, 2, 3)%Z)
                         (Ok [frame48k]))
              [mkIter true None (Ok []) (Ok (0, 0, 0)%Z) (Ok [])]
              fresh_state [] frame48k []
              eq_refl eq_refl (Forall_nil_2 _)
              ltac:(left; discriminate) eq_refl)
    as (post & _ & _ & _ & _ & Ht).
  exact Ht.
Defined.

End DecodeClaims.

(** ** Claims about one loader *)

Module LoaderClaims.
Import Channel Decode Observe Loader Samples HandshakeClaims.

(** C4, as the code has it.  A first message that is not the success
    marker is answered by a warning and nothing else: the handler leaves
    its variables and the whole status table as they were, and the loader
    goes on exactly as if the message had never come (same track fields,
    same table, same outcome), so neither this track nor another one is
    failed or marked by it. *)
Theorem invalid_first_message_only_warns (fromPlanar : Z -> Z) (tr : Track)
    (idx sidx : nat) (table : list Status) (env : Env) (data : MsgData) :
  is_ok_marker data = false ->
  let bad := mkEnv (data :: msgs env) (readyStateAt env) (libav env) in
  let r := loadTrack fromPlanar tr idx sidx table bad in
  let r0 := loadTrack fromPlanar tr idx sidx table env in
  onmessage idx sidx (initial_chan table) data = (initial_chan table, [ConsoleWarn idx])
  /\ events r = Socket (ConsoleWarn idx) :: events r0
  /\ final_track r = final_track r0
  /\ final_table r = final_table r0
  /\ settled r = settled r0.
Proof.
  intros Hd bad r r0.
  assert (Hw : onmessage idx sidx (initial_chan table) data
               = (initial_chan table, [ConsoleWarn idx])).
  { apply onmessage_invalid_first; [reflexivity | exact Hd]. }
  split; [exact Hw |].
  subst r r0 bad. unfold loadTrack. cbn [msgs readyStateAt libav deliver].
  rewrite Hw.
  destruct (deliver idx sidx (initial_chan table) (msgs env)) as [c ev0].
  destruct (prime _ _ _) as [[inS1 ev1] n1].
  destruct n1; simpl; auto;
    destruct (init_demuxer (libav env)), (init_decoder (libav env)); simpl; auto;
    destruct (run _ _ _ _) as [[s ev2] e]; simpl; auto.
Qed.

Lemma invalid_first_message_only_warns_witness :
  is_ok_marker (Text "nope") = false
  /\ settled (loadTrack (fun f => f) blank_track 1 0 one_entry garbage_first_env)
     = settled (loadTrack (fun f => f) blank_track 1 0 one_entry
                  (mkEnv (tail (msgs garbage_first_env))
                         (readyStateAt garbage_first_env) (libav garbage_first_env))).
Proof.
  assert (H : is_ok_marker (Text "nope") = false) by reflexivity.
  split; [exact H |].
  exact (proj2 (proj2 (proj2 (proj2
    (invalid_first_message_only_warns (fun f => f) blank_track 1 0 one_entry
       (mkEnv (tail (msgs garbage_first_env))
              (readyStateAt garbage_first_env) (libav garbage_first_env))
       (Text "nope") H))))).
Defined.

(** C4 as stated fails: the first message of this connection is not the
    marker, yet the loader is fulfilled and its entry ends as finished;
    the invalid message only shows as a warning. *)
Lemma invalid_first_message_track_finishes :
  let r := loadTrack (fun f => f) blank_track 1 0 one_entry garbage_first_env in
  settled r = Resolved
  /\ progress <$> final_table r !! 0 = Some Finished
  /\ In (Socket (ConsoleWarn 1)) (events r).
Proof. vm_compute. split; [reflexivity |]. split; [reflexivity |]. left. reflexivity. Qed.

(** Whatever libav answers, as long as no decode returns a frame: a track
    whose first chunk frame is the terminal one never has its entry
    written after the handshake, so the entry is never shown as finished. *)
Lemma empty_track_entry_untouched (fromPlanar : Z -> Z) (tr : Track) (idx : nat)
    (nm : string) (s0 s1 s2 s3 : byte) (rsAt : nat -> ReadyState) (lib : LibAV) :
  Forall no_frames (script lib) ->
  final_table (loadTrack fromPlanar tr idx 0 [mkStatus nm DFalse false]
                 (mkEnv [Text ok_marker; Binary [s0; s1; s2; s3]] rsAt lib))
  = [mkStatus nm DFalse true].
Proof.
  intros Hno. unfold loadTrack.
  cbn [msgs readyStateAt libav].
  change (deliver idx 0 (initial_chan [mkStatus nm DFalse false])
            [Text ok_marker; Binary [s0; s1; s2; s3]])
    with (mkChan false [Binary [s0; s1; s2; s3]] false [mkStatus nm DFalse true],
          [ConsoleLog idx; ShowStatus [mkStatus nm DFalse true]]).
  cbn [incoming status tag_states imap queue length prime].
  unfold read. cbn [sstate queue].
  rewrite ChannelFacts.pull_part_long.
  change (0 <? 1024 * 1024)%Z with true.
  destruct (wsClosed (rsAt 0)); cbn [app closes existsb orb];
    destruct (init_demuxer lib), (init_decoder lib); try reflexivity;
    match goal with
    | |- context [run fromPlanar 0 (script lib) ?s] =>
        pose proof (FormatFacts.run_without_frames fromPlanar 0 (script lib) s
                      ltac:(simpl; lia) Hno) as [Ht _];
        destruct (run fromPlanar 0 (script lib) s) as [[sf evf] ef]
    end; simpl in *; exact Ht.
Qed.

(** C2, on the code.  The first chunk frame of the track is the terminal
    one and libav, given the empty input, opens it and reports its end at
    the first read with no frame to flush.  The loader is fulfilled, but
    nothing ever writes the duration of its entry: the entry stays at
    [false], shown as not yet loading, and is never marked finished. *)
Theorem empty_track_never_finished (fromPlanar : Z -> Z) (tr : Track) (idx : nat)
    (nm : string) (s0 s1 s2 s3 : byte) (rsAt : nat -> ReadyState)
    (pk : option (list (list byte))) (g : result (Z * Z * Z))
    (fl : result (list Frame.t)) (more : list Iter) :
  let env :=
    mkEnv [Text ok_marker; Binary [s0; s1; s2; s3]] rsAt
          (mkLibAV (Ok ()) (Ok ()) (mkIter true pk (Ok []) g fl :: more)) in
  let r := loadTrack fromPlanar tr idx 0 [mkStatus nm DFalse false] env in
  settled r = Resolved
  /\ final_table r = [mkStatus nm DFalse true]
  /\ progress <$> final_table r !! 0 = Some NotLoading
  /\ final_track r = tr.
Proof.
  intros env r. subst r env. unfold loadTrack.
  cbn [msgs readyStateAt libav].
  change (deliver idx 0 (initial_chan [mkStatus nm DFalse false])
            [Text ok_marker; Binary [s0; s1; s2; s3]])
    with (mkChan false [Binary [s0; s1; s2; s3]] false [mkStatus nm DFalse true],
          [ConsoleLog idx; ShowStatus [mkStatus nm DFalse true]]).
  cbn [incoming status tag_states imap queue length prime].
  unfold read. cbn [sstate queue].
  rewrite ChannelFacts.pull_part_long.
  assert (Hturn : forall s,
            (0 <=? buffersrc_ctx s)%Z = false ->
            turn fromPlanar 0 (mkIter true pk (Ok []) g fl) s
            = (s, [Decoded []; StreamEnd], Closed)).
  { intros s Hs. unfold turn, decode_and_send, prepare_filter, filter_and_send.
    cbn [packets read_eof decoded]. rewrite Hs. destruct pk; reflexivity. }
  change (0 <? 1024 * 1024)%Z with true.
  destruct (wsClosed (rsAt 0)); cbn [app closes existsb orb];
    cbn [init_demuxer init_decoder script run];
    rewrite Hturn by reflexivity; repeat split; reflexivity.
Qed.

End LoaderClaims.

(** ** The scheduling loop *)

Module SchedulerFacts.
Import Scheduler.

Lemma each_replaced_app (l1 l2 : list Step) :
  Forall not_remove l1 -> each_replaced l2 -> each_replaced (l1 ++ l2).
Proof.
  intros H1 H2. induction H1 as [|s l1 Hs _ IH]; simpl; [exact H2 |].
  split; [| exact IH].
  unfold replaced_by_one. unfold not_remove in Hs.
  destruct (event s); tauto.
Qed.

Lemma each_replaced_quiet (l : list Step) : Forall not_remove l -> each_replaced l.
Proof.
  intros H. rewrite <- (app_nil_r l). apply each_replaced_app; simpl; auto.
Qed.

Lemma started_app (l1 l2 : list Step) : started (l1 ++ l2) = started l1 ++ started l2.
Proof. unfold started. apply flat_map_app. Qed.

Lemma in_delete (i : nat) (l : list Entry) (t x : Entry) :
  l !! i = Some t -> In x l -> x = t \/ In x (delete i l).
Proof.
  intros Hi Hx. rewrite <- (take_drop_middle l i t Hi) in Hx.
  rewrite delete_take_drop.
  apply in_app_or in Hx as [Hx | [Hx | Hx]]; auto using in_or_app.
Qed.

Lemma in_delete_inv (i : nat) (l : list Entry) (x : Entry) :
  In x (delete i l) -> In x l.
Proof.
  revert i. induction l as [|a l IH]; intros i; [destruct i; simpl; tauto |].
  destruct i as [|i]; simpl; [tauto |].
  intros [-> | H]; [left; reflexivity | right; eapply IH; eauto].
Qed.

Lemma length_delete_lookup (i : nat) (l : list Entry) (t : Entry) :
  l !! i = Some t -> S (length (delete i l)) = length l.
Proof.
  intros Hi. pose proof (lookup_lt_Some _ _ _ Hi) as Hlt.
  rewrite length_delete by eauto. lia.
Qed.

Section Loop.
Variable hc : option nat.
Variable settles : Entry -> Settle.

Local Abbreviation T := (threads hc).

Local Abbreviation bounded := (Scheduler.bounded hc).

Lemma threads_pos : 1 <= T.
Proof.
  unfold threads, availableParallelism. destruct hc as [[|n] |]; lia.
Qed.

(** The inner loop: it starts queued tracks in order, never beyond the
    bound, and stops with the queue empty or the array full. *)
Lemma enqueue_spec (tracks promises : list Entry) :
  length promises <= T ->
  let r := enqueue hc tracks promises in
  Forall bounded r.1.1
  /\ Forall not_remove r.1.1
  /\ length r.2 <= T
  /\ (r.1.2 = [] \/ length r.2 = T)
  /\ started r.1.1 ++ r.1.2 = tracks
  /\ r.2 = promises ++ started r.1.1.
Proof.
  revert promises. induction tracks as [|t rest IH]; intros promises Hlen; simpl.
  - rewrite app_nil_r.
    split; [constructor |]. split; [constructor |].
    split; [exact Hlen |]. split; [left; reflexivity |]. split; reflexivity.
  - destruct (decide (length promises < T)) as [Hlt | Hge].
    + assert (Hlen' : length (promises ++ [t]) <= T)
        by (rewrite length_app; simpl; lia).
      specialize (IH (promises ++ [t]) Hlen').
      destruct (enqueue hc rest (promises ++ [t])) as [[steps tr] pr].
      simpl in *. destruct IH as (H1 & H2 & H3 & H4 & H5 & H6).
      split; [constructor; [exact Hlen' | exact H1] |].
      split; [constructor; [exact I | exact H2] |].
      split; [exact H3 |]. split; [exact H4 |].
      split; [f_equal; exact H5 | rewrite H6, <- app_assoc; reflexivity].
    + simpl. rewrite app_nil_r.
      split; [constructor |]. split; [constructor |].
      split; [exact Hlen |]. split; [right; lia |]. split; reflexivity.
Qed.

Lemma enqueue_full (tracks promises : list Entry) :
  T <= length promises -> enqueue hc tracks promises = ([], tracks, promises).
Proof.
  intros H. destruct tracks as [|t rest]; simpl; [reflexivity |].
  destruct (decide (length promises < T)); [lia | reflexivity].
Qed.

(** With one place free, the inner loop starts exactly the head of the
    queue. *)
Lemma enqueue_one (t : Entry) (rest promises : list Entry) :
  S (length promises) = T ->
  enqueue hc (t :: rest) promises
  = ([mkStep (Start t) rest (promises ++ [t])], rest, promises ++ [t]).
Proof.
  intros H. simpl.
  destruct (decide (length promises < T)); [| lia].
  rewrite enqueue_full; [reflexivity |].
  rewrite length_app. simpl. lia.
Qed.

Lemma all_spec (picks : list nat) (promises awaited : list Entry) :
  length promises <= T ->
  let r := all settles picks promises awaited in
  Forall bounded r.1 /\ Forall not_remove r.1 /\ started r.1 = []
  /\ (r.2 = Returned -> forall t, In t awaited -> settles t = Fulfils)
  /\ (forall e, r.2 = Threw e ->
        exists t before,
          r.1 = before ++ [mkStep (Raise t e) [] promises]
          /\ settles t = Rejects e /\ In t awaited).
Proof.
  intros Hlen. revert awaited.
  assert (Hstop : forall aw : list Entry, forall res : Result,
            res <> Returned -> (forall e, res <> Threw e) ->
            Forall bounded [] /\ Forall not_remove [] /\ started [] = []
            /\ (res = Returned -> forall t, In t aw -> settles t = Fulfils)
            /\ (forall e, res = Threw e ->
                  exists t before,
                    [] = before ++ [mkStep (Raise t e) [] promises]
                    /\ settles t = Rejects e /\ In t aw)).
  { intros aw res H1 H2.
    split; [constructor |]. split; [constructor |]. split; [reflexivity |].
    split; [tauto |]. intros e He. destruct (H2 e He). }
  induction picks as [|i picks IH]; intros awaited; simpl.
  - destruct awaited; simpl.
    + split; [constructor |]. split; [constructor |]. split; [reflexivity |].
      split; [intros _ t [] | discriminate].
    + apply (Hstop (e :: awaited) Hangs); discriminate.
  - destruct awaited as [|a aw] eqn:Haw.
    { simpl. split; [constructor |]. split; [constructor |]. split; [reflexivity |].
      split; [intros _ t [] | discriminate]. }
    rewrite <- Haw. clear Haw a aw.
    destruct (awaited !! i) as [t |] eqn:Hi;
      [| apply (Hstop awaited Hangs); discriminate].
    destruct (settles t) as [| e] eqn:Ht.
    + specialize (IH (delete i awaited)).
      destruct (all settles picks promises (delete i awaited)) as [steps r].
      simpl in *. destruct IH as (H1 & H2 & H3 & H4 & H5).
      split; [constructor; [exact Hlen | exact H1] |].
      split; [constructor; [exact I | exact H2] |].
      split; [exact H3 |]. split.
      * intros Hr x Hx.
        destruct (in_delete i awaited t x Hi Hx) as [-> | Hd]; auto.
      * intros e He. destruct (H5 e He) as (t' & before & -> & Hs & Hin).
        exists t', (mkStep (Fulfilled t) [] promises :: before).
        split; [reflexivity |]. split; [exact Hs |].
        rewrite delete_take_drop in Hin.
        rewrite <- (take_drop_middle awaited i t Hi).
        apply in_app_or in Hin as [Hin | Hin]; apply in_or_app; simpl; auto.
    + simpl.
      split; [repeat constructor; exact Hlen |].
      split; [repeat constructor |]. split; [reflexivity |].
      split; [discriminate |].
      intros e' [= <-]. exists t, [].
      split; [reflexivity |]. split; [exact Ht |].
      apply list_elem_of_In, list_elem_of_lookup. eauto.
Qed.

(** Entered with one place free and a track queued, the loop starts
    exactly that track before it awaits the race. *)
Lemma loop_head (picks : list nat) (t : Entry) (q promises : list Entry) :
  S (length promises) = T ->
  exists rest,
    (loop hc settles picks (t :: q) promises).1
    = mkStep (Start t) q (promises ++ [t]) :: rest
    /\ match rest with
       | s2 :: _ => ~ is_start s2
       | [] => True
       end.
Proof.
  intros Hfree.
  destruct picks as [|i picks]; cbn [loop]; rewrite enqueue_one by exact Hfree.
  - exists []. split; [reflexivity | exact I].
  - destruct ((promises ++ [t]) !! i) as [x |]; [| exists []; split; [reflexivity | exact I]].
    destruct (settles x) as [| e].
    + destruct (loop hc settles picks q (delete i (promises ++ [t]))) as [steps2 r].
      eexists. split; [reflexivity |]. simpl. tauto.
    + eexists. split; [reflexivity |]. simpl. tauto.
Qed.

Lemma loop_spec (picks : list nat) (tracks promises : list Entry) :
  length promises <= T ->
  let r := loop hc settles picks tracks promises in
  Forall bounded r.1
  /\ each_replaced r.1
  /\ (exists queued, tracks = started r.1 ++ queued)
  /\ (r.2 = Returned ->
      started r.1 = tracks
      /\ forall t, In t (promises ++ tracks) -> settles t = Fulfils)
  /\ (forall e, r.2 = Threw e ->
        exists t before st,
          r.1 = before ++ [st] /\ event st = Raise t e
          /\ settles t = Rejects e /\ In t (promises ++ started r.1)).
Proof.
  revert tracks promises.
  assert (Hempty : forall picks promises, length promises <= T ->
            let r := loop hc settles picks [] promises in
            Forall bounded r.1
            /\ each_replaced r.1
            /\ (exists queued, [] = started r.1 ++ queued)
            /\ (r.2 = Returned ->
                started r.1 = []
                /\ forall t, In t (promises ++ []) -> settles t = Fulfils)
            /\ (forall e, r.2 = Threw e ->
                  exists t before st,
                    r.1 = before ++ [st] /\ event st = Raise t e
                    /\ settles t = Rejects e /\ In t (promises ++ started r.1))).
  { intros picks0 promises Hlen.
    assert (Hl : loop hc settles picks0 [] promises
                 = all settles picks0 promises promises)
      by (destruct picks0; reflexivity).
    rewrite Hl. clear Hl.
    destruct (all_spec picks0 promises promises Hlen) as (H1 & H2 & H3 & H4 & H5).
    split; [exact H1 |]. split; [apply each_replaced_quiet; exact H2 |].
    split; [exists []; rewrite H3; reflexivity |]. split.
    - intros Hr. split; [exact H3 |]. rewrite app_nil_r. apply H4. exact Hr.
    - intros e He. destruct (H5 e He) as (t & before & Hb & Hs & Hin).
      exists t, before, (mkStep (Raise t e) [] promises).
      split; [exact Hb |]. split; [reflexivity |]. split; [exact Hs |].
      apply in_or_app. left. exact Hin. }
  assert (Hhang : forall (tracks promises tracks1 promises1 : list Entry) steps1,
            Forall bounded steps1 -> Forall not_remove steps1 ->
            started steps1 ++ tracks1 = tracks ->
            Forall bounded steps1
            /\ each_replaced steps1
            /\ (exists queued, tracks = started steps1 ++ queued)
            /\ (Hangs = Returned ->
                started steps1 = tracks
                /\ forall t, In t (promises ++ tracks) -> settles t = Fulfils)
            /\ (forall e, Hangs = Threw e ->
                  exists t before st,
                    steps1 = before ++ [st] /\ event st = Raise t e
                    /\ settles t = Rejects e /\ In t (promises ++ started steps1))).
  { intros tracks promises tracks1 promises1 steps1 H1 H2 H5.
    split; [exact H1 |]. split; [apply each_replaced_quiet; exact H2 |].
    split; [exists tracks1; symmetry; exact H5 |].
    split; discriminate. }
  induction picks as [|i picks IH]; intros tracks promises Hlen.
  - destruct tracks as [|t q]; [apply Hempty; exact Hlen |].
    cbn [loop].
    pose proof (enqueue_spec (t :: q) promises Hlen) as Henq.
    destruct (enqueue hc (t :: q) promises) as [[steps1 tracks1] promises1].
    simpl in Henq. destruct Henq as (H1 & H2 & H3 & H4 & H5 & H6).
    apply (Hhang (t :: q) promises tracks1 promises1 steps1); assumption.
  - destruct tracks as [|t q]; [apply Hempty; exact Hlen |].
    cbn [loop].
    pose proof (enqueue_spec (t :: q) promises Hlen) as Henq.
    destruct (enqueue hc (t :: q) promises) as [[steps1 tracks1] promises1].
    simpl in Henq. destruct Henq as (H1 & H2 & H3 & H4 & H5 & H6).
    destruct (promises1 !! i) as [x |] eqn:Hi;
      [| apply (Hhang (t :: q) promises tracks1 promises1 steps1); assumption].
    assert (Hx : In x promises1)
      by (apply list_elem_of_In, list_elem_of_lookup; eauto).
    destruct (settles x) as [| e] eqn:Hsx.
    + pose proof (length_delete_lookup i promises1 x Hi) as Hdel.
      assert (Hlen2 : length (delete i promises1) <= T) by lia.
      specialize (IH tracks1 (delete i promises1) Hlen2).
      assert (Hhead : forall next queued1,
                tracks1 = next :: queued1 ->
                S (length (delete i promises1)) = T ->
                exists rest,
                  (loop hc settles picks tracks1 (delete i promises1)).1
                  = mkStep (Start next) queued1 (delete i promises1 ++ [next]) :: rest
                  /\ match rest with
                     | s2 :: _ => ~ is_start s2
                     | [] => True
                     end).
      { intros next queued1 ->. apply loop_head. }
      destruct (loop hc settles picks tracks1 (delete i promises1)) as [steps2 r].
      simpl in IH, Hhead. destruct IH as (I1 & I2 & (queued & I3) & I4 & I5).
      cbn [fst snd].
      split.
      { apply Forall_app_2; [exact H1 |]. constructor; [exact Hlen2 | exact I1]. }
      split.
      { apply each_replaced_app; [exact H2 |]. split; [| exact I2].
        unfold replaced_by_one. cbn [event tracks_after promises_after].
        destruct tracks1 as [|next queued1]; [exact I |].
        destruct H4 as [H4 | H4]; [discriminate |].
        destruct (Hhead next queued1 eq_refl) as (rest & Hrest & Hnot); [lia |].
        exists (mkStep (Start next) queued1 (delete i promises1 ++ [next])), rest.
        split; [exact Hrest |]. repeat split; auto. }
      split.
      { exists queued. rewrite started_app. simpl started.
        change (started (mkStep (Remove x) tracks1 (delete i promises1) :: steps2))
          with (started steps2).
        rewrite <- app_assoc, <- I3. symmetry. exact H5. }
      split.
      { intros Hr. destruct (I4 Hr) as [J1 J2].
        rewrite started_app.
        change (started (mkStep (Remove x) tracks1 (delete i promises1) :: steps2))
          with (started steps2).
        split; [rewrite J1; exact H5 |].
        intros y Hy.
        assert (Hy1 : In y (promises1 ++ tracks1)).
        { rewrite H6, <- app_assoc, H5. exact Hy. }
        apply in_app_or in Hy1 as [Hy1 | Hy1].
        - destruct (in_delete i promises1 x y Hi Hy1) as [-> | Hd]; [exact Hsx |].
          apply J2, in_or_app. left. exact Hd.
        - apply J2, in_or_app. right. exact Hy1. }
      { intros e He. destruct (I5 e He) as (y & before & st & -> & Hst & Hsy & Hin).
        exists y, (steps1 ++ mkStep (Remove x) tracks1 (delete i promises1) :: before), st.
        split; [rewrite <- app_assoc; reflexivity |].
        split; [exact Hst |]. split; [exact Hsy |].
        rewrite !started_app in *.
        change (started (mkStep (Remove x) tracks1 (delete i promises1) :: before ++ [st]))
          with (started (before ++ [st])).
        rewrite started_app.
        apply in_app_or in Hin as [Hin | Hin].
        - apply in_delete_inv in Hin. rewrite H6 in Hin.
          apply in_app_or in Hin as [Hin | Hin]; apply in_or_app; [left; exact Hin |].
          right. apply in_or_app. left. exact Hin.
        - apply in_or_app. right. apply in_or_app. right. exact Hin. }
    + cbn [fst snd].
      split.
      { apply Forall_app_2; [exact H1 |]. repeat constructor. exact H3. }
      split.
      { apply each_replaced_app; [exact H2 |].
        simpl. unfold replaced_by_one. simpl. tauto. }
      split.
      { exists tracks1. rewrite started_app. simpl. rewrite app_nil_r.
        symmetry. exact H5. }
      split; [discriminate |].
      intros e' [= <-].
      exists x, steps1, (mkStep (Raise x e) tracks1 promises1).
      split; [reflexivity |]. split; [reflexivity |]. split; [exact Hsx |].
      rewrite started_app. simpl. rewrite app_nil_r, <- H6. exact Hx.
Qed.

(** *** The steps against the arrays *)

Local Abbreviation lawful := (StepView.lawful hc settles).

Lemma lawful_app (tracks promises : list Entry) (l1 l2 : list Step) :
  lawful tracks promises l1 ->
  lawful (StepView.arrays_after tracks promises l1).1
         (StepView.arrays_after tracks promises l1).2 l2 ->
  lawful tracks promises (l1 ++ l2).
Proof.
  revert tracks promises. induction l1 as [|s l1 IH]; intros tracks promises;
    simpl; [auto |].
  intros [Hs Hl] H2. split; [exact Hs |]. apply IH; assumption.
Qed.

Lemma arrays_after_app (tracks promises : list Entry) (l1 l2 : list Step) :
  StepView.arrays_after tracks promises (l1 ++ l2)
  = StepView.arrays_after (StepView.arrays_after tracks promises l1).1
      (StepView.arrays_after tracks promises l1).2 l2.
Proof.
  unfold StepView.arrays_after. rewrite fold_left_app.
  destruct (fold_left _ l1 (tracks, promises)). reflexivity.
Qed.

(** The inner loop makes only starts, each from the arrays as they are,
    and ends with the arrays it returns. *)
Lemma enqueue_lawful (tracks promises : list Entry) :
  let r := enqueue hc tracks promises in
  lawful tracks promises r.1.1
  /\ StepView.arrays_after tracks promises r.1.1 = (r.1.2, r.2)
  /\ map event r.1.1 = map Start (started r.1.1).
Proof.
  revert promises. induction tracks as [|t rest IH]; intros promises; simpl.
  { auto. }
  destruct (decide (length promises < T)) as [Hlt | Hge]; [| simpl; auto].
  specialize (IH (promises ++ [t])).
  destruct (enqueue hc rest (promises ++ [t])) as [[steps tr] pr].
  cbn [fst snd] in *. destruct IH as (H1 & H2 & H3).
  split; [| split].
  - simpl. split; [| exact H1]. unfold StepView.lawful_step. simpl. auto.
  - exact H2.
  - simpl. f_equal. exact H3.
Qed.

Lemma all_lawful (picks : list nat) (promises awaited : list Entry) :
  (forall t, In t awaited -> In t promises) ->
  lawful [] promises (all settles picks promises awaited).1.
Proof.
  revert awaited. induction picks as [|i picks IH]; intros awaited Hsub.
  { destruct awaited; exact I. }
  destruct awaited as [|a aw] eqn:Haw; [exact I |].
  rewrite <- Haw in *. clear Haw a aw.
  assert (Hu : (all settles (i :: picks) promises awaited).1
               = match awaited !! i with
                 | None => []
                 | Some t =>
                     match settles t with
                     | Rejects e => [mkStep (Raise t e) [] promises]
                     | Fulfils =>
                         mkStep (Fulfilled t) [] promises
                           :: (all settles picks promises (delete i awaited)).1
                     end
                 end).
  { destruct awaited; [reflexivity |]. cbn [all].
    destruct (_ !! i) as [t |]; [| reflexivity].
    destruct (settles t); [| reflexivity].
    destruct (all settles picks promises _). reflexivity. }
  rewrite Hu. destruct (awaited !! i) as [t |] eqn:Hi; [| exact I].
  assert (Hin : In t promises)
    by (apply Hsub, list_elem_of_In, list_elem_of_lookup; eauto).
  destruct (settles t) as [| e] eqn:Ht.
  - split.
    + unfold StepView.lawful_step. simpl. auto.
    + simpl. apply IH. intros x Hx. apply Hsub. eapply in_delete_inv; eauto.
  - split; [| exact I]. unfold StepView.lawful_step. simpl. auto 6.
Qed.

(** The loop begins with the starts of its inner loop. *)
Lemma loop_begins (picks : list nat) (t : Entry) (q promises : list Entry) :
  exists more,
    (loop hc settles picks (t :: q) promises).1
    = (enqueue hc (t :: q) promises).1.1 ++ more.
Proof.
  destruct picks as [|i picks]; cbn [loop];
    destruct (enqueue hc (t :: q) promises) as [[steps1 tracks1] promises1];
    cbn [fst snd].
  - exists []. rewrite app_nil_r. reflexivity.
  - destruct (promises1 !! i) as [x |];
      [| exists []; rewrite app_nil_r; reflexivity].
    destruct (settles x) as [| e].
    + destruct (loop hc settles picks tracks1 (delete i promises1)) as [steps2 r].
      eexists. reflexivity.
    + eexists. reflexivity.
Qed.

Lemma loop_lawful (picks : list nat) (tracks promises : list Entry) :
  length promises <= T ->
  lawful tracks promises (loop hc settles picks tracks promises).1.
Proof.
  revert tracks promises.
  assert (Hempty : forall picks promises,
            lawful [] promises (loop hc settles picks [] promises).1).
  { intros ps promises.
    assert (Hl : loop hc settles ps [] promises = all settles ps promises promises)
      by (destruct ps; reflexivity).
    rewrite Hl. apply all_lawful. auto. }
  induction picks as [|i picks IH]; intros tracks promises Hlen.
  - destruct tracks as [|t q]; [apply Hempty |].
    cbn [loop]. pose proof (enqueue_lawful (t :: q) promises) as (H1 & _).
    destruct (enqueue hc (t :: q) promises) as [[steps1 tracks1] promises1].
    exact H1.
  - destruct tracks as [|t q]; [apply Hempty |].
    cbn [loop].
    pose proof (enqueue_lawful (t :: q) promises) as (L1 & L2 & _).
    pose proof (enqueue_spec (t :: q) promises Hlen) as (_ & _ & H3 & H4 & _).
    destruct (enqueue hc (t :: q) promises) as [[steps1 tracks1] promises1].
    cbn [fst snd] in *.
    destruct (promises1 !! i) as [x |] eqn:Hi; [| exact L1].
    assert (Hx : In x promises1)
      by (apply list_elem_of_In, list_elem_of_lookup; eauto).
    destruct (settles x) as [| e] eqn:Hsx.
    + pose proof (length_delete_lookup i promises1 x Hi) as Hdel.
      assert (Hlen2 : length (delete i promises1) <= T) by lia.
      specialize (IH tracks1 (delete i promises1) Hlen2).
      destruct (loop hc settles picks tracks1 (delete i promises1)) as [steps2 r].
      cbn [fst snd] in *.
      apply lawful_app; [exact L1 |]. rewrite L2. cbn [fst snd].
      split; [| exact IH].
      unfold StepView.lawful_step. cbn [event tracks_after promises_after].
      split; [exact H4 |]. split; [reflexivity |]. split; [exact Hsx |].
      exists i. auto.
    + cbn [fst snd].
      apply lawful_app; [exact L1 |]. rewrite L2. cbn [fst snd].
      split; [| exact I].
      unfold StepView.lawful_step. cbn [event tracks_after promises_after].
      auto 6.
Qed.

(** A run begins by starting the tracks at the head of the list, as
    many as the bound allows. *)
Lemma schedule_begins (picks : list nat) (tracks : list Entry) :
  map event (take (Nat.min T (length tracks)) (schedule hc settles picks tracks).1)
  = map Start (take (Nat.min T (length tracks)) tracks).
Proof.
  unfold schedule. destruct tracks as [|t q].
  { rewrite Nat.min_0_r. reflexivity. }
  destruct (loop_begins picks t q []) as [more ->].
  assert (Hlen : length (@nil Entry) <= T) by (simpl; lia).
  pose proof (enqueue_spec (t :: q) [] Hlen) as (_ & _ & H3 & H4 & H5 & H6).
  pose proof (enqueue_lawful (t :: q) []) as (_ & _ & L3).
  destruct (enqueue hc (t :: q) []) as [[steps1 tracks1] promises1].
  cbn [fst snd app] in *. subst promises1.
  assert (Hn : length steps1 = length (started steps1)).
  { rewrite <- (length_map event steps1), L3, length_map. reflexivity. }
  assert (Hk : Nat.min T (length (t :: q)) = length steps1).
  { rewrite <- H5, length_app, Hn.
    destruct H4 as [-> | H4]; simpl; lia. }
  rewrite Hk, take_app_length, L3. f_equal.
  rewrite Hn, <- H5, take_app_length. reflexivity.
Qed.

End Loop.

End SchedulerFacts.

(** ** Claims about the scheduling loop *)

Module SchedulerClaims.
Import Scheduler SchedulerFacts Samples.

(** With room for two loaders and three tracks that all load, the third
    track starts when the race gives a finished loader; the loop awaits
    one more race before it waits for the rest. *)
Example three_tracks_two_workers :
  map event (schedule (Some 2) (fun _ => Fulfils) [1; 0; 0] [track1; track2; track3]).1
  = [Start track1; Start track2; Remove track2; Start track3;
     Remove track1; Fulfilled track3].
Proof. reflexivity. Qed.






End SchedulerClaims.

(** ** Tracks and status table of [loadData] *)

Module PrepareFacts.
Import Channel Scheduler Prepare Loader Samples MoreSamples.

Lemma make_tracks_length (idx : nat) (us : list User) :
  length (make_tracks idx us) = length us.
Proof. revert idx. induction us; intros idx; simpl; auto. Qed.

Lemma make_tracks_lookup (us : list User) (idx k : nat) (t : Entry) :
  make_tracks idx us !! k = Some t ->
  Scheduler.idx t = idx + k
  /\ exists u, us !! k = Some u /\ track t = track_name (idx + k) u.
Proof.
  revert idx k. induction us as [|u us IH]; intros idx k; simpl; [discriminate |].
  destruct k as [|k]; simpl.
  - intros [= <-]. simpl. rewrite Nat.add_0_r. eauto.
  - intros H. apply IH in H as (H1 & u' & H2 & H3).
    replace (idx + S k) with (S idx + k) by lia. eauto.
Qed.

Lemma make_tracks_idx (us : list User) (n : nat) :
  map idx (make_tracks n us) = seq n (length us).
Proof.
  revert n. induction us as [|u us IH]; intros n; simpl; [reflexivity |].
  f_equal. apply IH.
Qed.

Lemma aligned_lookup (us : list User) (t : Entry) :
  In t (make_tracks 1 us) ->
  1 <= idx t <= length us
  /\ initial_status (make_tracks 1 us) !! sidx_of t
     = Some (mkStatus (track t) DFalse false)
  /\ make_tracks 1 us !! sidx_of t = Some t.
Proof.
  intros Hin.
  apply list_elem_of_In, list_elem_of_lookup in Hin as [k Hk].
  pose proof (lookup_lt_Some _ _ _ Hk) as Hlt. rewrite make_tracks_length in Hlt.
  destruct (make_tracks_lookup us 1 k t Hk) as (Hidx & _).
  unfold sidx_of. rewrite Hidx. replace (1 + k - 1) with k by lia.
  split; [lia |]. split; [| exact Hk].
  unfold initial_status. rewrite list_lookup_fmap, Hk. reflexivity.
Qed.

(** The tracks are numbered 1, 2, ... in the order of the users, and the
    status table has, at the place [idx - 1] that each loader is given,
    the entry of that track: its name, not ready, no duration. *)
Theorem tracks_and_status_aligned (us : list User) :
  map idx (make_tracks 1 us) = seq 1 (length us)
  /\ length (initial_status (make_tracks 1 us)) = length us
  /\ forall t, In t (make_tracks 1 us) ->
       1 <= idx t <= length us
       /\ initial_status (make_tracks 1 us) !! sidx_of t
          = Some (mkStatus (track t) DFalse false)
       /\ make_tracks 1 us !! sidx_of t = Some t.
Proof.
  split; [apply make_tracks_idx |].
  split.
  { unfold initial_status. rewrite length_map. apply make_tracks_length. }
  apply aligned_lookup.
Qed.

Lemma tracks_and_status_aligned_witness :
  In (mkEntry 2 "2-bob_7") (make_tracks 1 two_users)
  /\ initial_status (make_tracks 1 two_users) !! 1
     = Some (mkStatus "2-bob_7" DFalse false).
Proof.
  assert (H : In (mkEntry 2 "2-bob_7") (make_tracks 1 two_users))
    by (right; left; reflexivity).
  split; [exact H |].
  exact (proj1 (proj2 (proj2 (proj2 (tracks_and_status_aligned two_users)) _ H))).
Defined.

(** *** Track names *)

Fixpoint no_dash (s : string) : Prop :=
  match s with
  | EmptyString => True
  | String c rest => c <> "-"%char /\ no_dash rest
  end.

Lemma digits_no_dash (d : Decimal.uint) : no_dash (NilEmpty.string_of_uint d).
Proof. induction d; simpl; (split; [discriminate | assumption]) || exact I. Qed.

Lemma dash_splits (a b r1 r2 : string) :
  no_dash a -> no_dash b ->
  a +:+ "-" +:+ r1 = b +:+ "-" +:+ r2 -> a = b.
Proof.
  revert b. induction a as [|c a IH]; intros b Ha Hb; destruct b as [|c' b]; simpl.
  - reflexivity.
  - intros [= Hc _]. destruct Hb as [Hb _]. congruence.
  - intros [= Hc _]. destruct Ha as [Ha _]. congruence.
  - intros [= -> H]. f_equal. apply IH; [apply Ha | apply Hb | exact H].
Qed.

Lemma number_to_string_inj (n m : nat) :
  number_to_string n = number_to_string m -> n = m.
Proof.
  unfold number_to_string. intros H.
  assert (Hd : Nat.to_uint n = Nat.to_uint m).
  { pose proof (NilEmpty.usu (Nat.to_uint n)) as Hn.
    pose proof (NilEmpty.usu (Nat.to_uint m)) as Hm.
    rewrite H in Hn. congruence. }
  rewrite <- (Unsigned.of_to n), <- (Unsigned.of_to m), Hd. reflexivity.
Qed.

Lemma track_name_inj (i j : nat) (u v : User) :
  track_name i u = track_name j v -> i = j.
Proof.
  unfold track_name. intros H.
  apply number_to_string_inj.
  eapply dash_splits; [apply digits_no_dash | apply digits_no_dash | exact H].
Qed.

(** Whatever the users are called, no two tracks of a recording get the
    same name: a name starts with the digits of the track's number and a
    dash, and digits hold no dash. *)
Theorem track_names_distinct (us : list User) :
  NoDup (map track (make_tracks 1 us)).
Proof.
  apply NoDup_alt. intros i j x Hi Hj.
  rewrite list_lookup_fmap in Hi, Hj.
  destruct (make_tracks 1 us !! i) as [ti |] eqn:Hti; [| discriminate].
  destruct (make_tracks 1 us !! j) as [tj |] eqn:Htj; [| discriminate].
  simpl in Hi, Hj.
  destruct (make_tracks_lookup us 1 i ti Hti) as (_ & u & _ & Hu).
  destruct (make_tracks_lookup us 1 j tj Htj) as (_ & v & _ & Hv).
  assert (H : track_name (1 + i) u = track_name (1 + j) v) by congruence.
  apply track_name_inj in H. lia.
Qed.

(** *** The handler on the status table *)

Lemma onmessage_table (idx sidx : nat) (c : Chan) (data : MsgData) (x : Status) :
  status c !! sidx = Some x ->
  let r := onmessage idx sidx c data in
  (forall e, ~ In (Uncaught e) r.2)
  /\ (first c = false -> status r.1 = status c /\ first r.1 = false)
  /\ (first c = true ->
      (first r.1 = true /\ status r.1 = status c)
      \/ (first r.1 = false /\ status r.1 = <[sidx := set_ready x]> (status c))).
Proof.
  intros Hx. unfold onmessage.
  destruct (first c) eqn:Hf.
  - destruct (is_ok_marker data).
    + rewrite Hx. simpl. split; [| split; [discriminate | auto]].
      intros e [H | [H | []]]; discriminate.
    + simpl. rewrite Hf. split; [| split; [discriminate | auto]].
      intros e [H | []]; discriminate.
  - simpl. split; [| split; [auto | discriminate]].
    intros e. destruct (incomingRes c); simpl; intros H;
      repeat (destruct H as [H | H]; try discriminate); exact H.
Qed.

(** The table under a handler: as it was while the first message is
    awaited, with the entry marked ready after. *)
Lemma deliver_table (idx sidx : nat) (table : list Status) (x : Status)
    (ms : list MsgData) (c : Chan) :
  table !! sidx = Some x ->
  (first c = true /\ status c = table)
  \/ (first c = false /\ status c = <[sidx := set_ready x]> table) ->
  let r := deliver idx sidx c ms in
  (forall e, ~ In (Uncaught e) r.2)
  /\ status r.1 = if first r.1 then table else <[sidx := set_ready x]> table.
Proof.
  intros Hx. revert c. induction ms as [|m rest IH]; intros c Hc; simpl.
  - split; [tauto |]. destruct Hc as [[-> ->] | [-> ->]]; reflexivity.
  - assert (Hlook : exists y, status c !! sidx = Some y
                              /\ (first c = true -> y = x)).
    { destruct Hc as [[Hf ->] | [Hf ->]].
      - exists x. auto.
      - exists (set_ready x). split; [| congruence].
        apply list_lookup_insert_eq. eapply lookup_lt_Some; eauto. }
    destruct Hlook as (y & Hy & Hyx).
    pose proof (onmessage_table idx sidx c m y Hy)
      as (H1 & H2 & H3).
    destruct (onmessage idx sidx c m) as [c1 ev1]. simpl in H1, H2, H3.
    assert (Hc1 : (first c1 = true /\ status c1 = table)
                  \/ (first c1 = false
                      /\ status c1 = <[sidx := set_ready x]> table)).
    { destruct Hc as [[Hf Hs] | [Hf Hs]].
      - destruct (H3 Hf) as [[Ha Hb] | [Ha Hb]]; [left | right];
          (split; [exact Ha |]); rewrite Hb, Hs; [reflexivity |].
        rewrite (Hyx Hf). reflexivity.
      - destruct (H2 Hf) as [Ha Hb]. right. split; [exact Hb | congruence]. }
    specialize (IH c1 Hc1).
    destruct (deliver idx sidx c1 rest) as [c2 ev2]. simpl in *.
    destruct IH as [IH1 IH2]. split; [| exact IH2].
    intros e He. apply in_app_or in He as [He | He];
      [exact (H1 e He) | exact (IH1 e He)].
Qed.

(** From a fresh handler whose entry exists, whatever the messages: the
    handler never throws, and the table is the one it started with, with
    this track's entry marked ready once the success marker has come (and
    not before). *)
Theorem handshake_marks_own_entry (idx sidx : nat) (table : list Status)
    (x : Status) (msgs : list MsgData) :
  table !! sidx = Some x ->
  let r := deliver idx sidx (initial_chan table) msgs in
  (forall e, ~ In (Uncaught e) r.2)
  /\ status r.1 = if first r.1 then table else <[sidx := set_ready x]> table.
Proof.
  intros Hx. apply deliver_table; [exact Hx |]. left. split; reflexivity.
Qed.

Lemma handshake_marks_own_entry_witness :
  [mkStatus "1-alice" DFalse false; mkStatus "2-bob" DFalse false] !! 1
  = Some (mkStatus "2-bob" DFalse false)
  /\ status (deliver 2 1
               (initial_chan [mkStatus "1-alice" DFalse false;
                              mkStatus "2-bob" DFalse false])
               [Text "x"; Text ok_marker; Text "y"]).1
     = [mkStatus "1-alice" DFalse false; mkStatus "2-bob" DFalse true].
Proof.
  assert (H : [mkStatus "1-alice" DFalse false; mkStatus "2-bob" DFalse false] !! 1
              = Some (mkStatus "2-bob" DFalse false)) by reflexivity.
  split; [exact H |].
  exact (proj2 (handshake_marks_own_entry 2 1 _ _ [Text "x"; Text ok_marker; Text "y"] H)).
Defined.

(** Under [loadData] every loader is given an index that the status table
    has: the handler of a track never throws, whatever the socket sends. *)
Theorem handler_never_throws (us : list User) (t : Entry) (msgs : list MsgData) :
  In t (make_tracks 1 us) ->
  forall e,
    ~ In (Uncaught e)
        (deliver (idx t) (sidx_of t)
           (initial_chan (initial_status (make_tracks 1 us))) msgs).2.
Proof.
  intros Hin.
  destruct (aligned_lookup us t Hin) as (_ & Hx & _).
  refine (proj1 (deliver_table (idx t) (sidx_of t) _ _ msgs _ Hx _)).
  left. split; reflexivity.
Qed.

Lemma handler_never_throws_witness :
  In (mkEntry 2 "2-bob_7") (make_tracks 1 two_users)
  /\ ~ In (Uncaught TypeError)
        (deliver 2 1 (initial_chan (initial_status (make_tracks 1 two_users)))
           [Text ok_marker; Binary data_frame]).2.
Proof.
  assert (H : In (mkEntry 2 "2-bob_7") (make_tracks 1 two_users))
    by (right; left; reflexivity).
  split; [exact H |].
  exact (handler_never_throws two_users (mkEntry 2 "2-bob_7")
           [Text ok_marker; Binary data_frame] H TypeError).
Defined.

End PrepareFacts.

(** ** A loader writes its own entry only *)

Module FrameFacts.
Import Channel Decode Loader Shared.

Lemma same_but_refl (sidx : nat) (t : list Status) : same_but sidx t t.
Proof. repeat split; eauto. Qed.

Lemma same_but_trans (sidx : nat) (t1 t2 t3 : list Status) :
  same_but sidx t1 t2 -> same_but sidx t2 t3 -> same_but sidx t1 t3.
Proof.
  intros (L1 & O1 & N1) (L2 & O2 & N2). split; [congruence |]. split.
  - intros j Hj. rewrite O2, O1; auto.
  - intros x Hx. destruct (N1 x Hx) as (x' & Hx' & Hn).
    destruct (N2 x' Hx') as (x'' & Hx'' & Hn'). exists x''. split; congruence.
Qed.

Lemma same_but_insert (sidx : nat) (t : list Status) (x y : Status) :
  t !! sidx = Some x -> name y = name x -> same_but sidx t (<[sidx := y]> t).
Proof.
  intros Hx Hn. split; [apply length_insert |]. split.
  - intros j Hj. apply list_lookup_insert_ne. congruence.
  - intros x0 Hx0. exists y. split; [| congruence].
    apply list_lookup_insert_eq. eapply lookup_lt_Some; eauto.
Qed.

Lemma onmessage_frame (idx sidx : nat) (c : Chan) (data : MsgData) :
  same_but sidx (status c) (status (onmessage idx sidx c data).1).
Proof.
  unfold onmessage. destruct (first c); [| apply same_but_refl].
  destruct (is_ok_marker data); [| apply same_but_refl].
  destruct (status c !! sidx) as [x |] eqn:Hx; simpl; [| apply same_but_refl].
  apply (same_but_insert sidx (status c) x); [exact Hx | reflexivity].
Qed.

Lemma deliver_frame (idx sidx : nat) (ms : list MsgData) (c : Chan) :
  same_but sidx (status c) (status (deliver idx sidx c ms).1).
Proof.
  revert c. induction ms as [|m rest IH]; intros c; simpl; [apply same_but_refl |].
  pose proof (onmessage_frame idx sidx c m) as H1.
  destruct (onmessage idx sidx c m) as [c1 ev1]. specialize (IH c1).
  destruct (deliver idx sidx c1 rest) as [c2 ev2]. simpl in *.
  eapply same_but_trans; eauto.
Qed.

Section Run.
Variable fromPlanar : Z -> Z.
Variable sidx : nat.

Lemma filter_and_send_frame (it : Iter) (s : DState) :
  same_but sidx (table s) (table (filter_and_send sidx it s).1.1).
Proof.
  unfold filter_and_send.
  destruct (0 <=? buffersrc_ctx s)%Z; [| apply same_but_refl].
  destruct (filtered it) as [fframes | e]; [| apply same_but_refl].
  destruct (table s !! sidx) as [x |] eqn:Hx; [| apply same_but_refl].
  destruct (duration x);
    destruct (send_frames (sampleRate (track s)) _ fframes) as [d2 ev2];
    destruct (read_eof it); simpl;
    apply (same_but_insert sidx (table s) x); auto.
Qed.

Lemma prepare_filter_table (it : Iter) (frames : list Frame.t) (s : DState) :
  table (prepare_filter fromPlanar it frames s).1.1 = table s.
Proof.
  unfold prepare_filter. destruct frames; [reflexivity |].
  destruct (buffersrc_ctx s <? 0)%Z; [| reflexivity].
  destruct (graph it); reflexivity.
Qed.

Lemma turn_frame (it : Iter) (s : DState) :
  same_but sidx (table s) (table (turn fromPlanar sidx it s).1.1).
Proof.
  unfold turn.
  assert (Hread : same_but sidx (table s) (table (read_more s).1.1)).
  { unfold read_more. destruct (read (inStream s)) as [[rd ins] effs].
    destruct rd; apply same_but_refl. }
  assert (Hdec : same_but sidx (table s)
                   (table (decode_and_send fromPlanar sidx it s).1.1)).
  { unfold decode_and_send.
    destruct (decoded it) as [frames | e]; [| apply same_but_refl].
    pose proof (prepare_filter_table it frames s) as Hp.
    destruct (prepare_filter fromPlanar it frames s) as [[s1 ev1] n1].
    simpl in Hp.
    pose proof (filter_and_send_frame it s1) as Hf. rewrite Hp in Hf.
    destruct n1; simpl; try (rewrite Hp; apply same_but_refl).
    destruct (filter_and_send sidx it s1) as [[s2 ev2] n2]. simpl in Hf.
    destruct n2; [destruct (read_eof it) | | | |]; exact Hf. }
  destruct (packets it), (read_eof it); assumption.
Qed.

Lemma run_frame (script : list Iter) (s : DState) :
  same_but sidx (table s) (table (run fromPlanar sidx script s).1.1).
Proof.
  revert s. induction script as [|it script IH]; intros s; simpl;
    [apply same_but_refl |].
  pose proof (turn_frame it s) as Ht.
  destruct (turn fromPlanar sidx it s) as [[s1 ev1] n]. simpl in Ht.
  specialize (IH s1).
  destruct n; try exact Ht;
    destruct (run fromPlanar sidx script s1) as [[s2 ev2] e]; simpl in *;
    eapply same_but_trans; eauto.
Qed.

End Run.

(** A loader, whatever its socket and libav do, leaves every entry of the
    status table other than its own as it was, never changes the length
    of the table, and keeps the name of its own entry. *)
Theorem loader_writes_own_entry_only (fromPlanar : Z -> Z) (tr : Track)
    (idx sidx : nat) (table : list Status) (env : Env) :
  same_but sidx table (final_table (loadTrack fromPlanar tr idx sidx table env)).
Proof.
  unfold loadTrack.
  pose proof (deliver_frame idx sidx (msgs env) (initial_chan table)) as Hd.
  destruct (deliver idx sidx (initial_chan table) (msgs env)) as [c ev0].
  simpl in Hd.
  destruct (prime _ _ _) as [[inS1 ev1] n1].
  destruct n1; simpl; try exact Hd;
    destruct (init_demuxer (libav env)), (init_decoder (libav env)); simpl;
    try exact Hd;
    match goal with
    | |- context [run fromPlanar sidx ?sc ?s0] =>
        pose proof (run_frame fromPlanar sidx sc s0) as Hr;
        destruct (run fromPlanar sidx sc s0) as [[sf evf] ef]
    end; simpl in *; eapply same_but_trans; eauto.
Qed.

End FrameFacts.

(** ** More on the reader *)

Module ReaderFacts.
Import Buffer BufferFacts Channel ChannelFacts ReaderView.

(** The three shapes of what a pull does. *)
Lemma pull_part_cases (part : MsgData) (rs : ReadyState) :
  (exists e, pull_part part rs = Throw e)
  \/ (exists b ack,
        part = Binary b /\ 4 < length b
        /\ pull_part part rs
           = Ok ((if wsClosed rs then [] else [SockSend ack]) ++ [Enqueue (drop 4 b)]))
  \/ (exists b ack,
        part = Binary b /\ length b <= 4
        /\ pull_part part rs
           = Ok (if wsClosed rs then [Close] else [SockSend ack; Close; SockClose])).
Proof.
  destruct part as [s | b]; [left; eexists; reflexivity |].
  destruct (le_lt_dec 4 (length b)) as [Hl | Hs].
  - destruct (getUint32_long b Hl) as (b0 & b1 & b2 & b3 & rest & -> & _).
    rewrite pull_part_long. destruct rest as [|r rest].
    + right. right. exists [b0; b1; b2; b3], [x00; x00; x00; x00; b0; b1; b2; b3].
      split; [reflexivity |]. split; [simpl; lia |].
      destruct (wsClosed rs); reflexivity.
    + right. left. eexists _, _. split; [reflexivity |]. split; [simpl; lia |].
      reflexivity.
  - destruct (wsClosed rs) eqn:Hrs.
    + right. right. exists b, []. split; [reflexivity |]. split; [lia |].
      rewrite pull_part_short_closed by (auto; lia). reflexivity.
    + left. exists RangeError. apply pull_part_short_open; auto.
Qed.

Lemma effects_of_cons (part : MsgData) (rs : ReadyState) (effs : list Effect)
    (log : PullLog) :
  effects_of ((part, rs, Ok effs) :: log) = effs ++ effects_of log.
Proof. reflexivity. Qed.

Lemma accepted_cons (part : MsgData) (rs : ReadyState) (effs : list Effect)
    (log : PullLog) :
  accepted ((part, rs, Ok effs) :: log) = (part, rs) :: accepted log.
Proof. reflexivity. Qed.

Lemma payload_of_data (b : list byte) (rs : ReadyState) :
  4 < length b -> payload_of (Binary b, rs) = [drop 4 b].
Proof. intros H. unfold payload_of. simpl. destruct (decide (4 < length b)); [reflexivity | lia]. Qed.

Lemma payload_of_end (b : list byte) (rs : ReadyState) :
  length b <= 4 -> payload_of (Binary b, rs) = [].
Proof. intros H. unfold payload_of. simpl. destruct (decide (4 < length b)); [lia | reflexivity]. Qed.

Lemma chunks_of_app (e1 e2 : list Effect) :
  chunks_of (e1 ++ e2) = chunks_of e1 ++ chunks_of e2.
Proof. unfold chunks_of. apply flat_map_app. Qed.

(** The reader hands on, in the order of arrival, exactly the payloads of
    the parts it accepted: no chunk is lost, repeated, reordered or made
    up, and the parts it processed are an initial stretch of the queue. *)
Theorem reader_keeps_order (n : nat) (queue : list (MsgData * ReadyState)) :
  let log := (pulls n queue).1 in
  chunks_of (effects_of log) = flat_map payload_of (accepted log)
  /\ exists rest, queue = map (fun e => e.1) log ++ rest.
Proof.
  revert queue. induction n as [|n IH]; intros queue; simpl.
  { split; [reflexivity | exists queue; reflexivity]. }
  destruct queue as [|[part rs] rest]; simpl.
  { split; [reflexivity | exists []; reflexivity]. }
  destruct (pull_part_cases part rs)
    as [[e He] | [(b & ack & -> & Hb & He) | (b & ack & -> & Hb & He)]];
    rewrite He.
  - simpl. split; [reflexivity | exists rest; reflexivity].
  - assert (Hc : closes ((if wsClosed rs then [] else [SockSend ack])
                           ++ [Enqueue (drop 4 b)]) = false)
      by (destruct (wsClosed rs); reflexivity).
    rewrite Hc. specialize (IH rest).
    destruct (pulls n rest) as [log fin]. simpl in IH. destruct IH as [IH1 [r IH2]].
    cbn [fst]. split.
    + rewrite effects_of_cons, chunks_of_app, IH1, accepted_cons.
      cbn [flat_map]. rewrite payload_of_data by exact Hb.
      destruct (wsClosed rs); reflexivity.
    + exists r. simpl. f_equal. exact IH2.
  - assert (Hc : closes (if wsClosed rs then [Close]
                         else [SockSend ack; Close; SockClose]) = true)
      by (destruct (wsClosed rs); reflexivity).
    rewrite Hc. cbn [fst]. split; [| exists rest; reflexivity].
    rewrite accepted_cons. cbn [flat_map accepted].
    rewrite payload_of_end by exact Hb.
    destruct (wsClosed rs); reflexivity.
Qed.

(** Whatever follows a part of at most four bytes is never processed: the
    run is the same as if the queue ended there. *)
Theorem nothing_after_terminal (n : nat) (pre post : list (MsgData * ReadyState))
    (b : list byte) (rs : ReadyState) :
  length b <= 4 ->
  pulls n (pre ++ (Binary b, rs) :: post) = pulls n (pre ++ [(Binary b, rs)]).
Proof.
  intros Hb. revert pre. induction n as [|n IH]; intros pre; [reflexivity |].
  destruct pre as [|[p r] pre]; cbn [app pulls].
  - destruct (pull_part_cases (Binary b) rs)
      as [[e He] | [(b' & ack & [= <-] & Hb' & He) | (b' & ack & [= <-] & _ & He)]];
      rewrite He; [reflexivity | lia |].
    destruct (wsClosed rs); reflexivity.
  - destruct (pull_part p r) as [effs | e]; [| reflexivity].
    destruct (closes effs); [reflexivity |]. rewrite IH. reflexivity.
Qed.

Lemma nothing_after_terminal_witness :
  length [x08; x00; x00; x00] <= 4
  /\ pulls 5 ([(Binary [x07; x00; x00; x00; x41], OPEN)]
                ++ (Binary [x08; x00; x00; x00], OPEN)
                :: [(Binary [x09; x00; x00; x00; x42], OPEN)])
     = pulls 5 ([(Binary [x07; x00; x00; x00; x41], OPEN)]
                  ++ [(Binary [x08; x00; x00; x00], OPEN)]).
Proof.
  assert (H : length [x08; x00; x00; x00] <= 4) by (simpl; lia).
  split; [exact H |].
  exact (nothing_after_terminal 5 [(Binary [x07; x00; x00; x00; x41], OPEN)]
           [(Binary [x09; x00; x00; x00; x42], OPEN)] [x08; x00; x00; x00] OPEN H).
Defined.

(** The reader never writes to a socket that is closing or closed: a part
    processed then is neither acknowledged nor answered by a close.  And
    over a whole run the stream is closed at most once, as the last thing
    but for the close of the socket: all the effects before are
    acknowledgements and chunks. *)
Theorem socket_discipline (n : nat) (queue : list (MsgData * ReadyState)) :
  let log := (pulls n queue).1 in
  (forall part rs effs e,
     In (part, rs, Ok effs) log -> wsClosed rs = true -> In e effs -> ~ on_socket e)
  /\ exists body tail,
       effects_of log = body ++ tail
       /\ Forall is_data body
       /\ (tail = [] \/ tail = [Close] \/ tail = [Close; SockClose]).
Proof.
  intros log. split.
  - intros part rs effs e Hin Hrs He.
    apply pulls_log_sound in Hin. symmetry in Hin.
    destruct (pull_part_cases part rs)
      as [[x Hx] | [(b & ack & -> & Hb & Hx) | (b & ack & -> & Hb & Hx)]];
      rewrite Hx in Hin; rewrite ?Hrs in Hin; try discriminate; injection Hin as <-;
      simpl in He; repeat (destruct He as [<- | He]; [simpl; tauto |]); destruct He.
  - subst log. revert queue. induction n as [|n IH]; intros queue; simpl.
    { exists [], []. repeat split; auto. }
    destruct queue as [|[part rs] rest]; simpl.
    { exists [], []. repeat split; auto. }
    destruct (pull_part_cases part rs)
      as [[e He] | [(b & ack & -> & Hb & He) | (b & ack & -> & Hb & He)]];
      rewrite He.
    + exists [], []. repeat split; auto.
    + assert (Hc : closes ((if wsClosed rs then [] else [SockSend ack])
                             ++ [Enqueue (drop 4 b)]) = false)
        by (destruct (wsClosed rs); reflexivity).
      rewrite Hc. specialize (IH rest).
      destruct (pulls n rest) as [log fin]. simpl in IH.
      destruct IH as (body & tail & Heq & Hbody & Htail).
      exists (((if wsClosed rs then [] else [SockSend ack])
                 ++ [Enqueue (drop 4 b)]) ++ body), tail.
      split; [cbn [fst]; rewrite effects_of_cons, Heq, app_assoc; reflexivity |].
      split; [| exact Htail].
      apply Forall_app_2; [| exact Hbody].
      destruct (wsClosed rs); repeat constructor.
    + assert (Hc : closes (if wsClosed rs then [Close]
                           else [SockSend ack; Close; SockClose]) = true)
        by (destruct (wsClosed rs); reflexivity).
      rewrite Hc. simpl. unfold effects_of. simpl. rewrite app_nil_r.
      destruct (wsClosed rs).
      * exists [], [Close]. repeat split; auto.
      * exists [SockSend ack], [Close; SockClose].
        split; [reflexivity |]. split; [repeat constructor | auto].
Qed.

Lemma socket_discipline_witness :
  (In (Binary [x07; x00; x00; x00; x41], CLOSING, Ok [Enqueue [x41]])
      (pulls 1 [(Binary [x07; x00; x00; x00; x41], CLOSING)]).1
   /\ wsClosed CLOSING = true /\ In (Enqueue [x41]) [Enqueue [x41]])
  /\ ~ on_socket (Enqueue [x41]).
Proof.
  assert (H1 : In (Binary [x07; x00; x00; x00; x41], CLOSING, Ok [Enqueue [x41]])
                 (pulls 1 [(Binary [x07; x00; x00; x00; x41], CLOSING)]).1)
    by (left; reflexivity).
  assert (H2 : wsClosed CLOSING = true) by reflexivity.
  assert (H3 : In (Enqueue [x41]) [Enqueue [x41]]) by (left; reflexivity).
  split; [repeat split; assumption |].
  exact (proj1 (socket_discipline 1 [(Binary [x07; x00; x00; x00; x41], CLOSING)])
           _ _ _ _ H1 H2 H3).
Defined.

End ReaderFacts.

(** ** The priming loop of [loadTrack] *)

Module PrimingFacts.
Import Channel Decode Loader ReaderView DeviceView ReaderFacts.

Lemma sends_inbound (effs : list Effect) : sends (map Inbound effs) = [].
Proof. induction effs; simpl; auto. Qed.

Lemma sends_app (e1 e2 : list Decode.Event) : sends (e1 ++ e2) = sends e1 ++ sends e2.
Proof. unfold sends. apply flat_map_app. Qed.

Lemma total_app (l1 l2 : list (option (list byte))) :
  total (l1 ++ l2) = (total l1 + total l2)%Z.
Proof. induction l1 as [|d l1 IH]; simpl; [reflexivity |]. rewrite IH. lia. Qed.

Lemma total_nonneg (l : list (option (list byte))) : (0 <= total l)%Z.
Proof. induction l as [|[v |] l IH]; simpl; lia. Qed.

(** What a read of an open stream with a part queued gives. *)
Lemma read_cases (part : MsgData) (rs : ReadyState)
    (rest : list (MsgData * ReadyState)) :
  let r := read (mkInStream ((part, rs) :: rest) SReadable) in
  (exists e, pull_part part rs = Throw e
             /\ r.1.1 = RReject e /\ r.2 = [])
  \/ (exists b, part = Binary b /\ 4 < length b
                /\ r.1.1 = RValue (drop 4 b)
                /\ r.1.2 = mkInStream rest SReadable)
  \/ (exists b, part = Binary b /\ length b <= 4
                /\ r.1.1 = RDone /\ r.1.2 = mkInStream rest SClosed).
Proof.
  unfold read. cbn [sstate queue].
  destruct (pull_part_cases part rs)
    as [[e He] | [(b & ack & -> & Hb & He) | (b & ack & -> & Hb & He)]];
    rewrite He.
  - left. exists e. auto.
  - right. left. exists b.
    destruct (wsClosed rs); simpl; unfold chunk_of; simpl; rewrite app_nil_r; auto.
  - right. right. exists b. destruct (wsClosed rs); simpl; auto.
Qed.

Lemma prime_spec (fuel : nat) (R : Z) (q : list (MsgData * ReadyState)) :
  length q < fuel ->
  let r := prime fuel R (mkInStream q SReadable) in
  (r.2 = Continue ->
     (R <= total (sends r.1.2))%Z /\ ~ In None (sends r.1.2))
  /\ (r.2 = Break ->
        (exists datas, sends r.1.2 = map Some datas ++ [None])
        /\ sstate r.1.1 = SClosed)
  /\ (r.2 = Stall -> queue r.1.1 = [] /\ sstate r.1.1 = SReadable)
  /\ (forall e, r.2 = Fail e ->
        exists part rs, In (part, rs) q /\ pull_part part rs = Throw e)
  /\ r.2 <> Closed
  /\ (forall pre v post,
        sends r.1.2 = pre ++ Some v :: post -> (total pre < R)%Z).
Proof.
  revert R q. induction fuel as [|fuel IH]; intros R q Hlen; [lia |].
  cbn [prime]. destruct (0 <? R)%Z eqn:HR.
  2:{ apply Z.ltb_ge in HR. simpl.
      split; [intros _; split; [lia | tauto] |].
      split; [discriminate |]. split; [discriminate |]. split; [discriminate |].
      split; [discriminate |]. intros pre v post H. destruct pre; discriminate. }
  apply Z.ltb_lt in HR.
  destruct q as [|[part rs] rest].
  { simpl. split; [discriminate |]. split; [discriminate |]. split; [auto |].
    split; [discriminate |]. split; [discriminate |].
    intros pre v post H. destruct pre; discriminate. }
  pose proof (read_cases part rs rest) as Hread. cbn zeta in Hread.
  destruct (read (mkInStream ((part, rs) :: rest) SReadable)) as [[rd s1] effs].
  cbn [fst snd] in Hread.
  destruct Hread as [(e & He & -> & ->) | [(b & -> & Hb & -> & ->) | (b & -> & Hb & -> & ->)]].
  - simpl. split; [discriminate |]. split; [discriminate |]. split; [discriminate |].
    split; [| split; [discriminate |]].
    + intros e' [= <-]. exists part, rs. split; [left; reflexivity | exact He].
    + intros pre v post H. destruct pre; discriminate.
  - assert (Hlen' : length rest < fuel) by (simpl in Hlen; lia).
    specialize (IH (R - Z.of_nat (length (drop 4 b)))%Z rest Hlen').
    destruct (prime fuel _ (mkInStream rest SReadable)) as [[s2 ev2] n].
    cbn [fst snd] in IH |- *.
    rewrite sends_app, sends_inbound. cbn [app sends flat_map].
    fold (sends ev2).
    destruct IH as (I1 & I2 & I3 & I4 & I5 & I6).
    split.
    { intros Hn. destruct (I1 Hn) as [Ha Hb']. split.
      - cbn [total fold_right size]. fold (total (sends ev2)). lia.
      - intros [H | H]; [discriminate | tauto]. }
    split.
    { intros Hn. destruct (I2 Hn) as [[datas Hd] Hs]. split; [| exact Hs].
      exists (drop 4 b :: datas). rewrite Hd. reflexivity. }
    split; [exact I3 |].
    split.
    { intros e Hn. destruct (I4 e Hn) as (p & r & Hin & Hp).
      exists p, r. split; [right; exact Hin | exact Hp]. }
    split; [exact I5 |].
    intros pre v post H. destruct pre as [|d pre].
    + simpl. lia.
    + injection H as <- H. apply I6 in H.
      cbn [total fold_right size]. fold (total pre). lia.
  - simpl. rewrite sends_app, sends_inbound. simpl.
    split; [discriminate |].
    split; [intros _; split; [exists []; reflexivity | reflexivity] |].
    split; [discriminate |]. split; [discriminate |]. split; [discriminate |].
    intros pre v post H. destruct pre as [|d [|d' pre]]; discriminate.
Qed.

(** Before the demuxer is opened [loadTrack] feeds the device chunk by
    chunk, each chunk only while less than 1 MiB has been sent: it goes on
    with at least 1 MiB sent and no [null], or, when the stream ends
    first, with [null] sent last; it waits only when the socket has
    delivered nothing more, and fails only when a pull threw. *)
Theorem priming_feeds_one_mebibyte (q : list (MsgData * ReadyState)) :
  let r := prime (S (length q)) (1024 * 1024) (mkInStream q SReadable) in
  (r.2 = Continue ->
     (1048576 <= total (sends r.1.2))%Z /\ ~ In None (sends r.1.2))
  /\ (r.2 = Break ->
        (exists datas, sends r.1.2 = map Some datas ++ [None])
        /\ sstate r.1.1 = SClosed)
  /\ (r.2 = Stall -> queue r.1.1 = [] /\ sstate r.1.1 = SReadable)
  /\ (forall e, r.2 = Fail e ->
        exists part rs, In (part, rs) q /\ pull_part part rs = Throw e)
  /\ (forall pre v post,
        sends r.1.2 = pre ++ Some v :: post -> (total pre < 1048576)%Z).
Proof.
  pose proof (prime_spec (S (length q)) (1024 * 1024) q (Nat.lt_succ_diag_r _))
    as (H1 & H2 & H3 & H4 & _ & H6).
  change (1024 * 1024)%Z with 1048576%Z in *.
  repeat split; auto; try (apply H1; assumption); try (apply H2; assumption);
    try (apply H3; assumption).
Qed.

Lemma priming_feeds_one_mebibyte_witness :
  let q := [(Binary Samples.data_frame, OPEN); (Binary Samples.end_frame, OPEN)] in
  let r := prime (S (length q)) (1024 * 1024) (mkInStream q SReadable) in
  r.2 = Break /\ sstate r.1.1 = SClosed.
Proof.
  intros q r.
  assert (H : r.2 = Break) by reflexivity.
  split; [exact H |].
  exact (proj2 (proj1 (proj2 (priming_feeds_one_mebibyte q)) H)).
Defined.

End PrimingFacts.

(** ** More on the decoding loop *)

Module AccountFacts.
Import Channel Decode Observe FrameView DecodeFacts FormatFacts Samples MoreSamples.

Lemma frames_out_app (e1 e2 : list Event) :
  frames_out (e1 ++ e2) = frames_out e1 ++ frames_out e2.
Proof. unfold frames_out. apply flat_map_app. Qed.

Lemma frames_out_inbound (effs : list Effect) : frames_out (map Inbound effs) = [].
Proof. induction effs; simpl; auto. Qed.

Lemma seconds_app (rate : Z) (a b : list Frame.t) :
  (seconds rate (a ++ b) == seconds rate a + seconds rate b)%Q.
Proof.
  induction a as [|f a IH]; simpl; [ring |]. rewrite IH. ring.
Qed.

Lemma send_frames_account (rate : Z) (fframes : list Frame.t) (q : Q) :
  frames_out (send_frames rate (DNum q) fframes).2 = fframes
  /\ exists q', (send_frames rate (DNum q) fframes).1 = DNum q'
                /\ (q' == q + seconds rate fframes)%Q.
Proof.
  revert q. induction fframes as [|f rest IH]; intros q; simpl.
  - split; [reflexivity |]. exists q. split; [reflexivity | ring].
  - specialize (IH (q + ratio (Frame.nb_samples f) rate)%Q).
    destruct (send_frames rate _ rest) as [dn evs]. simpl in *.
    destruct IH as (H1 & q' & H2 & H3).
    split; [f_equal; exact H1 |]. exists q'. split; [exact H2 |].
    rewrite H3. ring.
Qed.

Lemma accounted_step (rate : Z) (d d1 d2 : Duration) (f1 f2 : list Frame.t) :
  accounted rate d f1 d1 -> d1 <> DTrue -> accounted rate d1 f2 d2 ->
  accounted rate d (f1 ++ f2) d2.
Proof.
  intros H1 Hn H2. destruct d2 as [| | q2]; simpl in *; [| exact I |].
  - destruct H2 as [-> ->]. simpl in H1. destruct H1 as [-> ->]. auto.
  - destruct d1 as [| | q1]; simpl in *; [| congruence |].
    + destruct H1 as [-> ->]. simpl. exact H2.
    + rewrite H2, H1, seconds_app. ring.
Qed.

Section Turn.
Variable fromPlanar : Z -> Z.
Variable sidx : nat.

(** What [filter_and_send] does to the entry, once a graph exists. *)
Lemma filter_and_send_account (it : Iter) (s s1 : DState) (x : Status)
    (ev : list Event) (n : Next) :
  table s !! sidx = Some x ->
  duration x <> DTrue ->
  filter_and_send sidx it s = (s1, ev, n) ->
  track s1 = track s /\ buffersrc_ctx s1 = buffersrc_ctx s
  /\ exists x1,
       table s1 !! sidx = Some x1
       /\ accounted (sampleRate (track s)) (duration x) (frames_out ev) (duration x1)
       /\ ((buffersrc_ctx s < 0)%Z -> x1 = x /\ frames_out ev = [])
       /\ (n = Continue -> read_eof it = true ->
           (duration x1 = DTrue <-> (0 <= buffersrc_ctx s)%Z))
       /\ (~ (n = Continue /\ read_eof it = true) -> duration x1 <> DTrue).
Proof.
  intros Hx Hd. unfold filter_and_send.
  assert (Hsame : accounted (sampleRate (track s)) (duration x) [] (duration x)).
  { destruct (duration x); simpl; auto. ring. }
  destruct (0 <=? buffersrc_ctx s)%Z eqn:Hctx.
  2:{ apply Z.leb_gt in Hctx. intros [= <- <- <-].
      split; [reflexivity |]. split; [reflexivity |]. exists x.
      split; [exact Hx |]. split; [exact Hsame |]. split; [auto |].
      split; [| auto].
      intros _ _. split; [congruence | lia]. }
  apply Z.leb_le in Hctx.
  destruct (filtered it) as [fframes | e].
  2:{ intros [= <- <- <-].
      split; [reflexivity |]. split; [reflexivity |]. exists x.
      split; [exact Hx |]. split; [exact Hsame |]. split; [lia |].
      split; [discriminate | auto]. }
  rewrite Hx.
  assert (Hlt : sidx < length (table s)) by (eapply lookup_lt_Some; eauto).
  set (d1 := match duration x with DFalse => DNum 0 | d => d end).
  assert (Hd1 : d1 = DNum (so_far (duration x))).
  { subst d1. destruct (duration x); simpl; congruence. }
  pose proof (send_frames_account (sampleRate (track s)) fframes
                (so_far (duration x))) as (Hf & q' & Hq1 & Hq2).
  rewrite <- Hd1 in Hf, Hq1.
  assert (Hev1 : forall ev1 : list Event,
            (ev1 = [] \/ ev1 = [SetDuration (DNum 0)]) -> frames_out ev1 = []).
  { intros ev1 [-> | ->]; reflexivity. }
  destruct (duration x) eqn:Hdx; try congruence; subst d1;
    destruct (send_frames (sampleRate (track s)) _ fframes) as [d2 ev2];
    simpl in Hf, Hq1; subst d2;
    destruct (read_eof it) eqn:Heof; intros [= <- <- <-];
    (split; [reflexivity |]); (split; [reflexivity |]);
    eexists; (split; [apply list_lookup_insert_eq; exact Hlt |]);
    simpl; rewrite ?frames_out_app; simpl; rewrite ?app_nil_r, ?Hf;
    (split; [first [exact I | exact Hq2] |]);
    (split; [lia |]);
    (split;
     [ intros _ He; first [discriminate He | split; auto]
     | intros Hno;
       first [ discriminate
             | exfalso; apply Hno;
               split; [destruct fframes; reflexivity | reflexivity] ] ]).
Qed.

Lemma prepare_filter_cases (it : Iter) (frames : list Frame.t) (s sa : DState)
    (eva : list Event) (na : Next) :
  valid_handles it ->
  prepare_filter fromPlanar it frames s = (sa, eva, na) ->
  table sa = table s /\ frames_out eva = []
  /\ ((sa = s /\ na = Continue)
      \/ ((buffersrc_ctx s < 0)%Z /\ buffersrc_ctx sa = buffersrc_ctx s
          /\ exists e, na = Fail e)
      \/ ((buffersrc_ctx s < 0)%Z /\ (0 <= buffersrc_ctx sa)%Z /\ na = Continue)).
Proof.
  intros Hvalid. unfold prepare_filter.
  destruct frames as [|f0 fs]; [intros [= <- <- <-]; auto |].
  destruct (buffersrc_ctx s <? 0)%Z eqn:Hctx; [| intros [= <- <- <-]; auto].
  apply Z.ltb_lt in Hctx.
  destruct (graph it) as [g | e] eqn:Hg; intros [= <- <- <-];
    (split; [reflexivity |]); (split; [reflexivity |]); right.
  - right. split; [exact Hctx |]. split; [exact (Hvalid g Hg) | reflexivity].
  - left. split; [exact Hctx |]. split; [reflexivity | eauto].
Qed.

Lemma stay_accounted (it : Iter) (s s' : DState) (x : Status)
    (ev' : list Event) (n' : Next) :
  table s !! sidx = Some x ->
  duration x <> DTrue ->
  ((buffersrc_ctx s < 0)%Z -> duration x = DFalse) ->
  table s' = table s -> buffersrc_ctx s' = buffersrc_ctx s ->
  track s' = track s -> frames_out ev' = [] -> n' <> Closed ->
  turn_accounted sidx it s x s' ev' n'.
Proof.
  intros Hx Hd Hfresh Ht Hc Htr Hf Hn. exists x. rewrite Ht, Hc, Hf.
  split; [exact Hx |]. split; [auto |].
  split; [intros; split; [exact Htr | lia] |].
  split; [intros _; destruct (duration x); simpl; auto; ring |].
  split; [congruence | auto].
Qed.

Lemma read_more_account (it : Iter) (s s1 : DState) (x : Status)
    (ev : list Event) (n : Next) :
  table s !! sidx = Some x ->
  duration x <> DTrue ->
  ((buffersrc_ctx s < 0)%Z -> duration x = DFalse) ->
  read_more s = (s1, ev, n) ->
  turn_accounted sidx it s x s1 ev n.
Proof.
  intros Hx Hd Hfresh H. pose proof H as H'.
  apply read_more_quiet in H as (_ & Ht & Htr & Hc).
  unfold read_more in H'. destruct (read (inStream s)) as [[rd ins] effs].
  apply stay_accounted; auto;
    destruct rd; injection H' as <- <- <-;
    rewrite ?frames_out_app, ?frames_out_inbound; try reflexivity; discriminate.
Qed.

Lemma filter_and_send_next (it : Iter) (s s1 : DState) (ev : list Event) (n : Next) :
  filter_and_send sidx it s = (s1, ev, n) ->
  n <> Closed /\ n <> Stall.
Proof.
  unfold filter_and_send.
  destruct (0 <=? buffersrc_ctx s)%Z; [| intros [= <- <- <-]; split; discriminate].
  destruct (filtered it) as [fframes | e]; [| intros [= <- <- <-]; split; discriminate].
  destruct (table s !! sidx) as [x |]; [| intros [= <- <- <-]; split; discriminate].
  destruct (duration x);
    destruct (send_frames (sampleRate (track s)) _ fframes) as [d2 ev2];
    destruct (read_eof it), fframes; intros [= <- <- <-]; split; discriminate.
Qed.

Lemma assemble (it : Iter) (s sa sb : DState) (x x1 : Status)
    (evs : list Event) (nb nfin : Next) :
  ((buffersrc_ctx s < 0)%Z -> duration x = DFalse) ->
  table sb !! sidx = Some x1 ->
  track sb = track sa -> buffersrc_ctx sb = buffersrc_ctx sa ->
  accounted (sampleRate (track sa)) (duration x) (frames_out evs) (duration x1) ->
  ((buffersrc_ctx sa < 0)%Z -> x1 = x /\ frames_out evs = []) ->
  (nb = Continue -> read_eof it = true ->
   (duration x1 = DTrue <-> (0 <= buffersrc_ctx sa)%Z)) ->
  (~ (nb = Continue /\ read_eof it = true) -> duration x1 <> DTrue) ->
  (nfin = Closed <-> (nb = Continue /\ read_eof it = true)) ->
  (sa = s \/ ((buffersrc_ctx s < 0)%Z /\ (0 <= buffersrc_ctx sa)%Z)) ->
  turn_accounted sidx it s x sb evs nfin.
Proof.
  intros Hfresh Hx1 Htb Hcb Hacc Hneg Heof Hnot Hfin Hcase.
  exists x1. split; [exact Hx1 |]. rewrite Hcb, Htb.
  split.
  { intros Hc. destruct (Hneg Hc) as [-> Hf]. split; [| exact Hf].
    apply Hfresh. destruct Hcase as [-> | [_ H]]; [exact Hc | lia]. }
  split.
  { intros Hc. destruct Hcase as [-> | [H _]]; [split; [reflexivity | exact Hc] | lia]. }
  split; [intros _; exact Hacc |].
  split.
  - intros Hn. apply Hfin in Hn as [Hn He]. split; [exact He | apply Heof; assumption].
  - intros Hn. apply Hnot. intros H. apply Hn, Hfin, H.
Qed.

Lemma decode_and_send_account (it : Iter) (s s1 : DState) (x : Status)
    (ev : list Event) (n : Next) :
  table s !! sidx = Some x ->
  duration x <> DTrue ->
  ((buffersrc_ctx s < 0)%Z -> duration x = DFalse) ->
  valid_handles it ->
  decode_and_send fromPlanar sidx it s = (s1, ev, n) ->
  turn_accounted sidx it s x s1 ev n.
Proof.
  intros Hx Hd Hfresh Hvalid. unfold decode_and_send.
  destruct (decoded it) as [frames | e].
  2:{ intros [= <- <- <-]. apply stay_accounted; auto; discriminate. }
  destruct (prepare_filter fromPlanar it frames s) as [[sa eva] na] eqn:Hprep.
  destruct (prepare_filter_cases it frames s sa eva na Hvalid Hprep)
    as (Hta & Hfa & Hcase).
  assert (Hxa : table sa !! sidx = Some x) by (rewrite Hta; exact Hx).
  destruct (filter_and_send sidx it sa) as [[sb evb] nb] eqn:Hfs.
  destruct (filter_and_send_account it sa sb x evb nb Hxa Hd Hfs)
    as (Htb & Hcb & x1 & Hx1 & Hacc & Hneg & Heof & Hnot).
  destruct (filter_and_send_next it sa sb evb nb Hfs) as [Hnc Hns].
  assert (Hout : forall tail : list Event, frames_out tail = [] ->
            frames_out (Decoded frames :: eva ++ evb ++ tail) = frames_out evb).
  { intros tail Htail. change (Decoded frames :: eva ++ evb ++ tail)
      with ([Decoded frames] ++ eva ++ evb ++ tail).
    rewrite !frames_out_app, Hfa, Htail, app_nil_r. reflexivity. }
  assert (Hout0 : frames_out (Decoded frames :: eva ++ evb) = frames_out evb).
  { rewrite <- (Hout []) by reflexivity. rewrite app_nil_r. reflexivity. }
  assert (Hgo : forall (evs : list Event) (nfin : Next),
            frames_out evs = frames_out evb ->
            (nfin = Closed <-> (nb = Continue /\ read_eof it = true)) ->
            (sa = s \/ ((buffersrc_ctx s < 0)%Z /\ (0 <= buffersrc_ctx sa)%Z)) ->
            turn_accounted sidx it s x sb evs nfin).
  { intros evs nfin Hevs Hfin Hc.
    apply (assemble it s sa sb x x1 evs nb nfin); auto; rewrite ?Hevs; auto. }
  destruct Hcase as [[-> ->] | [(Hlt & Hca & e & ->) | (Hlt & Hge & ->)]].
  - destruct nb; [destruct (read_eof it) eqn:He | | | |]; try congruence;
      intros [= <- <- <-]; apply Hgo; auto;
      first [apply Hout; reflexivity | idtac];
      (split; [intros H; first [discriminate H | auto]
              | intros [H1 H2]; first [discriminate H1 | discriminate H2 | auto]]).
  - intros [= <- <- <-]. exists x.
    split; [exact Hxa |].
    split; [intros _; split; [apply Hfresh; exact Hlt |];
            change (Decoded frames :: eva) with ([Decoded frames] ++ eva);
            rewrite frames_out_app, Hfa; reflexivity |].
    split; [lia |]. split; [lia |]. split; [discriminate | auto].
  - destruct nb; [destruct (read_eof it) eqn:He | | | |]; try congruence;
      intros [= <- <- <-]; apply Hgo; auto;
      first [apply Hout; reflexivity | idtac];
      (split; [intros H; first [discriminate H | auto]
              | intros [H1 H2]; first [discriminate H1 | discriminate H2 | auto]]).
Qed.

(** One turn, on the entry of the track. *)
Lemma turn_account (it : Iter) (s s1 : DState) (x : Status)
    (ev : list Event) (n : Next) :
  table s !! sidx = Some x ->
  duration x <> DTrue ->
  ((buffersrc_ctx s < 0)%Z -> duration x = DFalse) ->
  valid_handles it ->
  turn fromPlanar sidx it s = (s1, ev, n) ->
  turn_accounted sidx it s x s1 ev n.
Proof.
  intros Hx Hd Hfresh Hvalid. unfold turn.
  destruct (packets it), (read_eof it);
    first [ apply decode_and_send_account; assumption
          | apply read_more_account; assumption ].
Qed.

Lemma frames_out_pulldone (ev : list Event) :
  frames_out (PullDone :: ev) = frames_out ev.
Proof. reflexivity. Qed.

Lemma run_account (script : list Iter) (s : DState) (x : Status) :
  table s !! sidx = Some x ->
  duration x <> DTrue ->
  ((buffersrc_ctx s < 0)%Z -> duration x = DFalse) ->
  Forall valid_handles script ->
  let r := run fromPlanar sidx script s in
  exists x',
    table r.1.1 !! sidx = Some x'
    /\ ((buffersrc_ctx r.1.1 < 0)%Z ->
        duration x' = DFalse /\ frames_out r.1.2 = [])
    /\ ((0 <= buffersrc_ctx s)%Z ->
        track r.1.1 = track s /\ (0 <= buffersrc_ctx r.1.1)%Z)
    /\ ((0 <= buffersrc_ctx r.1.1)%Z ->
        accounted (sampleRate (track r.1.1)) (duration x)
          (frames_out r.1.2) (duration x'))
    /\ (duration x' = DTrue <-> (r.2 = Completed /\ (0 <= buffersrc_ctx r.1.1)%Z))
    /\ (r.2 = Completed -> exists it, In it script /\ read_eof it = true).
Proof.
  intros Hx Hd Hfresh Hvalid. revert s x Hx Hd Hfresh.
  induction Hvalid as [|it script Hit _ IH]; intros s x Hx Hd Hfresh.
  { simpl. exists x. split; [exact Hx |]. split; [auto |].
    split; [auto |].
    split; [intros _; destruct (duration x); simpl; auto; ring |].
    split; [split; [congruence | intros [H _]; discriminate] | discriminate]. }
  cbn [run].
  destruct (turn fromPlanar sidx it s) as [[s1 ev1] n] eqn:Hturn.
  destruct (turn_account it s s1 x ev1 n Hx Hd Hfresh Hit Hturn)
    as (x1 & Hx1 & Hneg1 & Hpos1 & Hacc1 & Hclosed1 & Hopen1).
  assert (Hstop : forall e : End, e <> Completed -> n <> Closed ->
            exists x',
              table s1 !! sidx = Some x'
              /\ ((buffersrc_ctx s1 < 0)%Z ->
                  duration x' = DFalse /\ frames_out ev1 = [])
              /\ ((0 <= buffersrc_ctx s)%Z ->
                  track s1 = track s /\ (0 <= buffersrc_ctx s1)%Z)
              /\ ((0 <= buffersrc_ctx s1)%Z ->
                  accounted (sampleRate (track s1)) (duration x)
                    (frames_out ev1) (duration x'))
              /\ (duration x' = DTrue <-> (e = Completed /\ (0 <= buffersrc_ctx s1)%Z))
              /\ (e = Completed -> exists it0, In it0 (it :: script)
                                              /\ read_eof it0 = true)).
  { intros e He Hn. exists x1. repeat (split; [assumption |]).
    split; [| congruence].
    split; [intros H; destruct (Hopen1 Hn H) | intros [H _]; congruence]. }
  assert (Hgo : forall mid : list Event, frames_out mid = [] ->
            n <> Closed ->
            let r := run fromPlanar sidx script s1 in
            exists x',
              table r.1.1 !! sidx = Some x'
              /\ ((buffersrc_ctx r.1.1 < 0)%Z ->
                  duration x' = DFalse /\ frames_out (ev1 ++ mid ++ r.1.2) = [])
              /\ ((0 <= buffersrc_ctx s)%Z ->
                  track r.1.1 = track s /\ (0 <= buffersrc_ctx r.1.1)%Z)
              /\ ((0 <= buffersrc_ctx r.1.1)%Z ->
                  accounted (sampleRate (track r.1.1)) (duration x)
                    (frames_out (ev1 ++ mid ++ r.1.2)) (duration x'))
              /\ (duration x' = DTrue
                  <-> (r.2 = Completed /\ (0 <= buffersrc_ctx r.1.1)%Z))
              /\ (r.2 = Completed -> exists it0, In it0 (it :: script)
                                                /\ read_eof it0 = true)).
  { intros mid Hmid Hn r.
    assert (Hd1 : duration x1 <> DTrue) by (apply Hopen1; exact Hn).
    assert (Hf1 : (buffersrc_ctx s1 < 0)%Z -> duration x1 = DFalse)
      by (intros H; apply Hneg1; exact H).
    destruct (IH s1 x1 Hx1 Hd1 Hf1) as (x' & Hx' & Hneg & Hpos & Hacc & Hiff & Hend).
    fold r in Hx', Hneg, Hpos, Hacc, Hiff, Hend.
    exists x'. split; [exact Hx' |].
    rewrite !frames_out_app, Hmid. cbn [app].
    split.
    { intros Hc. destruct (Hneg Hc) as [Ha Hb]. split; [exact Ha |].
      destruct (Z_lt_le_dec (buffersrc_ctx s1) 0) as [Hlt | Hge].
      - destruct (Hneg1 Hlt) as [_ ->]. exact Hb.
      - destruct (Hpos Hge) as [_ H]. lia. }
    split.
    { intros Hc. destruct (Hpos1 Hc) as [Ht Hc1]. destruct (Hpos Hc1) as [Ht' Hc'].
      split; [congruence | exact Hc']. }
    split.
    { intros Hc. specialize (Hacc Hc).
      destruct (Z_lt_le_dec (buffersrc_ctx s1) 0) as [Hlt | Hge].
      - destruct (Hneg1 Hlt) as [Hdx1 ->]. cbn [app].
        assert (Hs : (buffersrc_ctx s < 0)%Z).
        { destruct (Z_lt_le_dec (buffersrc_ctx s) 0) as [H | H]; [exact H |].
          destruct (Hpos1 H). lia. }
        rewrite (Hfresh Hs). rewrite Hdx1 in Hacc. exact Hacc.
      - destruct (Hpos Hge) as [Ht _].
        eapply accounted_step; [| exact Hd1 | exact Hacc].
        rewrite Ht. apply Hacc1. exact Hge. }
    split; [exact Hiff |].
    intros He. destruct (Hend He) as (it0 & Hin & H0).
    exists it0. split; [right; exact Hin | exact H0]. }
  destruct n.
  - specialize (Hgo [] eq_refl ltac:(discriminate)). cbn zeta in Hgo.
    destruct (run fromPlanar sidx script s1) as [[s2 ev2] e]. exact Hgo.
  - specialize (Hgo [PullDone] eq_refl ltac:(discriminate)). cbn zeta in Hgo.
    destruct (run fromPlanar sidx script s1) as [[s2 ev2] e]. exact Hgo.
  - destruct (Hclosed1 eq_refl) as [He Hiff].
    exists x1. cbn [fst snd]. repeat (split; [assumption |]).
    split; [split; [intros H; split; [reflexivity | apply Hiff, H]
                   | intros [_ H]; apply Hiff, H] |].
    intros _. exists it. split; [left; reflexivity | exact He].
  - apply (Hstop (Failed e)); discriminate.
  - apply (Hstop Stalled); discriminate.
Qed.

End Turn.

(** In a run of the decoding loop for a track not yet loading, the entry
    is marked finished exactly when the stream was closed with a filter
    graph built; the stream is only ever closed in a turn in which libav
    reported the end of the input. *)
Theorem finished_iff_closed_with_graph (fromPlanar : Z -> Z) (sidx : nat)
    (script : list Iter) (s : DState) (x : Status) :
  table s !! sidx = Some x ->
  duration x = DFalse ->
  (buffersrc_ctx s < 0)%Z ->
  Forall valid_handles script ->
  let r := run fromPlanar sidx script s in
  exists x',
    table r.1.1 !! sidx = Some x'
    /\ (duration x' = DTrue <-> (r.2 = Completed /\ (0 <= buffersrc_ctx r.1.1)%Z))
    /\ (r.2 = Completed -> exists it, In it script /\ read_eof it = true).
Proof.
  intros Hx Hd Hctx Hvalid r.
  destruct (run_account fromPlanar sidx script s x Hx
              ltac:(rewrite Hd; discriminate) (fun _ => Hd) Hvalid)
    as (x' & Hx' & _ & _ & _ & Hiff & Hend).
  exists x'. auto.
Qed.

Lemma finished_iff_closed_with_graph_witness :
  (table fresh_state !! 0 = Some (mkStatus "1-alice" DFalse true)
   /\ (buffersrc_ctx fresh_state < 0)%Z
   /\ Forall valid_handles one_frame_script)
  /\ let r := run (fun f => f) 0 one_frame_script fresh_state in
     exists x',
       table r.1.1 !! 0 = Some x'
       /\ (duration x' = DTrue <-> (r.2 = Completed /\ (0 <= buffersrc_ctx r.1.1)%Z))
       /\ (r.2 = Completed -> exists it, In it one_frame_script /\ read_eof it = true).
Proof.
  assert (H1 : table fresh_state !! 0 = Some (mkStatus "1-alice" DFalse true))
    by reflexivity.
  assert (H2 : (buffersrc_ctx fresh_state < 0)%Z) by (simpl; lia).
  assert (H3 : Forall valid_handles one_frame_script).
  { repeat constructor; intros g [= <-]; simpl; lia. }
  split; [repeat split; assumption |].
  exact (finished_iff_closed_with_graph (fun f => f) 0 one_frame_script fresh_state
           _ H1 eq_refl H2 H3).
Defined.

(** In a run of the decoding loop for a track not yet loading: as long
    as no filter graph is built the entry keeps the duration [false],
    and an entry whose duration is still [false] (shown as not yet
    loading) has had no frame handed on to the track. *)
Theorem not_loading_means_no_frames (fromPlanar : Z -> Z) (sidx : nat)
    (script : list Iter) (s : DState) (x : Status) :
  table s !! sidx = Some x ->
  duration x = DFalse ->
  (buffersrc_ctx s < 0)%Z ->
  Forall valid_handles script ->
  let r := run fromPlanar sidx script s in
  exists x',
    table r.1.1 !! sidx = Some x'
    /\ ((buffersrc_ctx r.1.1 < 0)%Z -> duration x' = DFalse)
    /\ (duration x' = DFalse -> frames_out r.1.2 = []).
Proof.
  intros Hx Hd Hctx Hvalid r.
  destruct (run_account fromPlanar sidx script s x Hx
              ltac:(rewrite Hd; discriminate) (fun _ => Hd) Hvalid)
    as (x' & Hx' & Hneg & _ & Hacc & _ & _).
  fold r in Hx', Hneg, Hacc.
  exists x'. split; [exact Hx' |]. split; [intros H; apply Hneg, H |].
  intros Hfalse.
  destruct (Z_lt_le_dec (buffersrc_ctx r.1.1) 0) as [Hlt | Hge].
  - apply Hneg, Hlt.
  - specialize (Hacc Hge). rewrite Hfalse in Hacc. simpl in Hacc. tauto.
Qed.

Lemma not_loading_means_no_frames_witness :
  (table fresh_state !! 0 = Some (mkStatus "1-alice" DFalse true)
   /\ (buffersrc_ctx fresh_state < 0)%Z
   /\ Forall valid_handles empty_input_script)
  /\ frames_out (run (fun f => f) 0 empty_input_script fresh_state).1.2 = [].
Proof.
  assert (H1 : table fresh_state !! 0 = Some (mkStatus "1-alice" DFalse true))
    by reflexivity.
  assert (H2 : (buffersrc_ctx fresh_state < 0)%Z) by (simpl; lia).
  assert (H3 : Forall valid_handles empty_input_script).
  { repeat constructor; intros g [= <-]; simpl; lia. }
  split; [repeat split; assumption |].
  destruct (not_loading_means_no_frames (fun f => f) 0 empty_input_script fresh_state
              _ H1 eq_refl H2 H3) as (x' & _ & Ha & Hb).
  apply Hb, Ha. reflexivity.
Defined.

End AccountFacts.

(** ** The scheduling loop when the loaders end well *)

Module SchedulerLive.
Import Scheduler SchedulerFacts SchedulerView Prepare PrepareFacts Channel
       Samples MoreSamples.

Section Loop.
Variable hc : option nat.
Variable settles : Entry -> Settle.

Local Abbreviation T := (threads hc).

Lemma all_returns (picks : list nat) (promises awaited : list Entry) :
  (forall t, In t awaited -> settles t = Fulfils) ->
  fair T (length awaited) picks ->
  (all settles picks promises awaited).2 = Returned.
Proof.
  revert awaited. induction picks as [|i picks IH]; intros awaited Hs Hf.
  - destruct awaited; [reflexivity | destruct Hf].
  - destruct awaited as [|a aw] eqn:Haw; [reflexivity |].
    rewrite <- Haw in *. assert (Hn : awaited <> []) by (rewrite Haw; discriminate).
    clear Haw a aw.
    destruct (length awaited) as [|m] eqn:Hlen;
      [destruct awaited; [congruence | discriminate] |].
    cbn [fair] in Hf. destruct Hf as [Hi Hf].
    assert (Hlt : i < length awaited) by lia.
    destruct (lookup_lt_is_Some_2 awaited i Hlt) as [t Ht].
    assert (Hu : all settles (i :: picks) promises awaited
                 = match settles t with
                   | Rejects e => ([mkStep (Raise t e) [] promises], Threw e)
                   | Fulfils =>
                       let '(steps, r) :=
                         all settles picks promises (delete i awaited) in
                       (mkStep (Fulfilled t) [] promises :: steps, r)
                   end).
    { destruct awaited; [congruence |]. cbn [all]. rewrite Ht. reflexivity. }
    rewrite Hu. rewrite (Hs t) by (apply list_elem_of_In, list_elem_of_lookup; eauto).
    specialize (IH (delete i awaited)).
    destruct (all settles picks promises (delete i awaited)) as [steps r].
    cbn [snd] in *. apply IH.
    + intros x Hx. apply Hs. eapply in_delete_inv; eauto.
    + pose proof (length_delete_lookup i awaited t Ht) as Hd.
      replace (length (delete i awaited)) with m by lia. exact Hf.
Qed.

Lemma loop_returns (picks : list nat) (tracks promises : list Entry) :
  length promises <= T ->
  (forall t, In t (promises ++ tracks) -> settles t = Fulfils) ->
  fair T (length promises + length tracks) picks ->
  (loop hc settles picks tracks promises).2 = Returned.
Proof.
  revert tracks promises.
  assert (Hempty : forall picks promises,
            (forall t, In t (promises ++ []) -> settles t = Fulfils) ->
            fair T (length promises + 0) picks ->
            (loop hc settles picks [] promises).2 = Returned).
  { intros ps promises Hs Hf.
    assert (Hl : loop hc settles ps [] promises = all settles ps promises promises)
      by (destruct ps; reflexivity).
    rewrite Hl. apply all_returns.
    - intros t Ht. apply Hs. rewrite app_nil_r. exact Ht.
    - rewrite Nat.add_0_r in Hf. exact Hf. }
  induction picks as [|i picks IH]; intros tracks promises Hlen Hs Hf.
  - destruct tracks as [|t q]; [apply Hempty; assumption |].
    simpl in Hf. rewrite Nat.add_succ_r in Hf. destruct Hf.
  - destruct tracks as [|t q]; [apply Hempty; assumption |].
    cbn [loop].
    pose proof (enqueue_spec hc (t :: q) promises Hlen) as Henq.
    destruct (enqueue hc (t :: q) promises) as [[steps1 tracks1] promises1].
    cbn [fst snd] in Henq.
    destruct Henq as (_ & _ & H3 & H4 & H5 & H6).
    assert (Hsum : length promises1 + length tracks1
                   = length promises + length (t :: q)).
    { rewrite <- H5, H6, !length_app. lia. }
    destruct (length promises + length (t :: q)) as [|m] eqn:Hn;
      [simpl in Hn; lia |].
    cbn [fair] in Hf. destruct Hf as [Hi Hf].
    assert (Hlt : i < length promises1).
    { destruct H4 as [-> | H4]; [simpl in Hsum |]; lia. }
    destruct (lookup_lt_is_Some_2 promises1 i Hlt) as [x Hx].
    rewrite Hx.
    assert (Hin : forall y, In y (promises1 ++ tracks1) -> settles y = Fulfils).
    { intros y Hy. apply Hs. rewrite H6, <- app_assoc, H5 in Hy. exact Hy. }
    rewrite (Hin x)
      by (apply in_or_app; left; apply list_elem_of_In, list_elem_of_lookup; eauto).
    pose proof (length_delete_lookup i promises1 x Hx) as Hd.
    specialize (IH tracks1 (delete i promises1)).
    destruct (loop hc settles picks tracks1 (delete i promises1)) as [steps2 r].
    cbn [snd] in *. apply IH.
    + lia.
    + intros y Hy. apply Hin. apply in_app_or in Hy as [Hy | Hy];
        apply in_or_app; [left; eapply in_delete_inv; eauto | right; exact Hy].
    + replace (length (delete i promises1) + length tracks1) with m by lia.
      exact Hf.
Qed.

End Loop.

(** If every loader fulfils and every await sees one of the promises in
    flight settle, whichever it is, [loadData] leaves the loop normally
    and has started every track once, in the order of the list. *)
Theorem all_tracks_load (hc : option nat) (settles : Entry -> Settle)
    (picks : list nat) (tracks : list Entry) :
  (forall t, In t tracks -> settles t = Fulfils) ->
  fair (threads hc) (length tracks) picks ->
  let r := schedule hc settles picks tracks in
  r.2 = Returned /\ started r.1 = tracks.
Proof.
  intros Hs Hf r. subst r. unfold schedule.
  assert (Hlen : length (@nil Entry) <= threads hc) by (simpl; lia).
  assert (Hr : (loop hc settles picks tracks []).2 = Returned)
    by (apply loop_returns; assumption).
  split; [exact Hr |].
  destruct (loop_spec hc settles picks tracks [] Hlen) as (_ & _ & _ & H4 & _).
  apply H4, Hr.
Qed.

Lemma all_tracks_load_witness :
  fair (threads (Some 2)) 3 [1; 0; 0]
  /\ started (schedule (Some 2) all_fulfil [1; 0; 0] [track1; track2; track3]).1
     = [track1; track2; track3].
Proof.
  assert (H : fair (threads (Some 2)) 3 [1; 0; 0]) by (simpl; lia).
  split; [exact H |].
  exact (proj2 (all_tracks_load (Some 2) all_fulfil [1; 0; 0]
                  [track1; track2; track3] (fun _ _ => eq_refl) H)).
Defined.

Lemma tracks_NoDup (us : list User) : NoDup (make_tracks 1 us).
Proof.
  apply (NoDup_fmap_1 idx). change (NoDup (map idx (make_tracks 1 us))).
  rewrite make_tracks_idx. apply NoDup_ListNoDup, List.seq_NoDup.
Qed.

(** Under [loadData], whatever the loaders do and in whatever order they
    settle: no track is started twice, every loader that is started is
    given the place of its own entry of the status table, and no two of
    them are given the same place. *)
Theorem loaders_get_their_own_rows (hc : option nat) (settles : Entry -> Settle)
    (picks : list nat) (us : list User) :
  let tracks := make_tracks 1 us in
  let ran := started (schedule hc settles picks tracks).1 in
  NoDup ran
  /\ forall t, In t ran ->
       initial_status tracks !! sidx_of t = Some (mkStatus (track t) DFalse false)
       /\ forall t', In t' ran -> sidx_of t' = sidx_of t -> t' = t.
Proof.
  intros tracks ran. subst ran. unfold schedule.
  assert (Hlen : length (@nil Entry) <= threads hc) by (simpl; lia).
  destruct (loop_spec hc settles picks tracks [] Hlen) as (_ & _ & [queued Hq] & _).
  set (ran := started (loop hc settles picks tracks []).1) in *.
  assert (Hsub : forall t, In t ran -> In t tracks).
  { intros t Ht. rewrite Hq. apply in_or_app. left. exact Ht. }
  split.
  { pose proof (tracks_NoDup us) as Hnd. fold tracks in Hnd. rewrite Hq in Hnd.
    apply NoDup_app in Hnd. tauto. }
  intros t Ht.
  destruct (aligned_lookup us t (Hsub t Ht)) as (_ & H1 & H2).
  split; [exact H1 |].
  intros t' Ht' Heq.
  destruct (aligned_lookup us t' (Hsub t' Ht')) as (_ & _ & H2').
  rewrite Heq in H2'. fold tracks in H2, H2'. congruence.
Qed.

Lemma loaders_get_their_own_rows_witness :
  In (mkEntry 2 "2-bob_7")
     (started (schedule (Some 1) all_fulfil [0; 0] (make_tracks 1 two_users)).1)
  /\ initial_status (make_tracks 1 two_users) !! 1
     = Some (mkStatus "2-bob_7" DFalse false).
Proof.
  assert (H : In (mkEntry 2 "2-bob_7")
                (started (schedule (Some 1) all_fulfil [0; 0]
                            (make_tracks 1 two_users)).1))
    by (right; left; reflexivity).
  split; [exact H |].
  exact (proj1 (proj2 (loaders_get_their_own_rows (Some 1) all_fulfil [0; 0]
                         two_users) _ H)).
Defined.

End SchedulerLive.

(** ** The wizard *)

Module WizardFacts.
Import Wizard WizardView MoreSamples.

(** *** The options in the URL *)

Lemma to_int32_low_bits (z k : Z) :
  (0 <= k < 32)%Z -> Z.testbit (Decode.to_int32 z) k = Z.testbit z k.
Proof.
  intros Hk. unfold Decode.to_int32.
  assert (H : ((z + 2 ^ 31) mod 2 ^ 32 - 2 ^ 31
               = z + - ((z + 2 ^ 31) / 2 ^ 32) * 2 ^ 32)%Z).
  { pose proof (Z.div_mod (z + 2 ^ 31) (2 ^ 32) ltac:(lia)). lia. }
  rewrite H.
  rewrite <- (Z.mod_pow2_bits_low (z + _ * 2 ^ 32) 32 k) by lia.
  rewrite Z.mod_add by lia.
  apply Z.mod_pow2_bits_low. lia.
Qed.

(** A mask below 2^32 sees the number itself, whatever its size or sign. *)
Lemma band_land (z mask : Z) :
  (0 <= mask < 2 ^ 32)%Z -> band (Some z) mask = Z.land z mask.
Proof.
  intros Hm. unfold band. apply Z.bits_inj'. intros n Hn.
  rewrite !Z.land_spec.
  destruct (Z_lt_le_dec n 32) as [Hlt | Hge].
  - rewrite to_int32_low_bits by lia. reflexivity.
  - assert (Hb : Z.testbit mask n = false).
    { destruct (Z.eq_dec mask 0%Z) as [-> | Hne]; [apply Z.bits_0 |].
      apply Z.bits_above_log2; [lia |].
      assert (Z.log2 mask < 32)%Z by (apply Z.log2_lt_pow2; lia). lia. }
    rewrite Hb, !andb_false_r. reflexivity.
Qed.

Lemma land_bit (z k : Z) :
  (0 <= k)%Z -> truthy (Z.land z (2 ^ k)) = Z.testbit z k.
Proof.
  intros Hk. unfold truthy.
  assert (H : Z.land z (2 ^ k) = if Z.testbit z k then (2 ^ k)%Z else 0%Z).
  { apply Z.bits_inj'. intros n Hn. rewrite Z.land_spec, Z.pow2_bits_eqb by lia.
    destruct (Z.eqb_spec k n) as [-> | Hne].
    - destruct (Z.testbit z n); [rewrite Z.pow2_bits_true by lia; reflexivity |].
      rewrite Z.bits_0. reflexivity.
    - rewrite andb_false_r. destruct (Z.testbit z k).
      + rewrite Z.pow2_bits_false by lia. reflexivity.
      + rewrite Z.bits_0. reflexivity. }
  rewrite H. destruct (Z.testbit z k); [| reflexivity].
  assert (0 < 2 ^ k)%Z by (apply Z.pow_pos_nonneg; lia).
  destruct (Z.eqb_spec (2 ^ k) 0); [lia | reflexivity].
Qed.

Lemma url_flag (z k : Z) :
  (0 <= k < 32)%Z -> truthy (band (Some z) (2 ^ k)) = Z.testbit z k.
Proof.
  intros Hk. rewrite band_land.
  - apply land_bit. lia.
  - split; [apply Z.pow_nonneg; lia | apply Z.pow_lt_mono_r; lia].
Qed.

Lemma url_format_index (z : Z) : band (Some z) 15 = (z mod 16)%Z.
Proof.
  rewrite band_land by lia. change 15%Z with (Z.ones 4).
  rewrite Z.land_ones by lia. reflexivity.
Qed.

Lemma format_in_wizardFormats (i : nat) :
  In (Prepare.or_else (wizardFormats !! i) "_FLAC") wizardFormats.
Proof.
  do 7 (destruct i as [|i]; [simpl; tauto |]). simpl. tauto.
Qed.

(** The options of the URL: the format is the entry of [wizardFormats]
    that the low four bits of the number name, [_FLAC] when they name
    none (7 to 15), so always one of the seven formats; the flags are bits
    4, 5, 6 and 8 of the number, whatever its size or sign.  A number that
    is no integer gives [_FLAC] and no flag. *)
Theorem url_opts_bits (z : Z) :
  let o := url_opts (Some z) in
  format o = Prepare.or_else (wizardFormats !! Z.to_nat (z mod 16)) "_FLAC"
  /\ In (format o) wizardFormats
  /\ ((7 <= z mod 16)%Z -> format o = "_FLAC")
  /\ mix o = Z.testbit z 4
  /\ level o = Z.testbit z 5
  /\ noiser o = Z.testbit z 6
  /\ keep o = Z.testbit z 8
  /\ url_opts None = mkOpts "_FLAC" false false false false.
Proof.
  intros o. subst o. unfold url_opts. cbn [format mix level noiser keep].
  rewrite url_format_index.
  split; [reflexivity |].
  split; [apply format_in_wizardFormats |].
  split.
  { intros H. pose proof (Z.mod_pos_bound z 16 ltac:(lia)) as Hb.
    assert (Hn : 7 <= Z.to_nat (z mod 16)) by lia.
    rewrite (lookup_ge_None_2 wizardFormats _ Hn). reflexivity. }
  split; [exact (url_flag z 4 ltac:(lia)) |].
  split; [exact (url_flag z 5 ltac:(lia)) |].
  split; [exact (url_flag z 6 ltac:(lia)) |].
  split; [exact (url_flag z 8 ltac:(lia)) | reflexivity].
Qed.

Lemma url_opts_bits_witness :
  (7 <= 9 mod 16)%Z
  /\ format (url_opts (Some 9%Z)) = "_FLAC".
Proof.
  assert (H : (7 <= 9 mod 16)%Z) by (vm_compute; discriminate).
  split; [exact H |].
  exact (proj1 (proj2 (proj2 (url_opts_bits 9))) H).
Defined.

(** *** Calls against the answers of the host *)

Lemma perform_shape (rej : nat -> option Exn) (l : list Action) (t : option Exn)
    (k : nat) :
  let r := perform rej k (map Call l ++ throw_items t) in
  (exists rest, l = r.1 ++ rest)
  /\ (forall pre a post, r.1 = pre ++ a :: post ->
        forall j, j < length pre -> rej (k + j) = None)
  /\ (r.2 = Ok () ->
        r.1 = l /\ t = None /\ forall j, j < length l -> rej (k + j) = None)
  /\ (forall e, r.2 = Throw e ->
        (exists j a, r.1 !! j = Some a /\ length r.1 = S j
                     /\ rej (k + j) = Some e)
        \/ (t = Some e /\ r.1 = l
            /\ forall j, j < length l -> rej (k + j) = None))
  /\ ((forall j, j < length l -> rej (k + j) = None) ->
        r = (l, match t with Some e => Throw e | None => Ok () end))
  /\ (forall j e, j < length l -> rej (k + j) = Some e ->
        (forall i, i < j -> rej (k + i) = None) ->
        r = (take (S j) l, Throw e)).
Proof.
  revert k. induction l as [|a l IH]; intros k.
  - destruct t as [e |]; simpl.
    + split; [exists []; reflexivity |].
      split; [intros pre a post H; destruct pre; discriminate |].
      split; [discriminate |].
      split; [intros e' [= <-]; right; repeat split; intros; lia |].
      split; [reflexivity | intros; lia].
    + split; [exists []; reflexivity |].
      split; [intros pre a post H; destruct pre; discriminate |].
      split; [intros _; repeat split; intros; lia |].
      split; [discriminate |].
      split; [reflexivity | intros; lia].
  - cbn [map app perform]. destruct (rej k) as [e |] eqn:Hk.
    + cbn [fst snd].
      split; [exists l; reflexivity |].
      split.
      { intros pre b post H. destruct pre as [|c [|d pre]]; try discriminate.
        simpl. intros; lia. }
      split; [discriminate |].
      split.
      { intros e' [= <-]. left. exists 0, a. rewrite Nat.add_0_r. auto. }
      split.
      { intros H. specialize (H 0 ltac:(simpl; lia)).
        rewrite Nat.add_0_r in H. congruence. }
      intros j e' Hj Hje Hbefore.
      destruct j as [|j].
      * rewrite Nat.add_0_r in Hje. assert (e' = e) as -> by congruence.
        destruct l; reflexivity.
      * specialize (Hbefore 0 ltac:(lia)). rewrite Nat.add_0_r in Hbefore.
        congruence.
    + specialize (IH (S k)).
      destruct (perform rej (S k) (map Call l ++ throw_items t)) as [made r].
      cbn [fst snd] in *.
      destruct IH as (I1 & I2 & I3 & I4 & I5 & I6).
      split; [destruct I1 as [rest ->]; exists rest; reflexivity |].
      split.
      { intros pre b post H j Hj. destruct pre as [|c pre].
        - simpl in Hj. lia.
        - injection H as <- H. destruct j as [|j].
          + rewrite Nat.add_0_r. exact Hk.
          + replace (k + S j) with (S k + j) by lia.
            eapply I2; [exact H | simpl in Hj; lia]. }
      split.
      { intros Hr. destruct (I3 Hr) as (-> & -> & Hall).
        repeat split. intros j Hj. destruct j as [|j].
        - rewrite Nat.add_0_r. exact Hk.
        - replace (k + S j) with (S k + j) by lia. apply Hall. simpl in Hj. lia. }
      split.
      { intros e Hr. destruct (I4 e Hr) as [(j & b & Hb & Hlen & Hje) | (-> & -> & Hall)].
        - left. exists (S j), b. simpl. rewrite Hlen.
          replace (k + S j) with (S k + j) by lia. auto.
        - right. repeat split. intros j Hj. destruct j as [|j].
          + rewrite Nat.add_0_r. exact Hk.
          + replace (k + S j) with (S k + j) by lia. apply Hall. simpl in Hj. lia. }
      split.
      { intros Hall.
        assert (H : (made, r) = (l, match t with Some e => Throw e | None => Ok () end)).
        { apply I5. intros j Hj. replace (S k + j) with (k + S j) by lia.
          apply Hall. simpl. lia. }
        injection H as -> ->. reflexivity. }
      intros j e Hj Hje Hbefore. destruct j as [|j].
      * rewrite Nat.add_0_r in Hje. congruence.
      * assert (H : (made, r) = (take (S j) l, Throw e)).
        { apply I6.
          - simpl in Hj. lia.
          - replace (S k + j) with (k + S j) by lia. exact Hje.
          - intros i Hi. replace (S k + i) with (k + S i) by lia.
            apply Hbefore. lia. }
        injection H as -> ->. reflexivity.
Qed.

(** *** The calls of the wizard *)

Lemma for_each_calls {A : Type} (f : A -> Action) (l : list A) :
  for_each l (fun x => call (f x)) = (map (fun x => Call (f x)) l, Some ()).
Proof.
  induction l as [|x l IH]; cbn [for_each]; [reflexivity |].
  rewrite IH. reflexivity.
Qed.

Lemma cleanup_items (env : Env) :
  cleanup env = (map Call (cleanup_calls env), Some ()).
Proof.
  unfold cleanup, cleanup_calls, craig_ids. destruct (project env); [reflexivity |].
  rewrite for_each_calls. unfold bind, call. cbn [app map].
  rewrite !map_map. reflexivity.
Qed.

Lemma master_items (env : Env) (o : Opts) :
  (master env o).1 = map Call (master_calls env o) ++ throw_items (master_throw env o).
Proof.
  unfold master, master_calls, master_throw, lacks_normalizer, filters_of,
    export_of, finish_of.
  destruct (mix o), (level o), (normalizer env), (preFilter o) as [|p pre],
    (String.eqb (format o) "aup"),
    (List.filter (fun x => String.eqb x.1 (format o)) (standardExports env))
      as [|x rest],
    (keep o); reflexivity.
Qed.

Lemma wizard_items (env : Env) :
  (wizard_script env).1
  = map Call (wizard_calls env) ++ throw_items (wizard_throw env).
Proof.
  unfold wizard_script, wizard_calls, wizard_throw, ask_mode, ask_options,
    dialogs_of, cancelledb, chosen, load_of.
  rewrite cleanup_items.
  pose proof (master_items env) as Hm.
  destruct (nonempty (wizardOptsS env)); cbn [negb orb andb];
    [destruct (truthy (band (wizardOpts env) 512)) |];
    [destruct (options env) as [o |] | | destruct (mode env);
       [destruct (options env) as [o |] | |]];
    destruct (project env);
    unfold bind, call, ret; cbn [fst snd app map throw_items];
    try (specialize (Hm o); destruct (master env o) as [items v]);
    try (specialize (Hm (url_opts (wizardOpts env)));
         destruct (master env (url_opts (wizardOpts env))) as [items v]);
    cbn [fst snd app map throw_items] in *; try subst items;
    rewrite ?app_nil_r, ?map_app, <- ?app_assoc; reflexivity.
Qed.

Lemma craigWizard_shape (env : Env) :
  craigWizard env
  = perform (rejects env) 0
      (map Call (wizard_calls env) ++ throw_items (wizard_throw env)).
Proof. unfold craigWizard. rewrite wizard_items. reflexivity. Qed.

(** A call that was made is one the wizard makes when every call
    fulfils. *)
Lemma made_is_planned (env : Env) (a : Action) :
  In a (craigWizard env).1 -> In a (wizard_calls env).
Proof.
  rewrite craigWizard_shape.
  destruct (perform_shape (rejects env) (wizard_calls env) (wizard_throw env) 0)
    as ([rest Hrest] & _).
  intros H. rewrite Hrest. apply in_or_app. left. exact H.
Qed.

Lemma perform_covers (rej : nat -> option Exn) (t : option Exn) (n : nat)
    (l : list Action) (k : nat) :
  (forall j, j < n -> rej (k + j) = None) ->
  take n (perform rej k (map Call l ++ throw_items t)).1 = take n l.
Proof.
  revert l k. induction n as [|n IH]; intros l k Hall; [reflexivity |].
  destruct l as [|a l]; [destruct t; reflexivity |].
  cbn [map app perform].
  pose proof (Hall 0 ltac:(lia)) as H0. rewrite Nat.add_0_r in H0. rewrite H0.
  specialize (IH l (S k)).
  destruct (perform rej (S k) (map Call l ++ throw_items t)) as [made r].
  cbn [fst snd] in *. simpl. f_equal. apply IH.
  intros j Hj. replace (S k + j) with (k + S j) by lia. apply Hall. lia.
Qed.

Lemma kind_excludes {A} (P : A -> Prop) (l : list A) (a : A) :
  Forall P l -> ~ P a -> ~ In a l.
Proof.
  intros Hl Ha Hin. rewrite Forall_forall in Hl.
  apply Ha, Hl, list_elem_of_In, Hin.
Qed.

Lemma cancelledb_spec (env : Env) : cancelledb env = true <-> cancelled env.
Proof.
  unfold cancelledb, cancelled.
  destruct (nonempty (wizardOptsS env)), (mode env); simpl;
    split; try tauto; try discriminate; intros [H1 H2]; discriminate.
Qed.

Lemma in_cleanup_delete (env : Env) (id : string) :
  In (DeleteProjectById id) (cleanup_calls env)
  <-> (project env = false
       /\ exists name, In (name, id) (projects env) /\ is_craig name = true).
Proof.
  unfold cleanup_calls, craig_ids. destruct (project env).
  { split; [intros [] | intros [H _]; discriminate]. }
  split.
  - intros [H | [H | H]]; [discriminate | discriminate |].
    apply in_map_iff in H as (id' & [= ->] & Hin).
    apply in_map_iff in Hin as ([name id'] & <- & Hin).
    apply filter_In in Hin as [Hin Hc]. split; [reflexivity |]. exists name. auto.
  - intros (_ & name & Hin & Hc). right. right. apply in_map_iff.
    exists id. split; [reflexivity |]. apply in_map_iff.
    exists (name, id). split; [reflexivity |]. apply filter_In. auto.
Qed.

Lemma cleanup_calls_kind (env : Env) : Forall is_cleanup (cleanup_calls env).
Proof.
  unfold cleanup_calls. destruct (project env); [constructor |].
  repeat (constructor; [exact I |]). apply Forall_forall. intros a Ha.
  apply list_elem_of_In, in_map_iff in Ha as (id & <- & _). exact I.
Qed.

Lemma dialogs_of_spec (env : Env) :
  Forall is_dialog (dialogs_of env)
  /\ (nonempty (wizardOptsS env) = true ->
      truthy (band (wizardOpts env) 512) = false -> dialogs_of env = []).
Proof.
  unfold dialogs_of. split.
  - destruct (nonempty _); [destruct (truthy _) | destruct (mode env)];
      repeat constructor.
  - intros -> ->. reflexivity.
Qed.

Lemma in_load_of (env : Env) (a : Action) :
  In a (load_of env) <-> a = LoadData /\ project env = false.
Proof.
  unfold load_of. destruct (project env); simpl.
  - split; [tauto | intros [_ H]; discriminate].
  - split; [intros [<- | []]; auto | intros [-> _]; auto].
Qed.

Lemma export_of_some (env : Env) (o : Opts) (a : Action) :
  export_of env o = Some a ->
  (a = ExportAudacity /\ format o = "aup")
  \/ exists x, a = ExportAudio x /\ format o <> "aup"
               /\ In (format o, x) (standardExports env).
Proof.
  unfold export_of. destruct (String.eqb_spec (format o) "aup") as [Haup | Haup].
  { intros [= <-]. auto. }
  destruct (List.filter _ (standardExports env)) as [|x rest] eqn:Hx;
    [discriminate |].
  intros [= <-]. right. exists x.2. split; [reflexivity |]. split; [exact Haup |].
  assert (H : In x (x :: rest)) by (left; reflexivity).
  rewrite <- Hx in H. apply filter_In in H as [H1 H2].
  apply String.eqb_eq in H2. rewrite <- H2. destruct x. exact H1.
Qed.

Lemma export_of_none (env : Env) (o : Opts) :
  export_of env o = None ->
  format o <> "aup" /\ forall x, ~ In (format o, x) (standardExports env).
Proof.
  unfold export_of. destruct (String.eqb_spec (format o) "aup") as [Haup | Haup];
    [discriminate |].
  destruct (List.filter _ (standardExports env)) as [|x rest] eqn:Hx;
    [| discriminate].
  intros _. split; [exact Haup |]. intros y Hy.
  assert (H : In (format o, y)
                (List.filter (fun x => String.eqb x.1 (format o))
                   (standardExports env))).
  { apply filter_In. split; [exact Hy |]. simpl. apply String.eqb_refl. }
  rewrite Hx in H. destruct H.
Qed.

Lemma filters_plain (o : Opts) : Forall plain (filters_of o).
Proof.
  unfold filters_of, plain. destruct (mix o); [| destruct (preFilter o)];
    repeat constructor; simpl; auto; discriminate.
Qed.

Lemma in_master_calls (env : Env) (o : Opts) (a : Action) :
  In a (master_calls env o) ->
  a = DisableUndo
  \/ (lacks_normalizer env o = false
      /\ (In a (filters_of o)
          \/ exists ex, export_of env o = Some ex
                        /\ (a = ex \/ In a (finish_of o)))).
Proof.
  unfold master_calls. intros [<- | H]; [auto |]. right.
  destruct (lacks_normalizer env o); [destruct H |]. split; [reflexivity |].
  apply in_app_or in H as [H | H]; [auto |]. right.
  destruct (export_of env o) as [ex |]; [| destruct H].
  exists ex. split; [reflexivity |]. destruct H as [<- | H]; auto.
Qed.

Lemma master_calls_kind (env : Env) (o : Opts) :
  Forall is_mastering (master_calls env o).
Proof.
  apply Forall_forall. intros a Ha. apply list_elem_of_In in Ha.
  apply in_master_calls in Ha as [-> | (_ & [Ha | (ex & Hex & [-> | Ha])])].
  - exact I.
  - pose proof (filters_plain o) as Hf. rewrite Forall_forall in Hf.
    apply list_elem_of_In, Hf in Ha. apply Ha.
  - apply export_of_some in Hex as [[-> _] | (x & -> & _)]; exact I.
  - unfold finish_of in Ha. destruct (keep o); simpl in Ha;
      repeat (destruct Ha as [<- | Ha]; [exact I |]); destruct Ha.
Qed.

Lemma in_wizard_calls (env : Env) (a : Action) :
  In a (wizard_calls env) ->
  In a (cleanup_calls env)
  \/ In a (dialogs_of env)
  \/ (~ cancelled env
      /\ (In a (load_of env)
          \/ exists o, chosen env = Some o /\ In a (master_calls env o))).
Proof.
  unfold wizard_calls. rewrite !in_app_iff.
  intros [H | [H | H]]; [auto | auto |]. right. right.
  destruct (cancelledb env) eqn:Hc; [destruct H |].
  split.
  { intros Hcan. apply cancelledb_spec in Hcan. congruence. }
  apply in_app_or in H as [H | H]; [auto |]. right.
  destruct (chosen env) as [o |]; [| destruct H]. eauto.
Qed.

(** Closes a goal from a call found in a part of the wizard that makes
    no call of its kind. *)
Local Ltac wrong_kind H :=
  exfalso;
  first [ apply (kind_excludes _ _ _ (cleanup_calls_kind _)) in H;
          [exact H | simpl; tauto]
        | apply (kind_excludes _ _ _ (proj1 (dialogs_of_spec _))) in H;
          [exact H | simpl; tauto]
        | apply (kind_excludes _ _ _ (master_calls_kind _ _)) in H;
          [exact H | simpl; tauto]
        | apply in_load_of in H; destruct H as [H _]; discriminate ].

Lemma url_format_listed (w : option Z) : In (format (url_opts w)) wizardFormats.
Proof. unfold url_opts. cbn [format]. apply format_in_wizardFormats. Qed.

Lemma in_finish_of (o : Opts) (a : Action) :
  In a (finish_of o) ->
  a = ExportCaption \/ a = FetchInfo \/ (a = DeleteProject /\ keep o = false)
  \/ a = Alert.
Proof.
  unfold finish_of. destruct (keep o); simpl; intuition.
Qed.

Lemma master_export (env : Env) (o : Opts) (a : Action) :
  In a (master_calls env o) -> is_export a -> export_of env o = Some a.
Proof.
  intros Ha He.
  apply in_master_calls in Ha as [-> | (_ & [Ha | (ex & Hex & [-> | Ha])])].
  - destruct He.
  - pose proof (filters_plain o) as Hf. rewrite Forall_forall in Hf.
    apply list_elem_of_In, Hf in Ha. destruct Ha as (_ & Hn & _). contradiction.
  - exact Hex.
  - apply in_finish_of in Ha as [-> | [-> | [[-> _] | ->]]]; destruct He.
Qed.

Lemma prefix_reaches {A : Type} (d : A) (pre post l rest : list A) :
  l ++ rest = pre ++ d :: post ->
  In d l ->
  ~ In d pre ->
  exists post', l = pre ++ d :: post' /\ exists r, post' ++ r = post.
Proof.
  revert l. induction pre as [|p pre IH]; intros l Heq Hin Hpre.
  - destruct l as [|x l]; [destruct Hin |].
    simpl in Heq. injection Heq as -> Heq. exists l. split; [reflexivity |]. eauto.
  - destruct l as [|x l]; [destruct Hin |].
    simpl in Heq. injection Heq as -> Heq.
    destruct Hin as [-> | Hin]; [exfalso; apply Hpre; left; reflexivity |].
    destruct (IH l Heq Hin) as (post' & -> & Hr).
    { intros H. apply Hpre. right. exact H. }
    exists post'. split; [reflexivity | exact Hr].
Qed.

(** When the wizard, every call fulfilling, deletes the project, that
    is its last call but the alert, after the two exports. *)
Lemma delete_plan (env : Env) :
  In DeleteProject (wizard_calls env) ->
  exists o ex before,
    chosen env = Some o /\ keep o = false
    /\ wizard_calls env = before ++ DeleteProject :: [Alert]
    /\ ~ In DeleteProject before
    /\ In ExportCaption before
    /\ In ex before /\ is_export ex.
Proof.
  intros H.
  destruct (cancelledb env) eqn:Hc.
  { apply in_wizard_calls in H as [H | [H | (Hn & _)]];
      [wrong_kind H | wrong_kind H |].
    exfalso. apply Hn, cancelledb_spec, Hc. }
  pose proof H as Hplan.
  apply in_wizard_calls in H as [H | [H | (_ & [H | (o & Ho & H)])]];
    [wrong_kind H | wrong_kind H | wrong_kind H |].
  apply in_master_calls in H as [H | (Hl & [H | (ex & Hex & [H | H])])].
  - discriminate.
  - pose proof (filters_plain o) as Hf. rewrite Forall_forall in Hf.
    apply list_elem_of_In, Hf in H. destruct H as (_ & _ & Hn & _). congruence.
  - exfalso. rewrite <- H in Hex.
    apply export_of_some in Hex as [[He _] | (x & He & _)]; discriminate.
  - apply in_finish_of in H as [H | [H | [[_ Hk] | H]]]; try discriminate.
    assert (Hex' : is_export ex).
    { apply export_of_some in Hex as [[-> _] | (x & -> & _)]; exact I. }
    exists o, ex,
      (cleanup_calls env ++ dialogs_of env ++ load_of env
         ++ DisableUndo :: filters_of o ++ [ex; ExportCaption; FetchInfo]).
    split; [exact Ho |]. split; [exact Hk |]. split.
    { unfold wizard_calls, master_calls, finish_of.
      rewrite Hc, Ho, Hl, Hex, Hk. cbn [app].
      rewrite <- !app_assoc. cbn [app]. rewrite <- !app_assoc. reflexivity. }
    split.
    { rewrite !in_app_iff.
      intros [Hd | [Hd | [Hd | Hd]]];
        [wrong_kind Hd | wrong_kind Hd | wrong_kind Hd |].
      destruct Hd as [Hd | Hd]; [discriminate |].
      apply in_app_or in Hd as [Hd | Hd].
      - pose proof (filters_plain o) as Hf. rewrite Forall_forall in Hf.
        apply list_elem_of_In, Hf in Hd. destruct Hd as (_ & _ & Hn & _). congruence.
      - destruct Hd as [Hd | [Hd | [Hd | []]]]; try discriminate.
        rewrite Hd in Hex'. destruct Hex'. }
    split.
    { rewrite !in_app_iff. right. right. right. right.
      apply in_or_app. right. simpl. auto. }
    split; [| exact Hex'].
    rewrite !in_app_iff. right. right. right. right.
    apply in_or_app. right. simpl. auto.
Qed.

(** *** What the wizard deletes *)

(** Stored projects: the wizard asks to delete one only when no project
    was passed to it and the name of the stored project starts with
    [craig-], whatever the dialogs answer and however its calls end.  When
    the calls of this part fulfil (the URL, the list of projects, each
    deletion) every such project is deleted; and the first of them to
    reject ends the wizard at once, with that error. *)
Theorem only_craig_projects_deleted (env : Env) :
  (forall id, In (DeleteProjectById id) (craigWizard env).1 ->
     project env = false
     /\ exists name, In (name, id) (projects env) /\ is_craig name = true)
  /\ (project env = false ->
      (forall k, k < 2 + length (craig_ids env) -> rejects env k = None) ->
      forall name id, In (name, id) (projects env) -> is_craig name = true ->
        In (DeleteProjectById id) (craigWizard env).1)
  /\ (project env = false ->
      forall k e,
        k < 2 + length (craig_ids env) ->
        rejects env k = Some e ->
        (forall j, j < k -> rejects env j = None) ->
        craigWizard env
        = (take (S k) (HideURL :: GetProjects
                         :: map DeleteProjectById (craig_ids env)),
           Throw e)).
Proof.
  assert (Hlen : project env = false ->
            cleanup_calls env
            = HideURL :: GetProjects :: map DeleteProjectById (craig_ids env)
            /\ length (cleanup_calls env) = 2 + length (craig_ids env)).
  { intros Hp. unfold cleanup_calls. rewrite Hp. simpl. rewrite length_map. auto. }
  split; [| split].
  - intros id H.
    apply made_is_planned, in_wizard_calls in H
      as [H | [H | (_ & [H | (o & _ & H)])]];
      [| wrong_kind H | wrong_kind H | wrong_kind H].
    apply in_cleanup_delete. exact H.
  - intros Hp Hall name id Hin Hc.
    destruct (Hlen Hp) as [_ Hn].
    assert (Hd : In (DeleteProjectById id) (cleanup_calls env))
      by (apply in_cleanup_delete; eauto).
    rewrite craigWizard_shape.
    pose proof (perform_covers (rejects env) (wizard_throw env)
                  (length (cleanup_calls env)) (wizard_calls env) 0) as Hcov.
    rewrite Hn in Hcov. specialize (Hcov Hall). rewrite <- Hn in Hcov.
    unfold wizard_calls at 2 in Hcov. rewrite take_app_length in Hcov.
    rewrite <- Hcov in Hd.
    rewrite <- (take_drop (length (cleanup_calls env))
                  (perform (rejects env) 0
                     (map Call (wizard_calls env)
                        ++ throw_items (wizard_throw env))).1).
    apply in_or_app. left. exact Hd.
  - intros Hp k e Hk Hrej Hbefore.
    destruct (Hlen Hp) as [Hcl Hn].
    rewrite craigWizard_shape.
    destruct (perform_shape (rejects env) (wizard_calls env) (wizard_throw env) 0)
      as (_ & _ & _ & _ & _ & Hstop).
    rewrite (Hstop k e).
    + unfold wizard_calls. rewrite take_app_le by lia. rewrite Hcl. reflexivity.
    + unfold wizard_calls. rewrite length_app. lia.
    + exact Hrej.
    + exact Hbefore.
Qed.

Lemma only_craig_projects_deleted_witness :
  In (DeleteProjectById "7") (craigWizard url_env).1
  /\ ~ In (DeleteProjectById "8") (craigWizard url_env).1.
Proof.
  destruct (only_craig_projects_deleted url_env) as (H1 & H2 & _).
  split.
  - apply (H2 eq_refl (fun _ _ => eq_refl) "craig-old-1" "7");
      [left; reflexivity | reflexivity].
  - intros H. apply H1 in H as (_ & name & Hin & Hc).
    destruct Hin as [Hin | [Hin | []]]; inversion Hin; subst; discriminate.
Defined.

(** The loaded project is deleted only with options that did not ask to
    keep it, and only after the audio and the captions were exported:
    every call made before, those two exports among them, has fulfilled.
    After the deletion at most the closing alert follows. *)
Theorem project_deleted_only_after_export (env : Env) :
  In DeleteProject (craigWizard env).1 ->
  exists o before after,
    chosen env = Some o /\ keep o = false
    /\ (craigWizard env).1 = before ++ DeleteProject :: after
    /\ In ExportCaption before
    /\ Exists is_export before
    /\ (forall k, k < length before -> rejects env k = None)
    /\ (after = [] \/ after = [Alert]).
Proof.
  intros H.
  destruct (delete_plan env (made_is_planned env _ H))
    as (o & ex & before & Ho & Hk & Hplan & Hnot & Hcap & Hex & Hexp).
  rewrite craigWizard_shape in H |- *.
  destruct (perform_shape (rejects env) (wizard_calls env) (wizard_throw env) 0)
    as ([rest Hrest] & Hful & _).
  set (made := (perform (rejects env) 0
                  (map Call (wizard_calls env)
                     ++ throw_items (wizard_throw env))).1) in *.
  rewrite Hplan in Hrest. symmetry in Hrest.
  destruct (prefix_reaches DeleteProject before [Alert] _ rest Hrest H Hnot)
    as (after & Hmade & r & Hr).
  exists o, before, after.
  split; [exact Ho |]. split; [exact Hk |]. split; [exact Hmade |].
  split; [exact Hcap |]. split.
  { apply Exists_exists. exists ex. split; [apply list_elem_of_In, Hex | exact Hexp]. }
  split.
  { intros k Hlt. exact (Hful before DeleteProject after Hmade k Hlt). }
  destruct after as [|a [|b after]]; [auto | | discriminate].
  injection Hr as -> _. auto.
Qed.

Lemma project_deleted_only_after_export_witness :
  In DeleteProject (craigWizard url_env).1
  /\ exists before after,
       (craigWizard url_env).1 = before ++ DeleteProject :: after
       /\ In ExportCaption before.
Proof.
  assert (H : In DeleteProject (craigWizard url_env).1)
    by (vm_compute; intuition reflexivity).
  split; [exact H |].
  destruct (project_deleted_only_after_export url_env H)
    as (o & before & after & _ & _ & H1 & H2 & _).
  exists before, after. split; [exact H1 | exact H2].
Defined.

(** *** When the wizard imports and masters, and how it fails *)

Lemma chosen_not_cancelled (env : Env) (o : Opts) :
  chosen env = Some o -> cancelledb env = false.
Proof.
  unfold chosen, cancelledb.
  destruct (nonempty (wizardOptsS env)); [reflexivity |].
  destruct (mode env); [reflexivity | discriminate | discriminate].
Qed.

Lemma prefix_past {A : Type} (a : A) (pre post l rest : list A) :
  l ++ rest = pre ++ post ->
  In a l ->
  ~ In a pre ->
  exists x l', l = pre ++ x :: l'.
Proof.
  revert l. induction pre as [|p pre IH]; intros l Heq Hin Hpre.
  - destruct l as [|x l]; [destruct Hin |]. exists x, l. reflexivity.
  - destruct l as [|x l]; [destruct Hin |].
    simpl in Heq. injection Heq as -> Heq.
    destruct Hin as [-> | Hin]; [exfalso; apply Hpre; left; reflexivity |].
    destruct (IH l Heq Hin) as (y & l' & ->).
    { intros H. apply Hpre. right. exact H. }
    exists y, l'. reflexivity.
Qed.

(** What comes before the mastering makes no call of the mastering. *)
Lemma before_master_kind (env : Env) :
  Forall (fun a => ~ is_mastering a)
    (cleanup_calls env ++ dialogs_of env ++ load_of env).
Proof.
  rewrite !Forall_app. split; [| split].
  - eapply Forall_impl; [apply cleanup_calls_kind |].
    intros a; destruct a; simpl; tauto.
  - eapply Forall_impl; [apply dialogs_of_spec |].
    intros a; destruct a; simpl; tauto.
  - unfold load_of. destruct (project env); repeat constructor. simpl. tauto.
Qed.

Lemma wizard_calls_chosen (env : Env) (o : Opts) :
  chosen env = Some o ->
  wizard_calls env
  = (cleanup_calls env ++ dialogs_of env ++ load_of env) ++ master_calls env o.
Proof.
  intros Ho. unfold wizard_calls.
  rewrite (chosen_not_cancelled env o Ho), Ho, <- !app_assoc. reflexivity.
Qed.

Lemma wizard_throw_cases (env : Env) (e : Exn) :
  wizard_throw env = Some e ->
  e = TypeError
  /\ exists o, chosen env = Some o
       /\ ((mix o = true /\ level o = true /\ normalizer env = false)
           \/ (format o <> "aup"
               /\ forall x, ~ In (format o, x) (standardExports env))).
Proof.
  unfold wizard_throw. destruct (cancelledb env); [discriminate |].
  destruct (chosen env) as [o |]; [| discriminate].
  unfold master_throw, lacks_normalizer.
  destruct (mix o) eqn:Hm, (level o) eqn:Hl, (normalizer env) eqn:Hn;
    cbn [andb negb];
    try (intros [= <-]; split; [reflexivity |]; exists o; auto);
    (destruct (export_of env o) as [ex |] eqn:Hex; [discriminate |];
     intros [= <-]; split; [reflexivity |]; exists o; split; [reflexivity |];
     right; apply export_of_none, Hex).
Qed.

(** The import is called only when no project was passed and the first
    dialog was not cancelled, and the mastering only with options settled
    (by the URL alone, or by Go in the second dialog); the mastering starts
    with [disableUndo], after every call before it, the import among them
    when no project was passed, has fulfilled.  When no call rejects these
    conditions are also sufficient.  The wizard fails only with the error
    of its last call, which rejected, or by itself with a [TypeError]: when
    it mixes and levels and the normalizer has no api, or when the chosen
    format names no standard export.  And it ends well only when every
    call it made has fulfilled. *)
Theorem import_and_mastering_conditions (env : Env) :
  let made := (craigWizard env).1 in
  (In LoadData made -> project env = false /\ ~ cancelled env)
  /\ (Exists is_mastering made ->
      (exists o, chosen env = Some o)
      /\ exists before after,
           made = before ++ DisableUndo :: after
           /\ Forall (fun a => ~ is_mastering a) before
           /\ (project env = false -> In LoadData before)
           /\ forall k, k < length before -> rejects env k = None)
  /\ ((forall k, rejects env k = None) ->
      (In LoadData made <-> project env = false /\ ~ cancelled env)
      /\ (Exists is_mastering made <-> exists o, chosen env = Some o))
  /\ (forall e, (craigWizard env).2 = Throw e ->
        (exists k a, made !! k = Some a /\ length made = S k
                     /\ rejects env k = Some e)
        \/ (e = TypeError
            /\ exists o, chosen env = Some o
                 /\ ((mix o = true /\ level o = true /\ normalizer env = false)
                     \/ (format o <> "aup"
                         /\ forall x, ~ In (format o, x) (standardExports env)))))
  /\ ((craigWizard env).2 = Ok () ->
      forall k, k < length made -> rejects env k = None).
Proof.
  intros made.
  assert (Hload : forall l, In LoadData l -> (forall a, In a l -> In a (wizard_calls env)) ->
            project env = false /\ ~ cancelled env).
  { intros l H Hsub. apply Hsub in H.
    apply in_wizard_calls in H as [H | [H | (Hn & [H | (o & _ & H)])]];
      [wrong_kind H | wrong_kind H | | wrong_kind H].
    apply in_load_of in H. tauto. }
  assert (Hmaster : forall l, Exists is_mastering l ->
            (forall a, In a l -> In a (wizard_calls env)) ->
            exists o, chosen env = Some o).
  { intros l H Hsub. apply Exists_exists in H as (a & Ha & Hm).
    apply list_elem_of_In, Hsub in Ha.
    apply in_wizard_calls in Ha as [H | [H | (Hn & [H | (o & Ho & H)])]].
    - exfalso. pose proof (cleanup_calls_kind env) as Hk.
      rewrite Forall_forall in Hk. apply list_elem_of_In, Hk in H.
      destruct a; simpl in *; contradiction.
    - exfalso. pose proof (proj1 (dialogs_of_spec env)) as Hk.
      rewrite Forall_forall in Hk. apply list_elem_of_In, Hk in H.
      destruct a; simpl in *; contradiction.
    - exfalso. apply in_load_of in H as [-> _]. exact Hm.
    - eauto. }
  pose proof (made_is_planned env) as Hsub. fold made in Hsub.
  pose proof (craigWizard_shape env) as Hshape.
  destruct (perform_shape (rejects env) (wizard_calls env) (wizard_throw env) 0)
    as ([rest Hrest] & Hful & Hok & Hthrow & Hcalm & _).
  rewrite <- Hshape in Hrest, Hful, Hok, Hthrow, Hcalm. fold made in Hrest, Hful, Hok.
  split; [intros H; exact (Hload made H Hsub) |].
  split.
  { intros H. destruct (Hmaster made H Hsub) as [o Ho].
    split; [eauto |].
    apply Exists_exists in H as (a & Ha & Hm). apply list_elem_of_In in Ha.
    rewrite (wizard_calls_chosen env o Ho) in Hrest. symmetry in Hrest.
    pose proof (before_master_kind env) as Hkind.
    destruct (prefix_past a _ _ made rest Hrest Ha) as (x & after & Hmade).
    { apply (kind_excludes _ _ _ Hkind). tauto. }
    assert (x = DisableUndo) as ->.
    { rewrite Hmade, <- app_assoc in Hrest. apply app_inv_head in Hrest.
      unfold master_calls in Hrest. simpl in Hrest. congruence. }
    exists (cleanup_calls env ++ dialogs_of env ++ load_of env), after.
    split; [exact Hmade |]. split; [exact Hkind |]. split.
    - intros Hp. rewrite !in_app_iff. right. right. apply in_load_of. auto.
    - intros k Hk. exact (Hful _ _ _ Hmade k Hk). }
  split.
  { intros Hall.
    assert (Hm : made = wizard_calls env).
    { specialize (Hcalm (fun j _ => Hall j)). unfold made. rewrite Hcalm. reflexivity. }
    split.
    - split; [intros H; exact (Hload made H Hsub) |].
      intros [Hp Hn]. rewrite Hm. unfold wizard_calls.
      destruct (cancelledb env) eqn:Hc; [exfalso; apply Hn, cancelledb_spec, Hc |].
      rewrite !in_app_iff. right. right. left. apply in_load_of. auto.
    - split; [intros H; exact (Hmaster made H Hsub) |].
      intros [o Ho]. rewrite Hm, (wizard_calls_chosen env o Ho).
      apply Exists_app. right. unfold master_calls. left. exact I. }
  split.
  { intros e He. destruct (Hthrow e He) as [(j & a & H1 & H2 & H3) | (Ht & _)].
    - left. exists j, a. auto.
    - right. apply wizard_throw_cases, Ht. }
  intros He k Hk. destruct (Hok He) as (Hm & _ & Hall).
  apply (Hall k). rewrite <- Hm. exact Hk.
Qed.

Lemma import_and_mastering_conditions_witness :
  (craigWizard failing_env).2 = Throw (LibavError (-1))
  /\ exists k a,
       (craigWizard failing_env).1 !! k = Some a
       /\ length (craigWizard failing_env).1 = S k
       /\ rejects failing_env k = Some (LibavError (-1)).
Proof.
  assert (H : (craigWizard failing_env).2 = Throw (LibavError (-1))) by reflexivity.
  split; [exact H |].
  destruct (proj1 (proj2 (proj2 (proj2
              (import_and_mastering_conditions failing_env)))) _ H)
    as [Hk | [He _]]; [exact Hk | discriminate].
Defined.

(** *** A run driven by the URL *)

(** A run driven by the URL (options given, bit 9 clear) shows no
    dialog, works with the options of the URL, never exports an Audacity
    project, and exports audio only with the options of a standard export
    named by one of the seven wizard formats. *)
Theorem url_run_asks_nothing (env : Env) :
  nonempty (wizardOptsS env) = true ->
  truthy (band (wizardOpts env) 512) = false ->
  let o := url_opts (wizardOpts env) in
  chosen env = Some o
  /\ ~ In AskMode (craigWizard env).1
  /\ ~ In AskOptions (craigWizard env).1
  /\ ~ In ExportAudacity (craigWizard env).1
  /\ forall x, In (ExportAudio x) (craigWizard env).1 ->
       In (format o) wizardFormats /\ In (format o, x) (standardExports env).
Proof.
  intros Hs Hw o.
  assert (Hch : chosen env = Some o) by (unfold chosen; rewrite Hs, Hw; reflexivity).
  assert (Hd : dialogs_of env = []) by (apply dialogs_of_spec; assumption).
  assert (Hfmt : In (format o) wizardFormats) by apply url_format_listed.
  assert (Haup : format o <> "aup").
  { intros E. rewrite E in Hfmt. simpl in Hfmt. intuition discriminate. }
  split; [exact Hch |].
  assert (Hin : forall a, In a (craigWizard env).1 ->
            In a (cleanup_calls env) \/ In a (load_of env)
            \/ In a (master_calls env o)).
  { intros a Ha.
    apply made_is_planned, in_wizard_calls in Ha
      as [H | [H | (_ & [H | (o' & Ho' & H)])]]; auto.
    - rewrite Hd in H. destruct H.
    - right. right. congruence. }
  refine (conj _ (conj _ (conj _ _))).
  - intros H. apply Hin in H as [H | [H | H]]; wrong_kind H.
  - intros H. apply Hin in H as [H | [H | H]]; wrong_kind H.
  - intros H. apply Hin in H as [H | [H | H]]; [wrong_kind H | wrong_kind H |].
    apply master_export in H; [| exact I].
    apply export_of_some in H as [[_ H] | (x & H & _)]; [contradiction | discriminate].
  - intros x H. apply Hin in H as [H | [H | H]]; [wrong_kind H | wrong_kind H |].
    apply master_export in H; [| exact I].
    apply export_of_some in H as [[H _] | (y & [= <-] & _ & H)]; [discriminate |].
    split; [exact Hfmt | exact H].
Qed.

Lemma url_run_asks_nothing_witness :
  nonempty (wizardOptsS url_env) = true
  /\ truthy (band (wizardOpts url_env) 512) = false
  /\ ~ In AskOptions (craigWizard url_env).1.
Proof.
  assert (H1 : nonempty (wizardOptsS url_env) = true) by reflexivity.
  assert (H2 : truthy (band (wizardOpts url_env) 512) = false) by reflexivity.
  split; [exact H1 |]. split; [exact H2 |].
  exact (proj1 (proj2 (proj2 (url_run_asks_nothing url_env H1 H2)))).
Defined.

End WizardFacts.

(** ** How a loader ends *)

Module OutcomeFacts.
Import Channel Decode Loader Shared LoaderView HandshakeClaims PrepareFacts
       FrameFacts Samples.

Lemma deliver_junk (idx sidx : nat) (c : Chan) (junk : list MsgData) :
  first c = true ->
  Forall (fun d => is_ok_marker d = false) junk ->
  deliver idx sidx c junk = (c, map (fun _ => ConsoleWarn idx) junk).
Proof.
  intros Hf Hjunk.
  induction Hjunk as [|d junk Hd _ IH]; simpl; [reflexivity |].
  rewrite onmessage_invalid_first, IH by assumption. reflexivity.
Qed.

(** The queue holds only messages that were delivered. *)
Lemma deliver_incoming (idx sidx : nat) (ms : list MsgData) (c : Chan) (m : MsgData) :
  In m (incoming (deliver idx sidx c ms).1) -> In m (incoming c) \/ In m ms.
Proof.
  revert c. induction ms as [|d rest IH]; intros c; simpl; [auto |].
  assert (Hon : forall y, In y (incoming (onmessage idx sidx c d).1) ->
                 In y (incoming c) \/ y = d).
  { unfold onmessage. destruct (first c); [destruct (is_ok_marker d) |].
    - destruct (status c !! sidx); simpl; auto.
    - simpl; auto.
    - simpl. intros y Hy. apply in_app_or in Hy as [Hy | [<- | []]]; auto. }
  destruct (onmessage idx sidx c d) as [c1 ev1].
  specialize (IH c1). destruct (deliver idx sidx c1 rest) as [c2 ev2].
  simpl in *. intros Hm. destruct (IH Hm) as [H | H]; [| auto].
  destruct (Hon m H) as [H' | ->]; auto.
Qed.

Lemma tag_states_parts (rsAt : nat -> ReadyState) (parts : list MsgData)
    (p : MsgData * ReadyState) :
  In p (tag_states rsAt parts) -> In p.1 parts.
Proof.
  unfold tag_states. revert rsAt.
  induction parts as [|a parts IH]; intros rsAt; simpl; [tauto |].
  intros [<- | H]; [left; reflexivity |]. right. eapply IH. exact H.
Qed.

Lemma read_sound (q : list (MsgData * ReadyState)) (s : InStream) :
  sound_in q s ->
  let r := read s in
  match r.1.1 with
  | RReject e => pull_threw q e
  | _ => sound_in q r.1.2
  end.
Proof.
  intros [He Hq]. unfold read.
  destruct (sstate s) as [| | e] eqn:Hs; [| simpl; split; [congruence | exact Hq]
                                         | destruct (He e); reflexivity].
  destruct (queue s) as [|[part rs] rest] eqn:Hqs;
    [simpl; split; [congruence | rewrite Hqs; tauto] |].
  destruct (pull_part part rs) as [effs | e] eqn:Hp.
  - destruct (closes effs); simpl; (split; [discriminate |]);
      intros p Hin; apply Hq; right; exact Hin.
  - simpl. exists part, rs. split; [apply Hq; left; reflexivity | exact Hp].
Qed.

Section Loop.
Variable fromPlanar : Z -> Z.
Variable sidx : nat.

Lemma turn_outcome (q : list (MsgData * ReadyState)) (it : Iter) (s : DState)
    (x : Status) :
  sound_in q (inStream s) ->
  table s !! sidx = Some x ->
  let r := turn fromPlanar sidx it s in
  ((forall e, r.2 <> Fail e) -> sound_in q (inStream r.1.1))
  /\ (r.2 = Closed -> read_eof it = true)
  /\ (forall e, r.2 = Fail e -> pull_threw q e \/ libav_threw it e).
Proof.
  intros Hs Hx.
  assert (Hread : let r := read_more s in
            ((forall e, r.2 <> Fail e) -> sound_in q (inStream r.1.1))
            /\ (r.2 = Closed -> read_eof it = true)
            /\ (forall e, r.2 = Fail e -> pull_threw q e \/ libav_threw it e)).
  { unfold read_more. pose proof (read_sound q (inStream s) Hs) as Hr.
    destruct (read (inStream s)) as [[rd ins] effs]. cbn [fst snd] in Hr.
    destruct rd as [v | | e |]; cbn [fst snd].
    - split; [intros _; exact Hr |]. split; discriminate.
    - split; [intros _; exact Hr |]. split; discriminate.
    - split; [intros H; destruct (H e); reflexivity |].
      split; [discriminate |]. intros e' [= <-]. left. exact Hr.
    - split; [intros _; exact Hr |]. split; discriminate. }
  assert (Hdec : let r := decode_and_send fromPlanar sidx it s in
            ((forall e, r.2 <> Fail e) -> sound_in q (inStream r.1.1))
            /\ (r.2 = Closed -> read_eof it = true)
            /\ (forall e, r.2 = Fail e -> pull_threw q e \/ libav_threw it e)).
  { unfold decode_and_send, libav_threw.
    destruct (decoded it) as [frames | e] eqn:Hd.
    2:{ cbn [fst snd]. split; [intros _; exact Hs |].
        split; [discriminate |]. intros e' [= <-]. auto. }
    assert (Hp : let p := prepare_filter fromPlanar it frames s in
              inStream p.1.1 = inStream s /\ table p.1.1 = table s
              /\ (p.2 = Continue \/ exists e, p.2 = Fail e /\ graph it = Throw e)).
    { unfold prepare_filter. destruct frames as [|f0 fs]; [simpl; auto |].
      destruct (buffersrc_ctx s <? 0)%Z; [| simpl; auto].
      destruct (graph it) as [g | e] eqn:Hg; simpl; eauto 6. }
    destruct (prepare_filter fromPlanar it frames s) as [[s1 ev1] n1].
    cbn [fst snd] in Hp. destruct Hp as (Hin1 & Ht1 & Hn1).
    destruct Hn1 as [-> | (e & -> & Hg)].
    2:{ cbn [fst snd]. split; [rewrite Hin1; intros _; exact Hs |].
        split; [discriminate |]. intros e' [= <-]. auto. }
    assert (Hf : let f := filter_and_send sidx it s1 in
              inStream f.1.1 = inStream s1
              /\ f.2 <> Closed /\ f.2 <> Stall
              /\ forall e, f.2 = Fail e -> filtered it = Throw e).
    { unfold filter_and_send.
      destruct (0 <=? buffersrc_ctx s1)%Z;
        [| simpl; repeat split; discriminate].
      destruct (filtered it) as [fframes | e] eqn:Hfl.
      2:{ simpl. repeat split; try discriminate. intros e' [= <-]. reflexivity. }
      rewrite Ht1, Hx.
      destruct (duration x);
        destruct (send_frames (sampleRate (track s1)) _ fframes) as [d2 ev2];
        destruct (read_eof it), fframes; simpl; repeat split; discriminate. }
    destruct (filter_and_send sidx it s1) as [[s2 ev2] n2].
    cbn [fst snd] in Hf. destruct Hf as (Hin2 & Hc2 & Hst2 & Hfail2).
    rewrite <- Hin1, <- Hin2 in Hs.
    destruct n2; try congruence.
    - destruct (read_eof it) eqn:He; cbn [fst snd].
      + split; [intros _; exact Hs |]. split; [reflexivity | discriminate].
      + split; [intros _; exact Hs |]. split; discriminate.
    - cbn [fst snd]. split; [intros _; exact Hs |]. split; discriminate.
    - cbn [fst snd]. split; [intros _; exact Hs |].
      split; [discriminate |]. intros e' [= <-]. right. right. right.
      apply Hfail2. reflexivity. }
  unfold turn. destruct (packets it), (read_eof it) eqn:He;
    try exact Hdec; exact Hread.
Qed.

Lemma run_outcome (q : list (MsgData * ReadyState)) (script : list Iter)
    (s : DState) (x : Status) :
  sound_in q (inStream s) ->
  table s !! sidx = Some x ->
  let r := run fromPlanar sidx script s in
  (r.2 = Completed -> exists it, In it script /\ read_eof it = true)
  /\ (forall e, r.2 = Failed e ->
        pull_threw q e \/ exists it, In it script /\ libav_threw it e).
Proof.
  revert s x. induction script as [|it script IH]; intros s x Hs Hx.
  { simpl. split; discriminate. }
  cbn [run].
  pose proof (turn_outcome q it s x Hs Hx) as (H1 & H2 & H3).
  destruct (turn_frame fromPlanar sidx it s) as (_ & _ & Hk).
  destruct (Hk x Hx) as (x1 & Hx1 & _).
  destruct (turn fromPlanar sidx it s) as [[s1 ev1] n].
  cbn [fst snd] in *.
  assert (Hgo : forall s2 ev2 e,
            run fromPlanar sidx script s1 = (s2, ev2, e) ->
            (forall e', n <> Fail e') ->
            (e = Completed -> exists it0, In it0 (it :: script) /\ read_eof it0 = true)
            /\ (forall e', e = Failed e' ->
                  pull_threw q e'
                  \/ exists it0, In it0 (it :: script) /\ libav_threw it0 e')).
  { intros s2 ev2 e Hrun Hn.
    specialize (IH s1 x1 (H1 Hn) Hx1). rewrite Hrun in IH. cbn [snd] in IH.
    destruct IH as [I1 I2]. split.
    - intros He. destruct (I1 He) as (it0 & Hin & Hit). exists it0. simpl. auto.
    - intros e' He. destruct (I2 e' He) as [Hq | (it0 & Hin & Hit)]; [auto |].
      right. exists it0. simpl. auto. }
  destruct n.
  - destruct (run fromPlanar sidx script s1) as [[s2 ev2] e] eqn:Hrun.
    cbn [snd]. eapply Hgo; [reflexivity | discriminate].
  - destruct (run fromPlanar sidx script s1) as [[s2 ev2] e] eqn:Hrun.
    cbn [snd]. eapply Hgo; [reflexivity | discriminate].
  - cbn [snd]. split; [| discriminate].
    intros _. exists it. split; [left; reflexivity | auto].
  - cbn [snd]. split; [discriminate |].
    intros e' [= <-]. destruct (H3 e eq_refl) as [Hq | Hl]; [auto |].
    right. exists it. split; [left; reflexivity | exact Hl].
  - cbn [snd]. split; discriminate.
Qed.

End Loop.

Lemma prime_sound (q : list (MsgData * ReadyState)) (fuel : nat) (R : Z)
    (s : InStream) :
  sound_in q s ->
  let r := prime fuel R s in
  (forall e, r.2 = Fail e -> pull_threw q e)
  /\ ((forall e, r.2 <> Fail e) -> sound_in q r.1.1).
Proof.
  revert R s. induction fuel as [|fuel IH]; intros R s Hs; cbn [prime].
  { simpl. split; [discriminate | auto]. }
  destruct (0 <? R)%Z; [| simpl; split; [discriminate | auto]].
  pose proof (read_sound q s Hs) as Hr.
  destruct (read s) as [[rd s1] effs]. cbn [fst snd] in Hr.
  destruct rd as [v | | e |].
  - specialize (IH (R - Z.of_nat (length v))%Z s1 Hr).
    destruct (prime fuel _ s1) as [[s2 ev2] n]. exact IH.
  - simpl. split; [discriminate | auto].
  - simpl. split; [intros e' [= <-]; exact Hr |].
    intros H. destruct (H e). reflexivity.
  - simpl. split; [discriminate | auto].
Qed.

Lemma queued_was_delivered (idx sidx : nat) (table : list Status) (env : Env)
    (e : Exn) :
  pull_threw (tag_states (readyStateAt env)
                (incoming (deliver idx sidx (initial_chan table) (msgs env)).1)) e ->
  thrown_in env e.
Proof.
  intros (part & rs & Hin & Hp). left. exists part, rs. split; [| exact Hp].
  apply tag_states_parts in Hin. cbn [fst] in Hin.
  apply deliver_incoming in Hin as [[] | Hin]. exact Hin.
Qed.

(** How a loader whose entry of the status table exists ends.  While the
    socket has not sent the success marker the loader does nothing but
    warn: it never settles, touches neither track nor table, and sends
    libav nothing.  It is fulfilled only when the demuxer and the decoder
    were set up and libav reported the end of the input.  And it is
    rejected only with an error thrown by the pull of a message that the
    socket delivered or by a call of libav. *)
Theorem loader_outcome (fromPlanar : Z -> Z) (tr : Track) (idx sidx : nat)
    (table : list Status) (x : Status) (env : Env) :
  table !! sidx = Some x ->
  let r := loadTrack fromPlanar tr idx sidx table env in
  (Forall (fun d => is_ok_marker d = false) (msgs env) ->
     r = mkRun (map (fun _ => Socket (ConsoleWarn idx)) (msgs env)) tr table Unsettled)
  /\ (settled r = Resolved ->
        init_demuxer (libav env) = Ok () /\ init_decoder (libav env) = Ok ()
        /\ exists it, In it (script (libav env)) /\ read_eof it = true)
  /\ (forall e, settled r = Rejected e -> thrown_in env e).
Proof.
  intros Hx r. subst r. split.
  { intros Hjunk. unfold loadTrack.
    rewrite (deliver_junk idx sidx (initial_chan table) (msgs env) eq_refl Hjunk).
    cbn. change (0 <? 1024 * 1024)%Z with true. cbn.
    rewrite app_nil_r, map_map. reflexivity. }
  pose proof (queued_was_delivered idx sidx table env) as Hdel.
  assert (Hst : exists y,
            status (deliver idx sidx (initial_chan table) (msgs env)).1 !! sidx
            = Some y).
  { destruct (deliver_table idx sidx table x (msgs env) (initial_chan table) Hx)
      as [_ H]; [left; split; reflexivity |].
    rewrite H. destruct (first _); [eauto |].
    exists (set_ready x). apply list_lookup_insert_eq. eapply lookup_lt_Some; eauto. }
  unfold loadTrack.
  destruct (deliver idx sidx (initial_chan table) (msgs env)) as [c ev0].
  cbn [fst] in Hdel, Hst. destruct Hst as [y Hy].
  set (q := tag_states (readyStateAt env) (incoming c)) in *.
  assert (Hq : sound_in q (mkInStream q SReadable))
    by (split; [discriminate | auto]).
  pose proof (prime_sound q (S (length q)) (1024 * 1024) _ Hq) as [Hp1 Hp2].
  cbn [queue].
  destruct (prime (S (length q)) (1024 * 1024) (mkInStream q SReadable))
    as [[inS1 ev1] n1].
  cbn [fst snd] in Hp1, Hp2.
  assert (Hmain : (forall e, n1 <> Fail e) -> n1 <> Stall ->
            let r := match init_demuxer (libav env), init_decoder (libav env) with
                     | Throw e, _ =>
                         mkRun (map Socket ev0 ++ map Stream ev1) tr (status c)
                               (Rejected e)
                     | Ok _, Throw e =>
                         mkRun (map Socket ev0 ++ map Stream ev1) tr (status c)
                               (Rejected e)
                     | Ok _, Ok _ =>
                         let s0 := mkDState inS1 (-1) (-1) (-1) tr (status c) in
                         let '(s, ev2, e) :=
                           run fromPlanar sidx (script (libav env)) s0 in
                         mkRun ((map Socket ev0 ++ map Stream ev1) ++ map Stream ev2)
                               (track s) (Decode.table s)
                               match e with
                               | Completed => Resolved
                               | Failed x => Rejected x
                               | Stalled | Running => Unsettled
                               end
                     end in
            (settled r = Resolved ->
               init_demuxer (libav env) = Ok () /\ init_decoder (libav env) = Ok ()
               /\ exists it, In it (script (libav env)) /\ read_eof it = true)
            /\ (forall e, settled r = Rejected e -> thrown_in env e)).
  { intros Hn _.
    destruct (init_demuxer (libav env)) as [[] | e1] eqn:H1.
    2:{ simpl. split; [discriminate |]. intros e [= <-]. right. left. exact H1. }
    destruct (init_decoder (libav env)) as [[] | e2] eqn:H2.
    2:{ simpl. split; [discriminate |]. intros e [= <-]. right. right. left. exact H2. }
    cbv zeta.
    pose proof (run_outcome fromPlanar sidx q (script (libav env))
                  (mkDState inS1 (-1) (-1) (-1) tr (status c)) y (Hp2 Hn) Hy)
      as [R1 R2].
    destruct (run fromPlanar sidx (script (libav env)) _) as [[s ev2] e].
    cbn [fst snd] in R1, R2. cbn [settled]. split.
    - intros He. destruct e; try discriminate. auto.
    - intros e' He. destruct e; try discriminate. injection He as ->.
      destruct (R2 e' eq_refl) as [Hpt | Hl]; [apply Hdel, Hpt |].
      right. right. right. exact Hl. }
  destruct n1 as [| | | e |].
  - apply Hmain; discriminate.
  - apply Hmain; discriminate.
  - apply Hmain; discriminate.
  - simpl. split; [discriminate |]. intros e' [= <-]. apply Hdel, Hp1. reflexivity.
  - simpl. split; discriminate.
Qed.

Lemma loader_outcome_witness :
  one_entry !! 0 = Some (mkStatus "1-alice" DFalse false)
  /\ settled (loadTrack (fun f => f) blank_track 1 0 one_entry empty_track_env)
     = Resolved
  /\ exists it, In it (script (libav empty_track_env)) /\ read_eof it = true.
Proof.
  assert (H : one_entry !! 0 = Some (mkStatus "1-alice" DFalse false)) by reflexivity.
  assert (Hr : settled (loadTrack (fun f => f) blank_track 1 0 one_entry
                          empty_track_env) = Resolved) by reflexivity.
  split; [exact H |]. split; [exact Hr |].
  exact (proj2 (proj2 (proj1 (proj2
    (loader_outcome (fun f => f) blank_track 1 0 one_entry _ empty_track_env H))
    Hr))).
Defined.

End OutcomeFacts.
